(** * Dynamic ETL: the schema inference engine and the extraction coordinator

    A shallow embedding of [dynamic_etl/schema.py] ([flatten], [infer_type],
    [SchemaGenerator.build], [SchemaGenerator._diff]) and of
    [dynamic_etl/parsers.py] ([ParserEngine.parse] and its six extractors),
    followed by the properties of the design document that they decide. *)

From Stdlib Require Import String Ascii List Arith ZArith Lia Bool.
From Stdlib Require Import Sorted Permutation DecimalString Uint63 Floats.
Import ListNotations.
Open Scope string_scope.

Set Implicit Arguments.
Set Warnings "-register-all".

(** ** Python runtime: outcomes, values, strings, insertion-ordered dicts *)

Module Py.

(** Exceptions, by class. *)
Inductive exn : Type :=
| KeyError (key : string)
| JSONDecodeError
| YAMLError
| ValueError
| TypeError
| IndexError
| InvalidRecordShape
| OtherError (cls : string).

(** A call either returns or raises. *)
Inductive outcome (A : Type) : Type :=
| Return (a : A)
| Raise (e : exn).

Arguments Return {A} a.
Arguments Raise {A} e.

Definition bind {A B : Type} (c : outcome A) (k : A -> outcome B) : outcome B :=
  match c with
  | Return a => k a
  | Raise e => Raise e
  end.

Definition returns {A : Type} (c : outcome A) : Prop := exists a, c = Return a.

(** A Python object.  [VDict] keeps the items in insertion order, each key
    as the text an f-string renders it with; [VOther] is an object of any
    other class (a date, a set, ...) with its [str()] text. *)
Inductive value : Type :=
| VNone
| VBool (b : bool)
| VInt (n : Z)
| VFloat (x : float)
| VStr (s : string)
| VList (elems : list value)
| VDict (items : list (string * value))
| VOther (cls : string) (text : string).

Definition is_none (v : value) : bool :=
  match v with VNone => true | _ => false end.

(** [isinstance(v, cls)]: [bool] is a subclass of [int]. *)
Definition isinstance_bool (v : value) : bool :=
  match v with VBool _ => true | _ => false end.
Definition isinstance_int (v : value) : bool :=
  match v with VBool _ | VInt _ => true | _ => false end.
Definition isinstance_float (v : value) : bool :=
  match v with VFloat _ => true | _ => false end.
Definition isinstance_list (v : value) : bool :=
  match v with VList _ => true | _ => false end.
Definition isinstance_dict (v : value) : bool :=
  match v with VDict _ => true | _ => false end.

(** Decimal text of integers, as [str()] and f-strings print them. *)
Definition str_of_nat (n : nat) : string := NilZero.string_of_uint (Nat.to_uint n).
Definition str_of_Z (n : Z) : string := NilZero.string_of_int (Z.to_int n).

(** A string holds the UTF-8 bytes of a text: a character is a byte that is
    no continuation byte ([10xxxxxx]) followed by its continuation bytes. *)
Definition is_continuation (c : ascii) : bool :=
  Nat.leb 128 (nat_of_ascii c) && Nat.ltb (nat_of_ascii c) 192.

(** [len(s)]: the number of characters. *)
Fixpoint char_count (s : string) : nat :=
  match s with
  | EmptyString => 0
  | String c rest => (if is_continuation c then 0 else 1) + char_count rest
  end.

(** [s[:n]]: the first [n] characters. *)
Fixpoint slice_to (n : nat) (s : string) : string :=
  match s with
  | EmptyString => EmptyString
  | String c rest =>
      if is_continuation c then String c (slice_to n rest)
      else
        match n with
        | O => EmptyString
        | S k => String c (slice_to k rest)
        end
  end.

(** [s.endswith(suffix)]. *)
Definition endswith (s suffix : string) : bool :=
  let n := String.length s in
  let m := String.length suffix in
  Nat.leb m n && String.eqb (substring (n - m) m s) suffix.

(** [s.split(sep)[-1]] for a one-character separator: the text after the
    last separator. *)
Fixpoint last_segment (sep : ascii) (s : string) : string :=
  match s with
  | EmptyString => EmptyString
  | String c rest =>
      if existsb (Ascii.eqb sep) (list_ascii_of_string rest)
      then last_segment sep rest
      else if Ascii.eqb c sep then rest else s
  end.

(** [sep.join(parts)]. *)
Definition join (sep : string) (parts : list string) : string := String.concat sep parts.

(** [x in l] for a list (or set) of strings. *)
Definition mem (x : string) (l : list string) : bool := existsb (String.eqb x) l.

(** [s.add(x)] on a set of strings kept as a duplicate-free list. *)
Definition set_add (s : list string) (x : string) : list string :=
  if mem x s then s else s ++ [x].

(** [set(a) == set(b)]. *)
Definition set_eqb (a b : list string) : bool :=
  forallb (fun x => mem x b) a && forallb (fun x => mem x a) b.

(** [s.replace(old, new)] for a non-empty [old]: the occurrences are taken
    left to right and do not overlap; [skip] counts the characters of the
    occurrence being replaced that are still to be dropped. *)
Fixpoint replace_from (old new : string) (skip : nat) (s : string) : string :=
  match s with
  | EmptyString => EmptyString
  | String c rest =>
      match skip with
      | S k => replace_from old new k rest
      | O =>
          if prefix old s
          then new ++ replace_from old new (String.length old - 1) rest
          else String c (replace_from old new 0 rest)
      end
  end.

Definition replace (old new s : string) : string := replace_from old new 0 s.

(** [s.lower()] on the ASCII letters. *)
Definition lower_ascii (c : ascii) : ascii :=
  let n := nat_of_ascii c in
  if Nat.leb 65 n && Nat.leb n 90 then ascii_of_nat (n + 32) else c.

Fixpoint lower (s : string) : string :=
  match s with
  | EmptyString => EmptyString
  | String c rest => String (lower_ascii c) (lower rest)
  end.

(** *** Floats: [int / int], [min] and [round(x, 2)] *)

Definition float_of_Z (n : Z) : float := PrimFloat.of_uint63 (Uint63.of_Z n).
Definition float_of_nat (n : nat) : float := float_of_Z (Z.of_nat n).

(** [a / b] on two integers below [2^53] (true division). *)
Definition truediv (a b : nat) : float :=
  PrimFloat.div (float_of_nat a) (float_of_nat b).

(** [min(a, b)]: the first argument unless the second is smaller. *)
Definition min_float (a b : float) : float :=
  if PrimFloat.ltb b a then b else a.

(** Nearest integer to [n / 2^k], ties to even. *)
Definition round_half_even_shift (n : Z) (k : Z) : Z :=
  let q := Z.shiftr n k in
  let r := (n - Z.shiftl q k)%Z in
  let half := Z.shiftl 1 (k - 1) in
  if (k <=? 0)%Z then Z.shiftl n (- k)
  else if (r <? half)%Z then q
  else if (half <? r)%Z then (q + 1)%Z
  else if Z.even q then q else (q + 1)%Z.

(** The number of hundredths nearest to the exact value [m * 2^e]. *)
Definition hundredths (m : positive) (e : Z) : Z :=
  round_half_even_shift (100 * Z.pos m) (- e).

Definition float_of_hundredths (h : Z) : float :=
  PrimFloat.div (float_of_Z h) (float_of_Z 100).

(** [round(x, 2)]: the decimal with two fractional digits nearest to the
    exact value of [x] (ties to even), as the nearest float.  From [2^46]
    on the floats are further apart than a hundredth, so that [x] is its
    own rounding; the same holds for zeros, infinities and NaN. *)
Definition round2 (x : float) : float :=
  match Prim2SF x with
  | S754_finite s m e =>
      if PrimFloat.ltb (PrimFloat.abs x) (float_of_Z (2 ^ 46)) then
        let r := float_of_hundredths (hundredths m e) in
        if s then PrimFloat.opp r else r
      else x
  | _ => x
  end.

(** The closest float to 0.99. *)
Definition f0_99 : float := 0x1.fae147ae147aep-1%float.

(** "Rounded to 2 decimal places", in the words of the design document,
    for a float that is zero or positive and below 1, read on its
    specification: [h] is the number of hundredths nearest to the exact
    value [m * 2^e] of the float, the even one of two equally near. *)
Definition nearest_hundredth (x : spec_float) (h : Z) : Prop :=
  match x with
  | S754_zero _ => h = 0%Z
  | S754_finite false m e =>
      (e < 0)%Z /\
      (2 * Z.abs (100 * Z.pos m - h * 2 ^ (- e)) <= 2 ^ (- e))%Z /\
      ((2 * Z.abs (100 * Z.pos m - h * 2 ^ (- e)) = 2 ^ (- e))%Z -> Z.even h = true)
  | _ => False
  end.

(** A float without the sign bit (or a NaN), read on its specification. *)
Definition not_negative (x : spec_float) : bool :=
  match x with
  | S754_nan => true
  | S754_zero s | S754_infinity s | S754_finite s _ _ => negb s
  end.

(** *** Insertion-ordered dictionaries with string keys *)

Section ODict.
Variable V : Type.

Definition odict := list (string * V).

Fixpoint od_get (d : odict) (k : string) : option V :=
  match d with
  | [] => None
  | (k', v) :: rest => if k' =? k then Some v else od_get rest k
  end.

Definition od_mem (d : odict) (k : string) : bool :=
  match od_get d k with Some _ => true | None => false end.

(** [d[k] = v]: an existing key keeps its position. *)
Fixpoint od_set (d : odict) (k : string) (v : V) : odict :=
  match d with
  | [] => [(k, v)]
  | (k', v') :: rest =>
      if k' =? k then (k', v) :: rest else (k', v') :: od_set rest k v
  end.

(** [d.update(other)]. *)
Definition od_update (d other : odict) : odict :=
  fold_left (fun acc kv => od_set acc (fst kv) (snd kv)) other d.

Definition od_keys (d : odict) : list string := map fst d.
End ODict.

Arguments od_get {V} d k.
Arguments od_mem {V} d k.
Arguments od_set {V} d k v.
Arguments od_update {V} d other.
Arguments od_keys {V} d.

(** [sorted(d.items())] for string keys: a stable insertion sort on the key
    (the keys of a dict are distinct, so the values are never compared). *)
Section Sorted.
Variable V : Type.

Fixpoint insert_item (x : string * V) (l : list (string * V)) : list (string * V) :=
  match l with
  | [] => [x]
  | y :: rest =>
      if String.leb (fst x) (fst y) then x :: l else y :: insert_item x rest
  end.

Definition sorted_items (l : list (string * V)) : list (string * V) :=
  fold_right insert_item [] l.

(** The order of the items: by key. *)
Definition key_le (x y : string * V) : Prop := String.leb (fst x) (fst y) = true.
Definition key_lt (x y : string * V) : Prop := String.ltb (fst x) (fst y) = true.
End Sorted.

Arguments key_le {V} x y.
Arguments key_lt {V} x y.

End Py.

(** ** [dynamic_etl/schema.py] *)

Module Schema.
Import Py.

(** [f"{prefix}.{key}" if prefix else key] and [f"{prefix}[{idx}]"]. *)
Definition child_key (prefix key : string) : string :=
  if prefix =? "" then key else prefix ++ "." ++ key.

Definition child_index (prefix : string) (idx : nat) : string :=
  prefix ++ "[" ++ str_of_nat idx ++ "]".

(** [flatten(document, prefix)]: the two loops update [items] with the
    flattening of each child; anything that is neither a dict nor a list is
    stored under the prefix itself. *)
Fixpoint flatten (document : value) (prefix : string) : odict value :=
  match document with
  | VDict entries =>
      (fix each (l : list (string * value)) (items : odict value) : odict value :=
         match l with
         | [] => items
         | (key, v) :: rest =>
             each rest (od_update items (flatten v (child_key prefix key)))
         end) entries []
  | VList elems =>
      (fix each (l : list value) (idx : nat) (items : odict value) : odict value :=
         match l with
         | [] => items
         | v :: rest =>
             each rest (S idx) (od_update items (flatten v (child_index prefix idx)))
         end) elems 0 []
  | _ => od_set [] prefix document
  end.

(** The two loops of [flatten], from any point of the iteration. *)
Fixpoint flatten_entries (prefix : string) (l : list (string * value))
    (items : odict value) : odict value :=
  match l with
  | [] => items
  | (key, v) :: rest =>
      flatten_entries prefix rest (od_update items (flatten v (child_key prefix key)))
  end.

Fixpoint flatten_elems (prefix : string) (l : list value) (idx : nat)
    (items : odict value) : odict value :=
  match l with
  | [] => items
  | v :: rest =>
      flatten_elems prefix rest (S idx)
        (od_update items (flatten v (child_index prefix idx)))
  end.

(** [infer_type(value)]. *)
Definition infer_type (v : value) : string :=
  if is_none v then "null"
  else if isinstance_bool v then "boolean"
  else if isinstance_int v then "integer"
  else if isinstance_float v then "number"
  else if isinstance_list v then "array"
  else if isinstance_dict v then "object"
  else "string".

(** The order of the tests in the words of the design document: boolean
    before integer, then integer, floating-point number, list, mapping,
    else string (a null is told apart first). *)
Definition infer_type_spec (v : value) : string :=
  match v with
  | VNone => "null"
  | VBool _ => "boolean"
  | VInt _ => "integer"
  | VFloat _ => "number"
  | VList _ => "array"
  | VDict _ => "object"
  | VStr _ | VOther _ _ => "string"
  end.

(** The entry of [field_stats] for one path. *)
Record field_stat : Type := {
  count : nat;
  st_nullable : bool;
  examples : list string;
  st_types : list string
}.

(** The [defaultdict] factory. *)
Definition new_stat : field_stat :=
  {| count := 0; st_nullable := false; examples := []; st_types := [] |}.

(** One entry of the schema's [fields]. *)
Record field : Type := {
  name : string;
  path : string;
  types : list string;
  nullable : bool;
  example_value : option string;
  confidence : float;
  suggested_index : bool
}.

(** The diff report: [removed] and [changed] are keys that may be absent. *)
Record diff_report : Type := {
  added : list string;
  removed : option (list string);
  changed : option (list string);
  notes : string
}.

(** The schema document. *)
Record schema : Type := {
  schema_id : string;
  source_id : string;
  version : Z;
  generated_at : string;
  compatible_dbs : list string;
  fields : list field;
  primary_key_candidates : list string;
  ddl : string;
  migration_notes : string
}.

(** A schema document as the storage hands it back: [_diff] reads it with
    [.get], so that [fields], [types] and [nullable] may be missing. *)
Record stored_field : Type := {
  sf_path : string;
  sf_types : option (list string);
  sf_nullable : option bool
}.

Record stored_schema : Type := {
  ss_fields : option (list stored_field)
}.

Definition store_field (f : field) : stored_field :=
  {| sf_path := path f; sf_types := Some (types f); sf_nullable := Some (nullable f) |}.

Definition store (s : schema) : stored_schema :=
  {| ss_fields := Some (map store_field (fields s)) |}.

(** A record handed to [build] is a dict; [d[key]] raises [KeyError]. *)
Definition record := odict value.

Definition getitem (d : odict value) (key : string) : outcome value :=
  match od_get d key with
  | Some v => Return v
  | None => Raise (KeyError key)
  end.

Definition make_record (collection : string) (data : value) (start stop : Z) : record :=
  [("collection", VStr collection); ("data", data);
   ("source_range", VList [VInt start; VInt stop])].

Section Generator.
(** [repr] of a float and of a container, the iteration order of a set
    of strings, the clock and [self.compatible_dbs]. *)
Variable repr_float : float -> string.
Variable repr_container : value -> string.
Variable set_order : list string -> list string.
Variable utcnow : string.
Variable self_compatible_dbs : list string.

(** [str(v)], also what an f-string prints. *)
Definition py_str (v : value) : string :=
  match v with
  | VNone => "None"
  | VBool true => "True"
  | VBool false => "False"
  | VInt n => str_of_Z n
  | VFloat x => repr_float x
  | VStr s => s
  | VList _ | VDict _ => repr_container v
  | VOther _ text => text
  end.

(** The body of the inner loop of [build], on the entry of the path. *)
Definition touch (stats : field_stat) (v : value) : field_stat :=
  let stats := {| count := S (count stats); st_nullable := st_nullable stats;
                  examples := examples stats; st_types := st_types stats |} in
  if is_none v then
    {| count := count stats; st_nullable := true;
       examples := examples stats; st_types := st_types stats |}
  else
    {| count := count stats; st_nullable := st_nullable stats;
       examples := set_add (examples stats) (slice_to 80 (py_str v));
       st_types := set_add (st_types stats) (infer_type v) |}.

(** [field_stats[path]], before the entry is touched. *)
Definition stat_of (field_stats : odict field_stat) (p : string) : field_stat :=
  match od_get field_stats p with
  | Some st => st
  | None => new_stat
  end.

Definition observe (field_stats : odict field_stat) (item : string * value)
    : odict field_stat :=
  od_set field_stats (fst item) (touch (stat_of field_stats (fst item)) (snd item)).

(** [flatten(record["data"], prefix=f"$.{record['collection']}")]. *)
Definition flatten_record (r : record) : outcome (odict value) :=
  bind (getitem r "data") (fun data =>
  bind (getitem r "collection") (fun collection =>
  Return (flatten data ("$." ++ py_str collection)))).

(** The outer loop of [build]. *)
Fixpoint gather (records : list record) (field_stats : odict field_stat)
    : outcome (odict field_stat) :=
  match records with
  | [] => Return field_stats
  | r :: rest =>
      bind (flatten_record r) (fun flattened =>
      gather rest (fold_left observe flattened field_stats))
  end.

(** All the (path, value) pairs that the inner loop goes through. *)
Fixpoint observations (records : list record) : outcome (list (string * value)) :=
  match records with
  | [] => Return []
  | r :: rest =>
      bind (flatten_record r) (fun flattened =>
      bind (observations rest) (fun obs => Return (flattened ++ obs)%list))
  end.

(** The number of records whose flattening has the path. *)
Definition has_path (p : string) (r : record) : bool :=
  match flatten_record r with
  | Return flattened => od_mem flattened p
  | Raise _ => false
  end.

Definition occurrences (p : string) (records : list record) : nat :=
  List.length (filter (has_path p) records).

(** [sorted(types)]: the tags are distinct strings. *)
Definition sorted_strings (l : list string) : list string :=
  map fst (sorted_items (map (fun x => (x, tt)) l)).

Definition field_entry (total_records : nat) (item : string * field_stat) : field :=
  let (p, stats) := item in
  let conf := min_float f0_99 (truediv (count stats) total_records) in
  {| name := last_segment "." p;
     path := p;
     types := match sorted_strings (st_types stats) with
              | [] => ["string"]
              | l => l
              end;
     nullable := st_nullable stats;
     example_value := hd_error (set_order (examples stats));
     confidence := round2 conf;
     suggested_index := endswith p "id" |}.

Definition _map_type (tys : list string) : string :=
  if mem "integer" tys then "BIGINT"
  else if mem "number" tys then "DOUBLE PRECISION"
  else if mem "boolean" tys then "BOOLEAN"
  else if mem "array" tys then "JSONB"
  else if mem "object" tys then "JSONB"
  else "TEXT".

Definition _normalize_column (p : string) : string :=
  lower (replace "." "_" (replace "]" "" (replace "[" "_" (replace "$." "" p)))).

Definition newline : string := String (ascii_of_nat 10) EmptyString.

Definition _build_postgres_ddl (sid : string) (fs : list field) : string :=
  let columns :=
    map (fun f => "    " ++ _normalize_column (path f) ++ " " ++ _map_type (types f)
                  ++ (if nullable f then "" else " NOT NULL")) fs in
  let columns_str :=
    match columns with
    | [] => "    payload JSONB"
    | _ => join ("," ++ newline) columns
    end in
  "CREATE TABLE IF NOT EXISTS " ++ sid ++ "_records (" ++ newline
    ++ columns_str ++ newline ++ ");".

(** [{field["path"]: field for field in fs}]. *)
Definition index_by_path {F : Type} (key : F -> string) (fs : list F) : odict F :=
  fold_left (fun d f => od_set d (key f) f) fs [].

Definition field_changed (f : field) (prev_field : stored_field) : bool :=
  negb (set_eqb (types f)
          (match sf_types prev_field with Some t => t | None => [] end))
  || negb (match sf_nullable prev_field with
           | Some b => Bool.eqb (nullable f) b
           | None => false
           end).

(** [if paths: notes_parts.append(f"<label>{', '.join(paths)}")]. *)
Definition notes_part (label : string) (paths : list string) : list string :=
  match paths with
  | [] => []
  | _ => [label ++ join ", " paths]
  end.

(** [_diff(previous, current)] on the current [fields]. *)
Definition _diff (previous : option stored_schema) (current_fields : list field)
    : diff_report :=
  match previous with
  | None =>
      {| added := map path current_fields; removed := None; changed := None;
         notes := "Initial schema." |}
  | Some prev =>
      let prev_fields :=
        index_by_path sf_path
          (match ss_fields prev with Some l => l | None => [] end) in
      let curr_fields := index_by_path path current_fields in
      let added_ := filter (fun p => negb (od_mem prev_fields p)) (od_keys curr_fields) in
      let removed_ := filter (fun p => negb (od_mem curr_fields p)) (od_keys prev_fields) in
      let changed_ :=
        flat_map (fun kv =>
          match od_get prev_fields (fst kv) with
          | Some prev_field =>
              if field_changed (snd kv) prev_field then [fst kv] else []
          | None => []
          end) curr_fields in
      let notes_parts :=
        List.app (notes_part "Added fields: " added_)
          (List.app (notes_part "Removed fields: " removed_)
             (notes_part "Type/nullable changes: " changed_)) in
      {| added := added_; removed := Some removed_; changed := Some changed_;
         notes := join "; " notes_parts |}
  end.

(** The second loop of [build]: the fields in sorted path order. *)
Definition emit_fields (total_records : nat) (field_stats : odict field_stat)
    : list field :=
  map (field_entry total_records) (sorted_items field_stats).

Definition build (sid : string) (ver : Z) (records : list record)
    (previous_schema : option stored_schema) : outcome (schema * diff_report) :=
  bind (gather records []) (fun field_stats =>
  let total_records := Nat.max 1 (List.length records) in
  let fs := emit_fields total_records field_stats in
  let primary_candidates := map path (filter suggested_index fs) in
  let d := _diff previous_schema fs in
  Return ({| schema_id := sid ++ "_v" ++ str_of_Z ver;
             source_id := sid;
             version := ver;
             generated_at := utcnow ++ "Z";
             compatible_dbs := self_compatible_dbs;
             fields := fs;
             primary_key_candidates := primary_candidates;
             ddl := _build_postgres_ddl sid fs;
             migration_notes := notes d |}, d)).
End Generator.

(** The flattening in the words of the design document: [leaf d p q t] when
    following object keys ([p.k]) and list indices ([p[i]]) from the document
    [d] at path [p] reaches, at path [q], the value [t] that is neither a
    mapping nor a list. *)
Inductive leaf : value -> string -> string -> value -> Prop :=
| leaf_here (v : value) (p : string) :
    isinstance_dict v = false -> isinstance_list v = false -> leaf v p p v
| leaf_key (entries : list (string * value)) (p key : string) (v : value)
    (q : string) (t : value) :
    In (key, v) entries -> leaf v (p ++ "." ++ key) q t ->
    leaf (VDict entries) p q t
| leaf_index (elems : list value) (p : string) (i : nat) (v : value)
    (q : string) (t : value) :
    nth_error elems i = Some v -> leaf v (p ++ "[" ++ str_of_nat i ++ "]") q t ->
    leaf (VList elems) p q t.

(** The same in the order of the traversal: the paths and values that are
    neither a mapping nor a list, as they are reached going through the
    object keys in the order of the dict and the list elements by index. *)
Fixpoint leaves (document : value) (p : string) : list (string * value) :=
  match document with
  | VDict entries =>
      (fix each (l : list (string * value)) : list (string * value) :=
         match l with
         | [] => []
         | (key, v) :: rest => (leaves v (p ++ "." ++ key) ++ each rest)%list
         end) entries
  | VList elems =>
      (fix each (l : list value) (i : nat) : list (string * value) :=
         match l with
         | [] => []
         | v :: rest =>
             (leaves v (p ++ "[" ++ str_of_nat i ++ "]") ++ each rest (S i))%list
         end) elems 0
  | _ => [(p, document)]
  end.

Fixpoint leaves_entries (p : string) (l : list (string * value))
    : list (string * value) :=
  match l with
  | [] => []
  | (key, v) :: rest => (leaves v (p ++ "." ++ key) ++ leaves_entries p rest)%list
  end.

Fixpoint leaves_elems (p : string) (l : list value) (i : nat)
    : list (string * value) :=
  match l with
  | [] => []
  | v :: rest =>
      (leaves v (p ++ "[" ++ str_of_nat i ++ "]") ++ leaves_elems p rest (S i))%list
  end.

(** The value of the last pair of a list that has the key. *)
Fixpoint last_at (q : string) (l : list (string * value)) : option value :=
  match l with
  | [] => None
  | (k, v) :: rest =>
      match last_at q rest with
      | Some t => Some t
      | None => if k =? q then Some v else None
      end
  end.

(** The order of the fields: by path, strictly. *)
Definition path_lt (f g : field) : Prop := String.ltb (path f) (path g) = true.

(** The values seen at one path, in order. *)
Definition values_at (p : string) (obs : list (string * value)) : list value :=
  map snd (filter (fun kv => fst kv =? p) obs).

(** What the design document calls a terminal: a scalar, a null or an
    empty container. *)
Definition terminal (v : value) : bool :=
  match v with
  | VDict (_ :: _) | VList (_ :: _) => false
  | _ => true
  end.

End Schema.

(** ** [build] within the limits of the interpreter *)

Module Limits.
Import Py Schema.

(** The number of nested [flatten] calls that flattening a document
    takes: one for the document and, for a dict or a list, those of its
    deepest child. *)
Fixpoint depth (document : value) : nat :=
  match document with
  | VDict entries =>
      S ((fix deepest (l : list (string * value)) : nat :=
            match l with
            | [] => 0
            | (_, v) :: rest => Nat.max (depth v) (deepest rest)
            end) entries)
  | VList elems =>
      S ((fix deepest (l : list value) : nat :=
            match l with
            | [] => 0
            | v :: rest => Nat.max (depth v) (deepest rest)
            end) elems)
  | _ => 1
  end.

Fixpoint deepest_entries (l : list (string * value)) : nat :=
  match l with
  | [] => 0
  | (_, v) :: rest => Nat.max (depth v) (deepest_entries rest)
  end.

Fixpoint deepest_elems (l : list value) : nat :=
  match l with
  | [] => 0
  | v :: rest => Nat.max (depth v) (deepest_elems rest)
  end.

(** The number of decimal digits of an integer. *)
Definition digits (n : Z) : nat := String.length (str_of_nat (Z.abs_nat n)).

(** [flatten(document, prefix)] when the recursion limit leaves room for
    [frames] nested calls of it: a call beyond them raises
    [RecursionError], which nothing catches. *)
Fixpoint flatten_limited (frames : nat) (document : value) (prefix : string)
    : outcome (odict value) :=
  match frames with
  | O => Raise (OtherError "RecursionError")
  | S room =>
      match document with
      | VDict entries =>
          (fix each (l : list (string * value)) (items : odict value)
               : outcome (odict value) :=
             match l with
             | [] => Return items
             | (key, v) :: rest =>
                 bind (flatten_limited room v (child_key prefix key)) (fun sub =>
                 each rest (od_update items sub))
             end) entries []
      | VList elems =>
          (fix each (l : list value) (idx : nat) (items : odict value)
               : outcome (odict value) :=
             match l with
             | [] => Return items
             | v :: rest =>
                 bind (flatten_limited room v (child_index prefix idx)) (fun sub =>
                 each rest (S idx) (od_update items sub))
             end) elems 0 []
      | _ => Return (od_set [] prefix document)
      end
  end.

Fixpoint flatten_limited_entries (room : nat) (prefix : string)
    (l : list (string * value)) (items : odict value) : outcome (odict value) :=
  match l with
  | [] => Return items
  | (key, v) :: rest =>
      bind (flatten_limited room v (child_key prefix key)) (fun sub =>
      flatten_limited_entries room prefix rest (od_update items sub))
  end.

Fixpoint flatten_limited_elems (room : nat) (prefix : string)
    (l : list value) (idx : nat) (items : odict value) : outcome (odict value) :=
  match l with
  | [] => Return items
  | v :: rest =>
      bind (flatten_limited room v (child_index prefix idx)) (fun sub =>
      flatten_limited_elems room prefix rest (S idx) (od_update items sub))
  end.

Section Interpreter.
Variable repr_float : float -> string.
Variable repr_container : value -> string.
Variable set_order : list string -> list string.
Variable utcnow : string.
Variable self_compatible_dbs : list string.
(** The nested [flatten] calls that the recursion limit leaves room for
    when [build] runs, and [sys.get_int_max_str_digits()]: 0 when the
    interpreter has no limit on the digits of an integer that [str]
    prints. *)
Variable frames : nat.
Variable int_max_str_digits : nat.

Definition too_long (n : Z) : bool :=
  negb (Nat.eqb int_max_str_digits 0) && Nat.ltb int_max_str_digits (digits n).

(** Whether printing the object prints an integer beyond the limit. *)
Fixpoint oversized (v : value) : bool :=
  match v with
  | VInt n => too_long n
  | VList elems => existsb oversized elems
  | VDict items => existsb (fun kv => oversized (snd kv)) items
  | _ => false
  end.

(** [str(v)], which raises [ValueError] on an integer beyond the limit. *)
Definition str_limited (v : value) : outcome string :=
  if oversized v then Raise ValueError
  else Return (py_str repr_float repr_container v).

(** The body of the inner loop of [build]: [str(value)] is called on a
    value that is not null. *)
Definition touch_limited (stats : field_stat) (v : value) : outcome field_stat :=
  if is_none v then Return (touch repr_float repr_container stats v)
  else
    bind (str_limited v) (fun _ =>
    Return (touch repr_float repr_container stats v)).

Definition observe_limited (field_stats : odict field_stat) (item : string * value)
    : outcome (odict field_stat) :=
  bind (touch_limited (stat_of field_stats (fst item)) (snd item)) (fun st =>
  Return (od_set field_stats (fst item) st)).

Fixpoint observe_all (items : list (string * value)) (field_stats : odict field_stat)
    : outcome (odict field_stat) :=
  match items with
  | [] => Return field_stats
  | item :: rest =>
      bind (observe_limited field_stats item) (fun field_stats =>
      observe_all rest field_stats)
  end.

(** The outer loop of [build]: the f-string of the prefix prints the
    collection before [flatten] is called. *)
Fixpoint gather_limited (records : list record) (field_stats : odict field_stat)
    : outcome (odict field_stat) :=
  match records with
  | [] => Return field_stats
  | r :: rest =>
      bind (getitem r "data") (fun data =>
      bind (getitem r "collection") (fun collection =>
      bind (str_limited collection) (fun text =>
      bind (flatten_limited frames data ("$." ++ text)) (fun flattened =>
      bind (observe_all flattened field_stats) (fun field_stats =>
      gather_limited rest field_stats)))))
  end.

(** [build] as the interpreter runs it. *)
Definition build_limited (sid : string) (ver : Z) (records : list record)
    (previous_schema : option stored_schema) : outcome (schema * diff_report) :=
  bind (gather_limited records []) (fun field_stats =>
  let total_records := Nat.max 1 (List.length records) in
  let fs := emit_fields set_order total_records field_stats in
  let primary_candidates := map path (filter suggested_index fs) in
  let d := _diff previous_schema fs in
  Return ({| schema_id := sid ++ "_v" ++ str_of_Z ver;
             source_id := sid;
             version := ver;
             generated_at := utcnow ++ "Z";
             compatible_dbs := self_compatible_dbs;
             fields := fs;
             primary_key_candidates := primary_candidates;
             ddl := _build_postgres_ddl sid fs;
             migration_notes := notes d |}, d)).

(** A record within the limits: its data nest no deeper than the frames
    left and neither its data nor its collection hold an integer that [str]
    refuses. *)
Definition fits (r : record) : bool :=
  match od_get r "data", od_get r "collection" with
  | Some data, Some collection =>
      Nat.leb (depth data) frames && negb (oversized data)
      && negb (oversized collection)
  | _, _ => true
  end.
End Interpreter.

End Limits.

(** ** [dynamic_etl/parsers.py] *)

Module Parsers.
Import Py Schema.

Record ParsedFragment : Type := {
  fragment_type : string;
  start : Z;
  end_ : Z;
  preview : string;
  payload : value;
  extra : odict value
}.

(** The [summary] dict of [parse]: its six counters. *)
Record summary : Type := {
  json_fragments : nat;
  html_tables : nat;
  kv_pairs : nat;
  csv_blocks : nat;
  yaml_blocks : nat;
  text_blocks : nat
}.

(** What the two arguments that every extractor mutates hold. *)
Definition sink : Type := summary * list record.

(** A regex match: [start()], [end()] and the text of the groups read. *)
Record span_match : Type := {
  m_start : Z;
  m_end : Z;
  m_group : string
}.

Record csv_match : Type := {
  c_start : Z;
  c_end : Z;
  c_header : string;
  c_body : string
}.

(** A [<table>] element: the stripped texts of its [th] elements, for each
    [tr] the stripped texts of its [td] and [th] elements, and [str(table)]. *)
Record table_element : Type := {
  th_texts : list string;
  tr_cells : list (list string);
  table_str : string
}.

(** The third-party calls of the module ([regex], [json], [bs4], [yaml],
    [pandas]) and the [str] methods used on the input text. *)
Record library : Type := {
  dataframe : Type;
  json_finditer : string -> list span_match;
  json_sub : string -> string;
  json_loads : string -> outcome value;
  soup_tables : string -> list table_element;
  DataFrame : list (list string) -> option (list string) -> outcome dataframe;
  to_dict_records : dataframe -> value;
  yaml_finditer : string -> list span_match;
  yaml_sub : string -> string;
  yaml_safe_load : string -> outcome value;
  csv_finditer : string -> list csv_match;
  read_csv : string -> outcome dataframe;
  kv_finditer : string -> list (string * string);
  strip : string -> string;
  splitlines : string -> list string
}.

Definition empty_summary : summary :=
  {| json_fragments := 0; html_tables := 0; kv_pairs := 0; csv_blocks := 0;
     yaml_blocks := 0; text_blocks := 0 |}.

Definition is_empty (s : string) : bool :=
  match s with EmptyString => true | _ => false end.

Section Engine.
Variable L : library.

Definition json_fragment (m : span_match) (parsed : value) : ParsedFragment :=
  {| fragment_type := "json"; start := m_start m; end_ := m_end m;
     preview := slice_to 80 (m_group m); payload := parsed; extra := [] |}.

Definition count_json (sm : summary) : summary :=
  {| json_fragments := S (json_fragments sm); html_tables := html_tables sm;
     kv_pairs := kv_pairs sm; csv_blocks := csv_blocks sm;
     yaml_blocks := yaml_blocks sm; text_blocks := text_blocks sm |}.

(** The loop of [_parse_json_fragments]: only [JSONDecodeError] is caught. *)
Fixpoint json_loop (ms : list span_match) (fragments : list ParsedFragment)
    (out : sink) : outcome (list ParsedFragment * sink) :=
  match ms with
  | [] => Return (fragments, out)
  | m :: rest =>
      match json_loads L (m_group m) with
      | Raise JSONDecodeError => json_loop rest fragments out
      | Raise e => Raise e
      | Return parsed =>
          json_loop rest
            (fragments ++ [json_fragment m parsed])%list
            (count_json (fst out),
             (snd out ++ [make_record "json_objects" parsed (m_start m) (m_end m)])%list)
      end
  end.

Definition _parse_json_fragments (text : string) (out : sink)
    : outcome (list ParsedFragment * sink) :=
  json_loop (json_finditer L text) [] out.

(** [_table_to_dataframe(headers, rows)], for a non-empty [rows]. *)
Definition _table_to_dataframe (headers : list string) (rows : list (list string))
    : outcome (dataframe L) :=
  match headers, rows with
  | _ :: _, first :: others =>
      if Nat.eqb (List.length headers) (List.length first)
      then DataFrame L others (Some headers)
      else DataFrame L rows None
  | _, _ => DataFrame L rows None
  end.

Definition count_html (sm : summary) : summary :=
  {| json_fragments := json_fragments sm; html_tables := S (html_tables sm);
     kv_pairs := kv_pairs sm; csv_blocks := csv_blocks sm;
     yaml_blocks := yaml_blocks sm; text_blocks := text_blocks sm |}.

Definition nonempty_rows (t : table_element) : list (list string) :=
  filter (fun cells => match cells with [] => false | _ => true end) (tr_cells t).

(** The loop of [_parse_html_fragments]: nothing is caught. *)
Fixpoint html_loop (tables : list table_element) (idx : nat)
    (fragments : list ParsedFragment) (out : sink)
    : outcome (list ParsedFragment * sink) :=
  match tables with
  | [] => Return (fragments, out)
  | t :: rest =>
      match nonempty_rows t with
      | [] => html_loop rest (S idx) fragments out
      | rows =>
          bind (_table_to_dataframe (th_texts t) rows) (fun df =>
          html_loop rest (S idx)
            (fragments ++
               [{| fragment_type := "html_table"; start := -1; end_ := -1;
                   preview := slice_to 80 (table_str t);
                   payload := to_dict_records L df; extra := [] |}])%list
            (count_html (fst out),
             (snd out ++
                [make_record ("html_table_" ++ str_of_nat idx)
                   (to_dict_records L df) (-1) (-1)])%list))
      end
  end.

Definition _parse_html_fragments (text : string) (out : sink)
    : outcome (list ParsedFragment * sink) :=
  html_loop (soup_tables L text) 0 [] out.

Definition count_yaml (sm : summary) : summary :=
  {| json_fragments := json_fragments sm; html_tables := html_tables sm;
     kv_pairs := kv_pairs sm; csv_blocks := csv_blocks sm;
     yaml_blocks := S (yaml_blocks sm); text_blocks := text_blocks sm |}.

(** The loop of [_parse_yaml_blocks]: only [YAMLError] is caught. *)
Fixpoint yaml_loop (ms : list span_match) (fragments : list ParsedFragment)
    (out : sink) : outcome (list ParsedFragment * sink) :=
  match ms with
  | [] => Return (fragments, out)
  | m :: rest =>
      let yaml_text := strip L (m_group m) in
      if is_empty yaml_text then yaml_loop rest fragments out
      else
        match yaml_safe_load L yaml_text with
        | Raise YAMLError => yaml_loop rest fragments out
        | Raise e => Raise e
        | Return loaded =>
            yaml_loop rest
              (fragments ++
                 [{| fragment_type := "yaml"; start := m_start m; end_ := m_end m;
                     preview := slice_to 80 yaml_text; payload := loaded;
                     extra := [] |}])%list
              (count_yaml (fst out),
               (snd out ++
                  [make_record "yaml_blocks" loaded (m_start m) (m_end m)])%list)
        end
  end.

Definition _parse_yaml_blocks (text : string) (out : sink)
    : outcome (list ParsedFragment * sink) :=
  yaml_loop (yaml_finditer L text) [] out.

Definition count_csv (sm : summary) : summary :=
  {| json_fragments := json_fragments sm; html_tables := html_tables sm;
     kv_pairs := kv_pairs sm; csv_blocks := S (csv_blocks sm);
     yaml_blocks := yaml_blocks sm; text_blocks := text_blocks sm |}.

Definition span_in (sp : Z * Z) (seen : list (Z * Z)) : bool :=
  existsb (fun q => Z.eqb (fst q) (fst sp) && Z.eqb (snd q) (snd sp)) seen.

(** The loop of [_parse_csv_blocks]: every exception of [read_csv] is
    caught; the preview is computed after the [try]. *)
Fixpoint csv_loop (ms : list csv_match) (seen_spans : list (Z * Z))
    (fragments : list ParsedFragment) (out : sink)
    : outcome (list ParsedFragment * sink) :=
  match ms with
  | [] => Return (fragments, out)
  | m :: rest =>
      let sp := (c_start m, c_end m) in
      if span_in sp seen_spans then csv_loop rest seen_spans fragments out
      else
        let seen_spans := sp :: seen_spans in
        let csv_text := c_header m ++ Schema.newline ++ c_body m in
        match read_csv L csv_text with
        | Raise _ => csv_loop rest seen_spans fragments out
        | Return df =>
            match splitlines L csv_text with
            | [] => Raise IndexError
            | first :: _ =>
                csv_loop rest seen_spans
                  (fragments ++
                     [{| fragment_type := "csv"; start := c_start m; end_ := c_end m;
                         preview := slice_to 80 first;
                         payload := to_dict_records L df; extra := [] |}])%list
                  (count_csv (fst out),
                   (snd out ++
                      [make_record "csv_blocks" (to_dict_records L df)
                         (c_start m) (c_end m)])%list)
            end
        end
  end.

Definition _parse_csv_blocks (text : string) (out : sink)
    : outcome (list ParsedFragment * sink) :=
  csv_loop (csv_finditer L text) [] [] out.

(** [_parse_key_values]: one fragment and one record for all the lines. *)
Definition kv_pair (m : string * string) : string * string :=
  (replace " " "_" (lower (strip L (fst m))), strip L (snd m)).

Definition pair_dict (kv : string * string) : value :=
  VDict [("key", VStr (fst kv)); ("value", VStr (snd kv))].

Definition _parse_key_values (text : string) (out : sink)
    : outcome (list ParsedFragment * sink) :=
  let pairs := map kv_pair (kv_finditer L text) in
  match pairs with
  | [] => Return ([], out)
  | first :: _ =>
      let sm := fst out in
      Return
        ([{| fragment_type := "key_value_pairs"; start := -1; end_ := -1;
             preview := fst first ++ "=" ++ snd first;
             payload := VList (map pair_dict pairs); extra := [] |}],
         ({| json_fragments := json_fragments sm; html_tables := html_tables sm;
             kv_pairs := kv_pairs sm + List.length pairs;
             csv_blocks := csv_blocks sm; yaml_blocks := yaml_blocks sm;
             text_blocks := text_blocks sm |},
          (snd out ++
             [make_record "key_values"
                (VDict (fold_left (fun d kv => od_set d (fst kv) (VStr (snd kv)))
                          pairs []))
                (-1) (-1)])%list))
  end.

(** [_parse_text_blocks]: the lines left once the JSON and YAML matches
    are cut out. *)
Fixpoint text_loop (blocks : list string) (idx : nat)
    (fragments : list ParsedFragment) (records : list record)
    : list ParsedFragment * list record :=
  match blocks with
  | [] => (fragments, records)
  | block :: rest =>
      text_loop rest (S idx)
        (fragments ++
           [{| fragment_type := "text"; start := -1; end_ := -1;
               preview := slice_to 80 block;
               payload := VDict [("text", VStr block)]; extra := [] |}])%list
        (records ++
           [make_record "text_blocks"
              (VDict [("text", VStr block); ("sequence", VInt (Z.of_nat idx))])
              (-1) (-1)])%list
  end.

Definition _parse_text_blocks (text : string) (out : sink)
    : outcome (list ParsedFragment * sink) :=
  let sanitized := yaml_sub L (json_sub L text) in
  let blocks :=
    map (strip L)
      (filter (fun line => negb (is_empty (strip L line))) (splitlines L sanitized)) in
  match blocks with
  | [] => Return ([], out)
  | _ =>
      let sm := fst out in
      let (fragments, records) := text_loop blocks 0 [] (snd out) in
      Return
        (fragments,
         ({| json_fragments := json_fragments sm; html_tables := html_tables sm;
             kv_pairs := kv_pairs sm; csv_blocks := csv_blocks sm;
             yaml_blocks := yaml_blocks sm;
             text_blocks := text_blocks sm + List.length blocks |},
          records))
  end.

(** One [fragments.extend(self._parse_...(text, summary, records))]. *)
Definition extend
    (stage : string -> sink -> outcome (list ParsedFragment * sink))
    (text : string) (acc : list ParsedFragment * sink)
    : outcome (list ParsedFragment * sink) :=
  bind (stage text (snd acc)) (fun r =>
  Return ((fst acc ++ fst r)%list, snd r)).

(** [ParserEngine.parse(text)]: fragments, summary and records. *)
Definition parse (text : string)
    : outcome (list ParsedFragment * summary * list record) :=
  bind (extend _parse_json_fragments text ([], (empty_summary, []))) (fun a =>
  bind (extend _parse_html_fragments text a) (fun a =>
  bind (extend _parse_yaml_blocks text a) (fun a =>
  bind (extend _parse_csv_blocks text a) (fun a =>
  bind (extend _parse_key_values text a) (fun a =>
  bind (extend _parse_text_blocks text a) (fun a =>
  Return (fst a, fst (snd a), snd (snd a)))))))).
End Engine.

End Parsers.

(** ** Sample inputs *)

Module Samples.
Import Py Schema Parsers.

(** No sample renders a float or a container; a set is iterated in
    insertion order. *)
Definition repr_float0 (x : float) : string := "0.0".
Definition repr_container0 (v : value) : string := "[]".
Definition set_order0 (l : list string) : list string := l.

Definition build0 : string -> Z -> list record -> option stored_schema
                    -> outcome (schema * diff_report) :=
  build repr_float0 repr_container0 set_order0 "2024-01-01T00:00:00"
    ["mongodb"; "postgresql"].

(** The records of [{"a": 1, "b": true}], of [{"a": null, "user_id": 7}]
    and of a YAML block holding a set. *)
Definition record_ab : record :=
  make_record "json_objects" (VDict [("a", VInt 1); ("b", VBool true)]) 0 19.
Definition record_null : record :=
  make_record "json_objects" (VDict [("a", VNone); ("user_id", VInt 7)]) 20 46.
Definition record_set : record :=
  make_record "yaml_blocks" (VOther "set" "{'a', 'b'}") 0 18.
Definition record_only_null : record :=
  make_record "json_objects" (VDict [("gone", VNone)]) 0 14.

(** Two sample texts.  In the first a table has a header row of two cells
    and a data row of three.  The second holds a brace group that is no JSON
    and an empty JSON object. *)
Definition ragged_text : string :=
  "<table><tr><th>a</th><th>b</th></tr><tr><td>1</td><td>2</td><td>3</td></tr></table>".

Definition ragged_table : table_element :=
  {| th_texts := ["a"; "b"];
     tr_cells := [["a"; "b"]; ["1"; "2"; "3"]];
     table_str := ragged_text |}.

Definition mixed_text : string := "{oops} {}".

(** [pandas.DataFrame(data, columns=...)] on rows of strings: the rows are
    padded with [None] to the widest one, and column names that differ in
    number from that width are refused with a [ValueError]. *)
Definition frame : Type := list (list (string * value)).

Definition widest (data : list (list string)) : nat :=
  fold_right (fun row w => Nat.max (List.length row) w) 0 data.

Definition frame_row (columns : list string) (cells : list string)
    : list (string * value) :=
  combine columns
    (map VStr cells ++ repeat VNone (List.length columns - List.length cells))%list.

Definition make_frame (data : list (list string)) (columns : option (list string))
    : outcome frame :=
  match columns with
  | Some names =>
      match data with
      | [] => Return []
      | _ =>
          if Nat.eqb (List.length names) (widest data)
          then Return (map (frame_row names) data)
          else Raise ValueError
      end
  | None => Return (map (frame_row (map str_of_nat (seq 0 (widest data)))) data)
  end.

(** The third-party calls as they answer on the two sample texts: the
    first text has no brace, the second has two brace groups and no table,
    and neither has a YAML block, a CSV section or a key-value line. *)
Definition sample_library : library :=
  {| dataframe := frame;
     json_finditer := fun text =>
       if text =? mixed_text
       then [{| m_start := 0; m_end := 6; m_group := "{oops}" |};
             {| m_start := 7; m_end := 9; m_group := "{}" |}]
       else [];
     json_sub := fun text => if text =? mixed_text then " " else text;
     json_loads := fun s => if s =? "{}" then Return (VDict []) else Raise JSONDecodeError;
     soup_tables := fun text => if text =? ragged_text then [ragged_table] else [];
     DataFrame := make_frame;
     to_dict_records := fun df => VList (map VDict df);
     yaml_finditer := fun _ => [];
     yaml_sub := fun text => text;
     yaml_safe_load := fun _ => Raise YAMLError;
     csv_finditer := fun _ => [];
     read_csv := fun _ => Raise (OtherError "EmptyDataError");
     kv_finditer := fun _ => [];
     strip := fun s => if s =? " " then "" else s;
     splitlines := fun s => [s] |}.

(** The same calls with a table constructor that names the columns by
    position whatever the header is, and so takes every table. *)
Definition positional_library : library :=
  {| dataframe := frame;
     json_finditer := json_finditer sample_library;
     json_sub := json_sub sample_library;
     json_loads := json_loads sample_library;
     soup_tables := soup_tables sample_library;
     DataFrame := fun data _ => make_frame data None;
     to_dict_records := to_dict_records sample_library;
     yaml_finditer := yaml_finditer sample_library;
     yaml_sub := yaml_sub sample_library;
     yaml_safe_load := yaml_safe_load sample_library;
     csv_finditer := csv_finditer sample_library;
     read_csv := read_csv sample_library;
     kv_finditer := kv_finditer sample_library;
     strip := strip sample_library;
     splitlines := splitlines sample_library |}.

(** A text of two key-value lines with the same key up to case, and the
    calls as they answer on it. *)
Definition kv_text : string := "Name: Ada" ++ newline ++ "name: Bob".

Definition kv_library : library :=
  {| dataframe := frame;
     json_finditer := json_finditer sample_library;
     json_sub := json_sub sample_library;
     json_loads := json_loads sample_library;
     soup_tables := soup_tables sample_library;
     DataFrame := make_frame;
     to_dict_records := to_dict_records sample_library;
     yaml_finditer := yaml_finditer sample_library;
     yaml_sub := yaml_sub sample_library;
     yaml_safe_load := yaml_safe_load sample_library;
     csv_finditer := csv_finditer sample_library;
     read_csv := read_csv sample_library;
     kv_finditer := fun text =>
       if text =? kv_text then [("Name", "Ada"); ("name", "Bob")] else [];
     strip := strip sample_library;
     splitlines := fun text =>
       if text =? kv_text then ["Name: Ada"; "name: Bob"] else [text] |}.

(** [str.splitlines()] on a text whose only line break is the newline. *)
Fixpoint lines_from (line : string) (s : string) : list string :=
  match s with
  | EmptyString => if is_empty line then [] else [line]
  | String c rest =>
      if Ascii.eqb c (ascii_of_nat 10) then line :: lines_from EmptyString rest
      else lines_from (line ++ String c EmptyString) rest
  end.

(** A text with an empty JSON object, a CSV section and a key-value line;
    a text with two CSV sections that a blank line parts; and the calls as
    they answer on the two: no line has blanks around it, and neither text
    has a table or a YAML block. *)
Definition sections_text : string :=
  "{}" ++ newline ++ newline ++ "a,b" ++ newline ++ "1,2" ++ newline ++ newline
    ++ "Name: Ada".

Definition tables_text : string :=
  "a,b" ++ newline ++ "1,2" ++ newline ++ newline ++ "c,d" ++ newline ++ "3,4".

Definition sections_library : library :=
  {| dataframe := frame;
     json_finditer := fun text =>
       if text =? sections_text
       then [{| m_start := 0; m_end := 2; m_group := "{}" |}]
       else [];
     json_sub := fun text =>
       if text =? sections_text
       then newline ++ newline ++ "a,b" ++ newline ++ "1,2" ++ newline ++ newline
              ++ "Name: Ada"
       else text;
     json_loads := json_loads sample_library;
     soup_tables := fun _ => [];
     DataFrame := make_frame;
     to_dict_records := to_dict_records sample_library;
     yaml_finditer := fun _ => [];
     yaml_sub := fun text => text;
     yaml_safe_load := yaml_safe_load sample_library;
     csv_finditer := fun text =>
       if text =? sections_text
       then [{| c_start := 4; c_end := 12; c_header := "a,b";
                c_body := "1,2" ++ newline |}]
       else if text =? tables_text
       then [{| c_start := 0; c_end := 8; c_header := "a,b";
                c_body := "1,2" ++ newline |};
             {| c_start := 9; c_end := 16; c_header := "c,d"; c_body := "3,4" |}]
       else [];
     read_csv := fun csv_text =>
       if csv_text =? "a,b" ++ newline ++ "1,2" ++ newline
       then Return [[("a", VInt 1); ("b", VInt 2)]]
       else if csv_text =? "c,d" ++ newline ++ "3,4"
       then Return [[("c", VInt 3); ("d", VInt 4)]]
       else Raise (OtherError "EmptyDataError");
     kv_finditer := fun text =>
       if text =? sections_text then [("Name", "Ada")] else [];
     strip := fun s => s;
     splitlines := lines_from EmptyString |}.

(** The two schema versions of the design document: [$.x] goes from
    integer to string and [$.y] is new. *)
Definition field_of (p : string) (tys : list string) : field :=
  {| name := last_segment "." p; path := p; types := tys; nullable := false;
     example_value := None; confidence := f0_99; suggested_index := endswith p "id" |}.

Definition fields_v1 : list field := [field_of "$.x" ["integer"]].
Definition fields_v2 : list field :=
  [field_of "$.x" ["string"]; field_of "$.y" ["integer"]].

End Samples.

(** ** [dynamic_etl/llm.py] and the filter of [app.py] *)

Module Llm.
Import Py Schema.

(** [sub in s]. *)
Fixpoint contains (sub s : string) : bool :=
  prefix sub s ||
  match s with
  | EmptyString => false
  | String _ rest => contains sub rest
  end.

Fixpoint drop (n : nat) (s : string) : string :=
  match n, s with
  | S k, String _ rest => drop k rest
  | _, _ => s
  end.

(** [s.split(sep, 1)] when [sep] occurs in [s]: the text before and the
    text after the first occurrence. *)
Fixpoint split_once (sep s : string) : option (string * string) :=
  if prefix sep s then Some (EmptyString, drop (String.length sep) s)
  else
    match s with
    | EmptyString => None
    | String c rest =>
        match split_once sep rest with
        | Some (before, after) => Some (String c before, after)
        | None => None
        end
    end.

(** [s.strip(chars)] for a set of characters. *)
Fixpoint lstrip_chars (set : list ascii) (s : string) : string :=
  match s with
  | String c rest =>
      if existsb (Ascii.eqb c) set then lstrip_chars set rest else s
  | EmptyString => EmptyString
  end.

Fixpoint rstrip_chars (set : list ascii) (s : string) : string :=
  match s with
  | String c rest =>
      match rstrip_chars set rest with
      | EmptyString => if existsb (Ascii.eqb c) set then EmptyString else String c EmptyString
      | kept => String c kept
      end
  | EmptyString => EmptyString
  end.

Definition strip_chars (set : list ascii) (s : string) : string :=
  rstrip_chars set (lstrip_chars set s).

(** The schema document handed to the engine, read with [.get]: what it
    holds under "primary_key_candidates" may be any object. *)
Record schema_doc : Type := {
  doc_fields : option (list stored_field);
  doc_candidates : option value
}.

(** The document of a schema made by [build]. *)
Definition document (s : schema) : schema_doc :=
  {| doc_fields := Some (map store_field (fields s));
     doc_candidates := Some (VList (map VStr (primary_key_candidates s))) |}.

(** [any(t in ("integer", "number") for t in field.get("types", []))]. *)
Definition is_numeric (f : stored_field) : bool :=
  existsb (fun t => mem t ["integer"; "number"])
    (match sf_types f with Some l => l | None => [] end).

Section Heuristic.
(** [repr] of a float and of a container. *)
Variable repr_float : float -> string.
Variable repr_container : value -> string.
(** What iterating an object of another class (with its class name and
    text) and reading its item 0 do. *)
Variable iter_other : string -> string -> outcome unit.
Variable item0_other : string -> string -> outcome value.
(** [str.strip()]. *)
Variable strip : string -> string.

(** [for candidate in v: field = candidate; break], whose [field] is read
    nowhere: a list, a string and a dict are iterated; a null, a boolean
    and a number are not iterable. *)
Definition iterates (v : value) : outcome unit :=
  match v with
  | VList _ | VStr _ | VDict _ => Return tt
  | VNone | VBool _ | VInt _ | VFloat _ => Raise TypeError
  | VOther cls text => iter_other cls text
  end.

(** [v[0]]: the first element of a list and the first character of a
    string, [IndexError] when there is none; a dict of a stored document
    has string keys, so that the key [0] is missing; a null, a boolean and
    a number are not subscriptable. *)
Definition item0 (v : value) : outcome value :=
  match v with
  | VList (first :: _) => Return first
  | VList [] => Raise IndexError
  | VStr EmptyString => Raise IndexError
  | VStr s => Return (VStr (slice_to 1 s))
  | VDict _ => Raise (KeyError "0")
  | VNone | VBool _ | VInt _ | VFloat _ => Raise TypeError
  | VOther cls text => item0_other cls text
  end.

(** [_pick_numeric_field(schema)]: indexing an empty candidate list raises. *)
Definition _pick_numeric_field (doc : schema_doc) : outcome value :=
  match find is_numeric (match doc_fields doc with Some l => l | None => [] end) with
  | Some f => Return (VStr (replace "$." "" (sf_path f)))
  | None =>
      item0 (match doc_candidates doc with
             | Some v => v
             | None => VList [VStr "value"]
             end)
  end.

(** The [query["find"]] dict after the equality clause was looked for. *)
Definition find_clause (lowered : string) : odict value :=
  if contains "where" lowered && contains " is " lowered then
    match split_once "where" lowered with
    | Some (_, after) =>
        let clause := strip after in
        if contains " is " clause then
          match split_once " is " clause with
          | Some (field, v) =>
              [(replace " " "_" (strip field),
                VStr (strip_chars ["'"%char; "."%char] (strip v)))]
          | None => []
          end
        else []
    | None => []
    end
  else [].

(** [[{"$match": find}] if find else []]. *)
Definition match_stage (find : odict value) : list value :=
  match find with
  | [] => []
  | _ => [VDict [("$match", VDict find)]]
  end.

(** [_heuristic_translation(nl_query, schema)]; the f-string of the
    average stage prints the field picked. *)
Definition _heuristic_translation (nl_query : string) (doc : schema_doc)
    : outcome value :=
  let lowered := lower nl_query in
  let find := find_clause lowered in
  if contains "count" lowered then
    bind (iterates (match doc_candidates doc with
                    | Some v => v
                    | None => VList []
                    end)) (fun _ =>
    Return (VDict [("aggregate",
              VList (match_stage find ++ [VDict [("$count", VStr "total")]])%list)]))
  else if contains "average" lowered || contains "avg" lowered then
    bind (_pick_numeric_field doc) (fun numeric_field =>
    Return (VDict [("aggregate",
              VList (match_stage find ++
                     [VDict [("$group",
                        VDict [("_id", VNone);
                               ("average",
                                VDict [("$avg",
                                        VStr ("$" ++ py_str repr_float repr_container
                                                       numeric_field))])])]])%list)]))
  else
    Return (VDict [("find", VDict find); ("projection", VDict [("_id", VInt 0)])]).
End Heuristic.

(** [_qualify_filter(raw_filter)] of [execute_translated_query]. *)
Definition _qualify_filter (raw_filter : odict value) : odict value :=
  fold_left (fun qualified kv =>
               od_set qualified ("data." ++ replace "$." "" (fst kv)) (snd kv))
    raw_filter [].

End Llm.

Module LlmSamples.
Import Py Llm.

(** [strip] on blanks only, for the sample questions. *)
Definition strip_blanks (s : string) : string := strip_chars [" "%char] s.

(** Objects of another class that are neither iterable nor subscriptable
    (a date, an object id). *)
Definition plain_iter (cls text : string) : outcome unit := Raise TypeError.
Definition plain_item0 (cls text : string) : outcome value := Raise TypeError.

End LlmSamples.

(** ** Views of the results, used to state their properties *)

Module Views.
Import Py Schema Parsers.

(** The paths of a stored schema. *)
Definition previous_paths (prev : stored_schema) : list string :=
  map sf_path (match ss_fields prev with Some l => l | None => [] end).

(** The number of fragments of one type. *)
Definition count_type (ty : string) (fragments : list ParsedFragment) : nat :=
  List.length (filter (fun fr => fragment_type fr =? ty) fragments).

(** A summary advanced by the fragments of a list and by a number of
    key-value lines. *)
Definition tally (fragments : list ParsedFragment) (kv_lines : nat) (sm : summary)
    : summary :=
  {| json_fragments := json_fragments sm + count_type "json" fragments;
     html_tables := html_tables sm + count_type "html_table" fragments;
     kv_pairs := kv_pairs sm + kv_lines;
     csv_blocks := csv_blocks sm + count_type "csv" fragments;
     yaml_blocks := yaml_blocks sm + count_type "yaml" fragments;
     text_blocks := text_blocks sm + count_type "text" fragments |}.

(** The collection that goes with a fragment type. *)
Definition collection_matches (ty collection : string) : bool :=
  if ty =? "json" then collection =? "json_objects"
  else if ty =? "html_table" then prefix "html_table_" collection
  else if ty =? "yaml" then collection =? "yaml_blocks"
  else if ty =? "csv" then collection =? "csv_blocks"
  else if ty =? "key_value_pairs" then collection =? "key_values"
  else if ty =? "text" then collection =? "text_blocks"
  else false.

(** The fragment types whose record holds the payload itself. *)
Definition keeps_payload (ty : string) : bool :=
  (ty =? "json") || (ty =? "html_table") || (ty =? "yaml") || (ty =? "csv").

(** A record made from a fragment: the same range, the collection of the
    fragment type and, for a structured fragment, the payload as data. *)
Definition derived (fr : ParsedFragment) (r : record) : Prop :=
  od_get r "source_range" = Some (VList [VInt (start fr); VInt (end_ fr)]) /\
  (exists c, od_get r "collection" = Some (VStr c) /\
             collection_matches (fragment_type fr) c = true) /\
  (keeps_payload (fragment_type fr) = true -> od_get r "data" = Some (payload fr)).

(** What one extractor adds: fragments of its type, their records, in
    step, and the counts of both. *)
Definition stage_adds (ty : string) (kv_lines : nat) (out : sink)
    (new : list ParsedFragment) (out' : sink) : Prop :=
  Forall (fun fr => fragment_type fr = ty) new /\
  fst out' = tally new kv_lines (fst out) /\
  exists recs, snd out' = (snd out ++ recs)%list /\ Forall2 derived new recs.

Definition span_of (fr : ParsedFragment) : Z * Z := (start fr, end_ fr).

(** The fragment and the record of one text block. *)
Definition text_fragment (block : string) : ParsedFragment :=
  {| fragment_type := "text"; start := -1; end_ := -1;
     preview := slice_to 80 block;
     payload := VDict [("text", VStr block)]; extra := [] |}.

(** What extractors add one after the other, whatever the types. *)
Definition adds (kv_lines : nat) (out : sink) (new : list ParsedFragment)
    (out' : sink) : Prop :=
  fst out' = tally new kv_lines (fst out) /\
  exists recs, snd out' = (snd out ++ recs)%list /\ Forall2 derived new recs.

(** The last pair of a list of key-value pairs that has the key. *)
Definition last_value (pairs : list (string * string)) (key : string) : option value :=
  option_map (fun kv => VStr (snd kv))
    (find (fun kv => fst kv =? key) (rev pairs)).

Definition text_record (item : nat * string) : record :=
  make_record "text_blocks"
    (VDict [("text", VStr (snd item)); ("sequence", VInt (Z.of_nat (fst item)))])
    (-1) (-1).

(** An upper-case ASCII letter, the characters [str.lower] rewrites. *)
Definition is_upper (c : ascii) : bool :=
  Nat.leb 65 (nat_of_ascii c) && Nat.leb (nat_of_ascii c) 90.

(** The field of [$.json_objects.a] in the schema of the two sample
    records: an integer in one, a null in the other. *)
Definition field_a : field :=
  {| name := "a"; path := "$.json_objects.a"; types := ["integer"];
     nullable := true; example_value := Some "1"; confidence := f0_99;
     suggested_index := false |}.

(** A field without its example, and a schema without the examples of its
    fields: the example is picked by the iteration order of a set. *)
Definition forget_example (f : field) : field :=
  {| name := name f; path := path f; types := types f; nullable := nullable f;
     example_value := None; confidence := confidence f;
     suggested_index := suggested_index f |}.

Definition forget_examples (s : schema) : schema :=
  {| schema_id := schema_id s; source_id := source_id s; version := version s;
     generated_at := generated_at s; compatible_dbs := compatible_dbs s;
     fields := map forget_example (fields s);
     primary_key_candidates := primary_key_candidates s;
     ddl := ddl s; migration_notes := migration_notes s |}.

(** A note of 81 characters, the first of which (the euro sign, U+20AC)
    takes three bytes; its record; and the field of the note in the schema
    of that record, whose example is the first 80 characters (82 bytes). *)
Definition euro : string :=
  String (ascii_of_nat 226) (String (ascii_of_nat 130) (String (ascii_of_nat 172) "")).

Definition long_note : string := euro ++ string_of_list_ascii (repeat "a"%char 80).

Definition record_note : record :=
  make_record "json_objects" (VDict [("note", VStr long_note)]) 0 95.

Definition field_note : field :=
  {| name := "note"; path := "$.json_objects.note"; types := ["string"];
     nullable := false;
     example_value := Some (euro ++ string_of_list_ascii (repeat "a"%char 79));
     confidence := f0_99; suggested_index := false |}.

(** The record of an empty JSON object. *)
Definition record_empty : record := make_record "json_objects" (VDict []) 7 9.

End Views.

(** * Properties *)

(** ** Strings, dictionaries and sorting *)

Module PyFacts.
Import Py.

Lemma ascii_compare_lt_trans (a b c : ascii) :
  Ascii.compare a b = Lt -> Ascii.compare b c = Lt -> Ascii.compare a c = Lt.
Proof.
  unfold Ascii.compare. rewrite !N.compare_lt_iff. apply N.lt_trans.
Qed.

Lemma ascii_compare_refl (a : ascii) : Ascii.compare a a = Eq.
Proof. unfold Ascii.compare. apply N.compare_refl. Qed.

Lemma string_compare_refl (s : string) : String.compare s s = Eq.
Proof.
  induction s as [|c s IH]; simpl; [reflexivity|].
  now rewrite ascii_compare_refl.
Qed.

Lemma string_compare_lt_trans (s1 : string) :
  forall s2 s3, String.compare s1 s2 = Lt -> String.compare s2 s3 = Lt ->
                String.compare s1 s3 = Lt.
Proof.
  induction s1 as [|a s1 IH]; intros [|b s2] [|c s3]; simpl; try congruence.
  destruct (Ascii.compare a b) eqn:Hab; try discriminate;
    destruct (Ascii.compare b c) eqn:Hbc; try discriminate; intros H12 H23.
  - apply Ascii.compare_eq_iff in Hab, Hbc. subst.
    rewrite ascii_compare_refl. eauto.
  - apply Ascii.compare_eq_iff in Hab. subst. now rewrite Hbc.
  - apply Ascii.compare_eq_iff in Hbc. subst. now rewrite Hab.
  - now rewrite (ascii_compare_lt_trans _ _ _ Hab Hbc).
Qed.

Lemma leb_cases (s1 s2 : string) :
  String.leb s1 s2 = true <-> String.ltb s1 s2 = true \/ s1 = s2.
Proof.
  unfold String.leb, String.ltb.
  destruct (String.compare s1 s2) eqn:H; split; intros G; auto; try discriminate.
  - right. now apply String.compare_eq_iff.
  - destruct G as [G|G]; [discriminate|]. subst.
    rewrite string_compare_refl in H. discriminate.
Qed.

Lemma ltb_trans (s1 s2 s3 : string) :
  String.ltb s1 s2 = true -> String.ltb s2 s3 = true -> String.ltb s1 s3 = true.
Proof.
  unfold String.ltb.
  destruct (String.compare s1 s2) eqn:H12; try discriminate.
  destruct (String.compare s2 s3) eqn:H23; try discriminate.
  now rewrite (string_compare_lt_trans _ _ _ H12 H23).
Qed.

Lemma leb_trans (s1 s2 s3 : string) :
  String.leb s1 s2 = true -> String.leb s2 s3 = true -> String.leb s1 s3 = true.
Proof.
  rewrite !leb_cases. intros [H | ->] [G| ->]; auto.
  left. eapply ltb_trans; eauto.
Qed.

Lemma ltb_irrefl (s : string) : String.ltb s s = false.
Proof. unfold String.ltb. now rewrite string_compare_refl. Qed.

Lemma leb_false_ltb (s1 s2 : string) :
  String.leb s1 s2 = false -> String.ltb s2 s1 = true.
Proof.
  unfold String.leb, String.ltb. rewrite (String.compare_antisym s2 s1).
  destruct (String.compare s1 s2); simpl; congruence.
Qed.

(** *** [endswith] *)

Lemma substring_all (s : string) : substring 0 (String.length s) s = s.
Proof. induction s as [|c s IH]; simpl; congruence. Qed.

Lemma substring_skip (pre s : string) (m : nat) :
  substring (String.length pre) m (pre ++ s) = substring 0 m s.
Proof. induction pre as [|c pre IH]; simpl; auto. Qed.

Lemma length_append (s1 s2 : string) :
  String.length (s1 ++ s2) = String.length s1 + String.length s2.
Proof. induction s1 as [|c s1 IH]; simpl; auto. Qed.

Lemma substring_split (s : string) :
  forall n, n <= String.length s ->
  s = substring 0 n s ++ substring n (String.length s - n) s.
Proof.
  induction s as [|c s IH]; intros [|n] Hn; simpl in *; try lia; auto.
  - now rewrite substring_all.
  - f_equal. apply IH. lia.
Qed.

Lemma endswith_iff (s suffix : string) :
  endswith s suffix = true <-> exists pre, s = pre ++ suffix.
Proof.
  unfold endswith. rewrite andb_true_iff, Nat.leb_le, String.eqb_eq. split.
  - intros [Hle Hsub].
    exists (substring 0 (String.length s - String.length suffix) s).
    rewrite <- Hsub at 2.
    rewrite (substring_split s (n := String.length s - String.length suffix)) at 1 by lia.
    do 2 f_equal. lia.
  - intros [pre ->]. rewrite length_append. split; [lia|].
    replace (String.length pre + String.length suffix - String.length suffix)
      with (String.length pre) by lia.
    rewrite substring_skip. apply substring_all.
Qed.

(** *** Sets of strings *)

Lemma mem_In (x : string) (l : list string) : mem x l = true <-> In x l.
Proof.
  unfold mem. rewrite existsb_exists. split.
  - intros [y [Hy Heq]]. apply String.eqb_eq in Heq. now subst.
  - intros H. exists x. split; auto. apply String.eqb_refl.
Qed.

Lemma set_eqb_refl (l : list string) : set_eqb l l = true.
Proof.
  unfold set_eqb. rewrite andb_diag. apply forallb_forall.
  intros x Hx. now apply mem_In.
Qed.

(** *** Dictionaries *)

Section ODictFacts.
Variable V : Type.
Implicit Types (d : odict V) (k : string) (v : V).

Lemma od_get_In d k v : od_get d k = Some v -> In (k, v) d.
Proof.
  induction d as [|[k' v'] d IH]; simpl; [discriminate|].
  destruct (String.eqb_spec k' k) as [-> | Hne]; intros H.
  - injection H as ->. now left.
  - right. auto.
Qed.

Lemma od_get_None d k : od_get d k = None <-> ~ In k (od_keys d).
Proof.
  induction d as [|[k' v'] d IH]; simpl; [tauto|].
  destruct (String.eqb_spec k' k) as [-> | Hne]; split; intros H.
  - discriminate.
  - exfalso. apply H. now left.
  - intros [G|G]; [congruence|]. now apply IH in G.
  - apply IH. intros G. apply H. now right.
Qed.

Lemma od_get_Some_key d k v : od_get d k = Some v -> In k (od_keys d).
Proof.
  intros H. apply od_get_In in H. now apply (in_map fst) in H.
Qed.

Lemma od_key_get d k : In k (od_keys d) -> exists v, od_get d k = Some v.
Proof.
  intros H. destruct (od_get d k) eqn:E; eauto.
  apply od_get_None in E. contradiction.
Qed.

Lemma od_mem_In d k : od_mem d k = true <-> In k (od_keys d).
Proof.
  unfold od_mem. split.
  - destruct (od_get d k) eqn:E; [|discriminate]. intros _.
    eapply od_get_Some_key; eauto.
  - intros H. apply od_key_get in H as [v ->]. reflexivity.
Qed.

Lemma In_od_get d k v : NoDup (od_keys d) -> In (k, v) d -> od_get d k = Some v.
Proof.
  induction d as [|[k' v'] d IH]; simpl; [tauto|].
  intros Hnd [H|H].
  - injection H as -> ->. now rewrite String.eqb_refl.
  - inversion Hnd as [|? ? Hnot Hnd']; subst.
    destruct (String.eqb_spec k' k) as [-> | Hne]; auto.
    exfalso. apply Hnot. now apply (in_map fst) in H.
Qed.

Lemma od_get_set_same d k v : od_get (od_set d k v) k = Some v.
Proof.
  induction d as [|[k' v'] d IH]; simpl.
  - now rewrite String.eqb_refl.
  - destruct (String.eqb_spec k' k) as [-> | Hne]; simpl.
    + now rewrite String.eqb_refl.
    + destruct (String.eqb_spec k' k); [contradiction|auto].
Qed.

Lemma od_get_set_other d k k' v :
  k <> k' -> od_get (od_set d k v) k' = od_get d k'.
Proof.
  intros Hne. induction d as [|[k0 v0] d IH]; simpl.
  - destruct (String.eqb_spec k k'); [contradiction|reflexivity].
  - destruct (String.eqb_spec k0 k) as [-> | Hne0]; simpl.
    + destruct (String.eqb_spec k k'); [contradiction|reflexivity].
    + now rewrite IH.
Qed.

Lemma od_keys_set d k v :
  od_keys (od_set d k v) = if od_mem d k then od_keys d else (od_keys d ++ [k])%list.
Proof.
  unfold od_mem. induction d as [|[k0 v0] d IH]; simpl; [reflexivity|].
  destruct (String.eqb_spec k0 k) as [-> | Hne]; simpl; [reflexivity|].
  rewrite IH. now destruct (od_get d k).
Qed.

Lemma od_keys_set_In d k v k' :
  In k' (od_keys (od_set d k v)) <-> In k' (od_keys d) \/ k' = k.
Proof.
  rewrite od_keys_set. destruct (od_mem d k) eqn:E.
  - apply od_mem_In in E. split; [tauto|]. intros [H| ->]; auto.
  - rewrite in_app_iff. simpl. intuition congruence.
Qed.

Lemma od_set_NoDup d k v : NoDup (od_keys d) -> NoDup (od_keys (od_set d k v)).
Proof.
  intros H. rewrite od_keys_set. destruct (od_mem d k) eqn:E; auto.
  apply NoDup_app; auto.
  - repeat constructor. simpl. tauto.
  - intros x Hx [<-|[]]. apply od_mem_In in Hx. congruence.
Qed.

Lemma od_update_NoDup other : forall d,
  NoDup (od_keys d) -> NoDup (od_keys (od_update d other)).
Proof.
  unfold od_update. induction other as [|[k v] other IH]; simpl; auto.
  intros d H. apply IH. now apply od_set_NoDup.
Qed.

Lemma od_update_keys other : forall d k,
  In k (od_keys (od_update d other)) <-> In k (od_keys d) \/ In k (od_keys other).
Proof.
  unfold od_update. induction other as [|[k0 v0] other IH]; simpl; intros d k.
  - tauto.
  - rewrite IH, od_keys_set_In. intuition congruence.
Qed.

(** After [d.update(other)] a key holds a value of [other], or else the
    value it had in [d]. *)
Lemma od_update_get other : forall d k v,
  od_get (od_update d other) k = Some v ->
  In (k, v) other \/ (~ In k (od_keys other) /\ od_get d k = Some v).
Proof.
  unfold od_update. induction other as [|[k0 v0] other IH]; simpl; intros d k v H.
  - right. tauto.
  - apply IH in H as [H|[Hnot H]]; [tauto|].
    destruct (String.eqb_spec k0 k) as [-> | Hne].
    + rewrite od_get_set_same in H. injection H as ->. left. now left.
    + rewrite od_get_set_other in H by assumption. right. intuition.
Qed.

Lemma index_NoDup (A : Type) (key : A -> string) (val : A -> V) (l : list A) :
  forall d, NoDup (od_keys d) ->
  NoDup (od_keys (fold_left (fun acc a => od_set acc (key a) (val a)) l d)).
Proof.
  induction l as [|a l IH]; simpl; auto.
  intros d H. apply IH. now apply od_set_NoDup.
Qed.
End ODictFacts.

(** *** [sorted] *)

Section SortFacts.
Variable V : Type.

Lemma insert_item_perm (x : string * V) l : Permutation (insert_item x l) (x :: l).
Proof.
  induction l as [|y l IH]; simpl; auto.
  destruct (String.leb (fst x) (fst y)); auto.
  rewrite IH. apply perm_swap.
Qed.

Lemma sorted_items_perm (l : list (string * V)) : Permutation (sorted_items l) l.
Proof.
  induction l as [|x l IH]; simpl; auto.
  rewrite insert_item_perm. now constructor.
Qed.

Lemma insert_item_sorted (x : string * V) l :
  StronglySorted key_le l -> StronglySorted key_le (insert_item x l).
Proof.
  induction 1 as [|y l Hs IH Hall]; simpl.
  - repeat constructor.
  - destruct (String.leb (fst x) (fst y)) eqn:E.
    + constructor; [now constructor|]. constructor; auto.
      eapply Forall_impl; [|exact Hall].
      intros z Hz. unfold key_le in *. eapply leb_trans; eauto.
    + constructor; auto.
      eapply (Permutation_Forall (x := x :: l)).
      * symmetry. apply insert_item_perm.
      * constructor; auto. unfold key_le.
        apply leb_false_ltb in E. apply leb_cases. now left.
Qed.

Lemma sorted_items_sorted (l : list (string * V)) : StronglySorted key_le (sorted_items l).
Proof.
  induction l as [|x l IH]; simpl; [constructor|].
  now apply insert_item_sorted.
Qed.

(** With distinct keys the order is strict. *)
Lemma sorted_strict (l : list (string * V)) :
  NoDup (map fst l) -> StronglySorted key_le l -> StronglySorted key_lt l.
Proof.
  induction l as [|x l IH]; simpl; intros Hnd Hs; [constructor|].
  inversion Hnd as [|? ? Hnot Hnd']; subst.
  inversion Hs as [|? ? Hs' Hall]; subst.
  constructor; auto.
  rewrite Forall_forall in *. intros y Hy.
  specialize (Hall y Hy). unfold key_le, key_lt in *.
  apply leb_cases in Hall as [H|H]; auto.
  exfalso. apply Hnot. rewrite H. now apply in_map.
Qed.

Lemma sorted_items_strict (d : odict V) :
  NoDup (od_keys d) -> StronglySorted key_lt (sorted_items d).
Proof.
  intros H. apply sorted_strict; [|apply sorted_items_sorted].
  eapply Permutation_NoDup; [|exact H].
  apply Permutation_map. symmetry. apply sorted_items_perm.
Qed.
End SortFacts.

End PyFacts.

(** ** Floats: the confidence stays between 0 and 0.99 *)

Module FloatFacts.
Import Py.

Lemma binary_round_aux_sign (mx ex : Z) (lx : location) :
  not_negative (binary_round_aux prec emax false mx ex lx) = true.
Proof.
  unfold binary_round_aux.
  destruct (shr_fexp prec emax mx ex lx) as [mrs' e'].
  destruct (shr_fexp prec emax _ e' loc_Exact) as [mrs'' e''].
  destruct (shr_m mrs''); [reflexivity | | reflexivity].
  now destruct (Z.leb e'' (emax - prec)).
Qed.

Lemma binary_normalize_sign (n : Z) :
  (0 <= n)%Z -> not_negative (binary_normalize prec emax n 0 false) = true.
Proof.
  destruct n as [|m|m]; intros H; [reflexivity | | lia].
  unfold binary_normalize, binary_round.
  destruct (shl_align m 0 _) as [mz ez]. apply binary_round_aux_sign.
Qed.

Lemma float_of_Z_sign (n : Z) : not_negative (Prim2SF (float_of_Z n)) = true.
Proof.
  unfold float_of_Z. rewrite of_uint63_spec. apply binary_normalize_sign.
  apply Uint63.to_Z_bounded.
Qed.

Lemma SFdiv_sign (x y : spec_float) :
  not_negative x = true -> not_negative y = true ->
  not_negative (SF64div x y) = true.
Proof.
  unfold SF64div, SFdiv.
  destruct x as [sx|sx| |sx mx ex], y as [sy|sy| |sy my ey]; simpl;
    intros Hx Hy; try reflexivity;
    try (destruct sx; try discriminate Hx; destruct sy; try discriminate Hy;
         reflexivity).
  destruct sx; try discriminate Hx. destruct sy; try discriminate Hy. simpl.
  destruct (SFdiv_core_binary prec emax (Z.pos mx) ex (Z.pos my) ey) as [[mz ez] lz].
  apply binary_round_aux_sign.
Qed.

Lemma truediv_sign (a b : nat) : not_negative (Prim2SF (truediv a b)) = true.
Proof.
  unfold truediv, float_of_nat. rewrite div_spec.
  apply SFdiv_sign; apply float_of_Z_sign.
Qed.

Lemma digits2_pos_bound (m : positive) : (Z.pos m < 2 ^ Z.pos (digits2_pos m))%Z.
Proof.
  induction m as [m IH | m IH |]; simpl digits2_pos;
    try rewrite Pos2Z.inj_succ, Z.pow_succ_r by lia; lia.
Qed.

(** A valid mantissa has at most 53 binary digits. *)
Lemma valid_mantissa (s : bool) (m : positive) (e : Z) :
  valid_binary (S754_finite s m e) = true -> (Z.pos m < 2 ^ 53)%Z.
Proof.
  unfold valid_binary, bounded, canonical_mantissa, fexp.
  rewrite andb_true_iff, Z.eqb_eq. intros [H _].
  assert (Hd : (Z.pos (digits2_pos m) <= 53)%Z) by (unfold prec in H; lia).
  eapply Z.lt_le_trans; [apply digits2_pos_bound|].
  apply Z.pow_le_mono_r; lia.
Qed.

Lemma round_half_even_shift_bounds (n k bound : Z) :
  (0 <= n)%Z -> (0 < k)%Z -> (n < bound * 2 ^ k)%Z ->
  (0 <= round_half_even_shift n k <= bound)%Z.
Proof.
  intros Hn Hk Hb. unfold round_half_even_shift.
  destruct (Z.leb_spec k 0); [lia|].
  rewrite Z.shiftr_div_pow2 by lia.
  assert (Hpow : (0 < 2 ^ k)%Z) by (apply Z.pow_pos_nonneg; lia).
  assert (Hq : (0 <= n / 2 ^ k < bound)%Z).
  { split; [apply Z.div_pos; lia|].
    apply Z.div_lt_upper_bound; lia. }
  repeat match goal with |- context [if ?c then _ else _] => destruct c end; lia.
Qed.

(** The hundredths of the closest float to 0.99. *)
Lemma f0_99_spec : Prim2SF f0_99 = S754_finite false 8917127262193582 (-53).
Proof. vm_compute. reflexivity. Qed.

Lemma zero_spec : Prim2SF PrimFloat.zero = S754_zero false.
Proof. vm_compute. reflexivity. Qed.

(** The floats of 0.00, 0.01, ..., 0.99 lie between 0 and 0.99. *)
Lemma hundredths_table (h : Z) :
  (0 <= h <= 99)%Z ->
  PrimFloat.leb PrimFloat.zero (float_of_hundredths h) = true /\
  PrimFloat.leb (float_of_hundredths h) f0_99 = true.
Proof.
  intros Hh.
  assert (T : forallb (fun n =>
                PrimFloat.leb PrimFloat.zero (float_of_hundredths (Z.of_nat n))
                && PrimFloat.leb (float_of_hundredths (Z.of_nat n)) f0_99)
                (seq 0 100) = true) by (vm_compute; reflexivity).
  rewrite forallb_forall in T. specialize (T (Z.to_nat h)).
  rewrite Z2Nat.id in T by lia. apply andb_true_iff. apply T.
  apply in_seq. lia.
Qed.

Lemma SFltb_finite (m1 m2 : positive) (e1 e2 : Z) :
  SFltb (S754_finite false m1 e1) (S754_finite false m2 e2) = true ->
  (e1 < e2)%Z \/ (e1 = e2 /\ (Z.pos m1 < Z.pos m2)%Z).
Proof.
  unfold SFltb, SFcompare.
  destruct (Z.compare_spec e1 e2) as [He | He | He]; [| now left | discriminate].
  destruct (Pos.compare_cont Eq m1 m2) eqn:E; try discriminate.
  intros _. right. split; [exact He | now apply Pos.compare_lt_iff in E].
Qed.

(** A float below 0.99 has at most 99 hundredths. *)
Lemma hundredths_bounds (m m99 : positive) (e : Z) :
  (Z.pos m < 2 ^ 53)%Z ->
  m99 = 8917127262193582%positive ->
  SFltb (S754_finite false m e) (S754_finite false m99 (-53)) = true ->
  (0 <= hundredths m e <= 99)%Z.
Proof.
  intros Hm H99 Hlt. unfold hundredths.
  apply SFltb_finite in Hlt.
  assert (H53 : (2 ^ 53 = 9007199254740992)%Z) by reflexivity.
  apply round_half_even_shift_bounds; try lia.
  destruct Hlt as [He | [He Hc]].
  - assert (Hp : (2 ^ 54 <= 2 ^ (- e))%Z) by (apply Z.pow_le_mono_r; lia).
    assert (H54 : (2 ^ 54 = 18014398509481984)%Z) by reflexivity.
    lia.
  - subst e. replace (- (-53))%Z with 53%Z by reflexivity. subst m99. lia.
Qed.

(** The rounding of [round_half_even_shift] is to the nearest, ties to
    even. *)
Lemma round_half_even_shift_nearest (n k : Z) :
  (0 <= n)%Z -> (0 < k)%Z ->
  (2 * Z.abs (n - round_half_even_shift n k * 2 ^ k) <= 2 ^ k)%Z /\
  ((2 * Z.abs (n - round_half_even_shift n k * 2 ^ k) = 2 ^ k)%Z ->
   Z.even (round_half_even_shift n k) = true).
Proof.
  intros Hn Hk. unfold round_half_even_shift.
  destruct (Z.leb_spec k 0); [lia|].
  rewrite Z.shiftr_div_pow2, !Z.shiftl_mul_pow2 by lia.
  assert (Hpow : (2 ^ k = 2 * 2 ^ (k - 1))%Z).
  { rewrite <- Z.pow_succ_r by lia. f_equal. lia. }
  assert (Hp : (0 < 2 ^ (k - 1))%Z) by (apply Z.pow_pos_nonneg; lia).
  set (P := (2 ^ (k - 1))%Z) in *. rewrite Hpow.
  pose proof (Z.div_mod n (2 * P) ltac:(lia)) as Hdm.
  pose proof (Z.mod_pos_bound n (2 * P) ltac:(lia)) as Hmod.
  set (q := (n / (2 * P))%Z) in *. set (r := (n mod (2 * P))%Z) in *.
  replace (n - q * (2 * P))%Z with r by lia.
  rewrite Z.mul_1_l.
  destruct (Z.ltb_spec r P) as [H1 | H1].
  - split; [lia|]. intros Ht. lia.
  - destruct (Z.ltb_spec P r) as [H2 | H2].
    + split; [lia|]. intros Ht. lia.
    + assert (Hr : r = P) by lia.
      destruct (Z.even q) eqn:Hq.
      * split; [lia | auto].
      * split; [lia|]. intros _.
        change (q + 1)%Z with (Z.succ q). rewrite Z.even_succ.
        rewrite <- Z.negb_even, Hq. reflexivity.
Qed.

Lemma two46_spec :
  Prim2SF (float_of_Z (2 ^ 46)) = S754_finite false 4503599627370496 (-6).
Proof. vm_compute. reflexivity. Qed.

Lemma SFltb_exponent (m1 m2 : positive) (e1 e2 : Z) :
  (e1 < e2)%Z -> SFltb (S754_finite false m1 e1) (S754_finite false m2 e2) = true.
Proof.
  intros H. unfold SFltb, SFcompare.
  destruct (Z.compare_spec e1 e2); first [reflexivity | lia].
Qed.

(** [round(min(0.99, q), 2)] for a float [q] without the sign bit, with
    neither [min] nor [round] in the statement: the minimum is [q] when [q]
    is below 0.99 and 0.99 otherwise, and its rounding is the float of
    [h / 100] for the number [h] of hundredths, from 0 to 99, that is
    nearest to it. *)
Lemma round2_min_nearest (q : float) :
  not_negative (Prim2SF q) = true ->
  exists (x : float) (h : Z),
    (PrimFloat.ltb q f0_99 = true -> x = q) /\
    (PrimFloat.ltb q f0_99 = false -> x = f0_99) /\
    (0 <= h <= 99)%Z /\
    nearest_hundredth (Prim2SF x) h /\
    round2 (min_float f0_99 q) = PrimFloat.div (float_of_Z h) (float_of_Z 100).
Proof.
  intros Hq. unfold min_float.
  destruct (PrimFloat.ltb q f0_99) eqn:Hlt.
  - exists q. rewrite ltb_spec, f0_99_spec in Hlt.
    pose proof (Prim2SF_valid q) as Hvalid.
    unfold round2.
    destruct (Prim2SF q) as [s|s| |s m e] eqn:Hsf.
    + exists 0%Z. destruct s; [discriminate|].
      repeat split; try lia; try discriminate.
      apply Prim2SF_inj. rewrite Hsf. vm_compute. reflexivity.
    + destruct s; discriminate.
    + discriminate.
    + destruct s; [discriminate|].
      pose proof (valid_mantissa _ _ _ Hvalid) as Hm.
      assert (Hh : (0 <= hundredths m e <= 99)%Z)
        by (eapply hundredths_bounds; [exact Hm | reflexivity | exact Hlt]).
      assert (He : (e <= -53)%Z) by (apply SFltb_finite in Hlt; lia).
      assert (Habs : PrimFloat.ltb (PrimFloat.abs q) (float_of_Z (2 ^ 46)) = true).
      { rewrite ltb_spec, abs_spec, Hsf, two46_spec. simpl SFabs.
        apply SFltb_exponent. lia. }
      rewrite Habs. exists (hundredths m e).
      split; [reflexivity|]. split; [discriminate|]. split; [exact Hh|].
      split; [|reflexivity].
      split; [lia|]. unfold hundredths.
      apply round_half_even_shift_nearest; lia.
  - exists f0_99, 99%Z.
    split; [discriminate|]. split; [reflexivity|]. split; [lia|].
    split; [|vm_compute; reflexivity].
    rewrite f0_99_spec. unfold nearest_hundredth.
    split; [lia|]. split.
    + apply Z.leb_le. vm_compute. reflexivity.
    + intros H. apply Z.eqb_eq in H. vm_compute in H. discriminate.
Qed.

(** [round(min(0.99, x), 2)] lies between 0 and 0.99 for every float
    without the sign bit. *)
Lemma round2_min_bounds (x : float) :
  not_negative (Prim2SF x) = true ->
  PrimFloat.leb PrimFloat.zero (round2 (min_float f0_99 x)) = true /\
  PrimFloat.leb (round2 (min_float f0_99 x)) f0_99 = true.
Proof.
  intros Hx. unfold min_float.
  destruct (PrimFloat.ltb x f0_99) eqn:Hlt; [|split; vm_compute; reflexivity].
  rewrite ltb_spec, f0_99_spec in Hlt.
  pose proof (Prim2SF_valid x) as Hvalid.
  unfold round2.
  destruct (Prim2SF x) as [s|s| |s m e] eqn:Hsf.
  - rewrite !leb_spec, Hsf, zero_spec, f0_99_spec. now destruct s.
  - destruct s; discriminate.
  - discriminate.
  - destruct s; [discriminate|].
    destruct (PrimFloat.ltb (PrimFloat.abs x) (float_of_Z (2 ^ 46))).
    + apply hundredths_table.
      eapply hundredths_bounds;
        [eapply valid_mantissa; exact Hvalid | reflexivity | exact Hlt].
    + rewrite !leb_spec, Hsf, zero_spec, f0_99_spec. split; [reflexivity|].
      unfold SFleb. unfold SFltb in Hlt.
      now destruct (SFcompare _ _) as [[| |]|].
Qed.

End FloatFacts.

(** ** Type inference and flattening *)

Module SchemaFacts.
Import Py Schema PyFacts FloatFacts.

(** Induction on values through the nested lists. *)
Section ValueInduction.
Variable P : value -> Prop.
Hypothesis HNone : P VNone.
Hypothesis HBool : forall b, P (VBool b).
Hypothesis HInt : forall n, P (VInt n).
Hypothesis HFloat : forall x, P (VFloat x).
Hypothesis HStr : forall s, P (VStr s).
Hypothesis HList : forall elems, Forall P elems -> P (VList elems).
Hypothesis HDict :
  forall entries, Forall (fun kv => P (snd kv)) entries -> P (VDict entries).
Hypothesis HOther : forall cls text, P (VOther cls text).

Fixpoint value_induction (v : value) : P v :=
  match v with
  | VNone => HNone
  | VBool b => HBool b
  | VInt n => HInt n
  | VFloat x => HFloat x
  | VStr s => HStr s
  | VList elems =>
      HList ((fix all (l : list value) : Forall P l :=
                match l with
                | [] => Forall_nil _
                | x :: rest => Forall_cons x (value_induction x) (all rest)
                end) elems)
  | VDict entries =>
      HDict ((fix all (l : list (string * value))
                : Forall (fun kv => P (snd kv)) l :=
                match l with
                | [] => Forall_nil _
                | kv :: rest => Forall_cons kv (value_induction (snd kv)) (all rest)
                end) entries)
  | VOther cls text => HOther cls text
  end.
End ValueInduction.

Lemma flatten_dict (entries : list (string * value)) (p : string) :
  flatten (VDict entries) p = flatten_entries p entries [].
Proof.
  simpl. generalize (@nil (string * value)).
  induction entries as [|[key v] l IH]; intros items; simpl; auto.
Qed.

Lemma flatten_list (elems : list value) (p : string) :
  flatten (VList elems) p = flatten_elems p elems 0 [].
Proof.
  simpl. generalize (@nil (string * value)) 0.
  induction elems as [|v l IH]; intros items idx; simpl; auto.
Qed.

Lemma flatten_terminal (v : value) (p : string) :
  isinstance_dict v = false -> isinstance_list v = false -> flatten v p = [(p, v)].
Proof. destruct v; simpl; intros; try discriminate; reflexivity. Qed.

Lemma flatten_entries_NoDup p l : forall items,
  NoDup (od_keys items) -> NoDup (od_keys (flatten_entries p l items)).
Proof.
  induction l as [|[key v] l IH]; simpl; auto.
  intros items H. apply IH. now apply od_update_NoDup.
Qed.

Lemma flatten_elems_NoDup p l : forall idx items,
  NoDup (od_keys items) -> NoDup (od_keys (flatten_elems p l idx items)).
Proof.
  induction l as [|v l IH]; simpl; auto.
  intros idx items H. apply IH. now apply od_update_NoDup.
Qed.

(** A flattened document is a dict: its paths are distinct. *)
Lemma flatten_NoDup (v : value) (p : string) : NoDup (od_keys (flatten v p)).
Proof.
  destruct v; try (simpl; repeat constructor; simpl; tauto).
  - rewrite flatten_list. apply flatten_elems_NoDup. constructor.
  - rewrite flatten_dict. apply flatten_entries_NoDup. constructor.
Qed.

Lemma child_key_nonempty (p key : string) :
  p <> "" -> child_key p key = p ++ "." ++ key /\ child_key p key <> "".
Proof.
  intros H. unfold child_key.
  destruct (String.eqb_spec p ""); [contradiction|].
  split; [reflexivity|]. destruct p; [contradiction|discriminate].
Qed.

Lemma child_index_nonempty (p : string) (i : nat) : p <> "" -> child_index p i <> "".
Proof. unfold child_index. destruct p; [contradiction|discriminate]. Qed.

(** Every entry of the flattening is a leaf of the document. *)
Lemma flatten_sound (v : value) :
  forall p q t, p <> "" -> od_get (flatten v p) q = Some t -> leaf v p q t.
Proof.
  induction v as [| b | n | x | s | elems IH | entries IH | cls text]
    using value_induction; intros p q t Hp H;
    try (simpl in H; destruct (String.eqb_spec p q) as [-> | Hne];
         [injection H as <-; now constructor | discriminate]).
  - rewrite flatten_list in H.
    assert (G : forall l idx items,
               Forall (fun v => forall p q t, p <> "" ->
                         od_get (flatten v p) q = Some t -> leaf v p q t) l ->
               od_get (flatten_elems p l idx items) q = Some t ->
               od_get items q = Some t \/
               exists i v, nth_error l i = Some v /\
                           leaf v (child_index p (idx + i)) q t).
    { induction l as [|v l IHl]; simpl; intros idx items Hall G; auto.
      inversion Hall as [|? ? Hv Hl]; subst.
      apply IHl in G as [G | [i [w [Hi Hw]]]]; auto.
      - apply od_update_get in G as [G | [_ G]]; auto.
        right. exists 0, v. split; [reflexivity|].
        rewrite Nat.add_0_r. apply Hv; [now apply child_index_nonempty|].
        apply In_od_get; auto. apply flatten_NoDup.
      - right. exists (S i), w. split; auto.
        now replace (idx + S i) with (S idx + i) by lia. }
    apply G in H as [H | [i [v [Hi Hv]]]]; auto; [discriminate|].
    eapply leaf_index; eauto.
  - rewrite flatten_dict in H.
    assert (G : forall l items,
               Forall (fun kv => forall p q t, p <> "" ->
                         od_get (flatten (snd kv) p) q = Some t ->
                         leaf (snd kv) p q t) l ->
               od_get (flatten_entries p l items) q = Some t ->
               od_get items q = Some t \/
               exists key v, In (key, v) l /\ leaf v (child_key p key) q t).
    { induction l as [|[key v] l IHl]; simpl; intros items Hall G; auto.
      inversion Hall as [|? ? Hv Hl]; subst. simpl in Hv.
      apply IHl in G as [G | [k [w [Hi Hw]]]]; auto.
      - apply od_update_get in G as [G | [_ G]]; auto.
        right. exists key, v. split; [now left|].
        apply Hv; [now apply child_key_nonempty|].
        apply In_od_get; auto. apply flatten_NoDup.
      - right. exists k, w. split; auto. }
    apply G in H as [H | [key [v [Hi Hv]]]]; auto; [discriminate|].
    eapply leaf_key; eauto.
    now rewrite <- (proj1 (child_key_nonempty key Hp)).
Qed.

Lemma flatten_entries_keys p q l : forall items,
  In q (od_keys items) \/
  (exists key v, In (key, v) l /\ In q (od_keys (flatten v (child_key p key)))) ->
  In q (od_keys (flatten_entries p l items)).
Proof.
  induction l as [|[key v] l IH]; simpl; intros items H.
  - destruct H as [H | [k [w [[] _]]]]. exact H.
  - apply IH. destruct H as [H | [k [w [[H | H] Hq]]]].
    + left. apply od_update_keys. now left.
    + injection H as -> ->. left. apply od_update_keys. now right.
    + right. eauto.
Qed.

Lemma flatten_elems_keys p q l : forall idx items,
  In q (od_keys items) \/
  (exists i v, nth_error l i = Some v /\
               In q (od_keys (flatten v (child_index p (idx + i))))) ->
  In q (od_keys (flatten_elems p l idx items)).
Proof.
  induction l as [|v l IH]; simpl; intros idx items H.
  - destruct H as [H | [i [w [Hi _]]]]; [exact H|]. now destruct i.
  - apply IH. destruct H as [H | [[|i] [w [Hi Hq]]]].
    + left. apply od_update_keys. now left.
    + injection Hi as ->. rewrite Nat.add_0_r in Hq.
      left. apply od_update_keys. now right.
    + right. exists i, w. split; auto.
      now replace (S idx + i) with (idx + S i) by lia.
Qed.

(** Every leaf of the document has its path in the flattening. *)
Lemma flatten_complete (v : value) (p q : string) (t : value) :
  p <> "" -> leaf v p q t -> In q (od_keys (flatten v p)).
Proof.
  intros Hp H. induction H as [v p Hd Hl | entries p key v q t Hin H IH
                              | elems p i v q t Hi H IH].
  - rewrite flatten_terminal by assumption. now left.
  - rewrite flatten_dict. apply flatten_entries_keys. right.
    exists key, v. split; auto.
    rewrite (proj1 (child_key_nonempty key Hp)). apply IH.
    destruct p; [contradiction|discriminate].
  - rewrite flatten_list. apply flatten_elems_keys. right.
    exists i, v. split; auto. apply IH.
    destruct p; [contradiction|discriminate].
Qed.

Lemma leaves_dict (entries : list (string * value)) (p : string) :
  leaves (VDict entries) p = leaves_entries p entries.
Proof. simpl. induction entries as [|[key v] l IH]; simpl; congruence. Qed.

Lemma leaves_list (elems : list value) (p : string) :
  leaves (VList elems) p = leaves_elems p elems 0.
Proof.
  simpl. generalize 0.
  induction elems as [|v l IH]; intros i; simpl; [reflexivity|]. now rewrite IH.
Qed.

Lemma last_at_app q (l1 l2 : list (string * value)) :
  last_at q (l1 ++ l2) =
  match last_at q l2 with Some t => Some t | None => last_at q l1 end.
Proof.
  induction l1 as [|[k v] l1 IH]; simpl.
  - now destruct (last_at q l2).
  - rewrite IH. now destruct (last_at q l2).
Qed.

Lemma last_at_In q (l : list (string * value)) t :
  last_at q l = Some t -> In (q, t) l.
Proof.
  induction l as [|[k v] l IH]; simpl; [discriminate|].
  destruct (last_at q l) as [t'|].
  - intros H. injection H as ->. right. now apply IH.
  - destruct (String.eqb_spec k q) as [-> | Hne]; [|discriminate].
    intros H. injection H as ->. now left.
Qed.

(** In a dict, whose keys are distinct, the last value of a key is its
    value. *)
Lemma last_at_dict q (d : odict value) :
  NoDup (od_keys d) -> last_at q d = od_get d q.
Proof.
  induction d as [|[k v] d IH]; simpl; intros Hnd; [reflexivity|].
  inversion Hnd as [|? ? Hnot Hnd']; subst. rewrite (IH Hnd').
  destruct (String.eqb_spec k q) as [-> | Hne].
  - apply od_get_None in Hnot. now rewrite Hnot.
  - now destruct (od_get d q).
Qed.

(** After [d.update(other)] a key holds its last value in [other], or
    else the value it had in [d]. *)
Lemma od_update_last (other : list (string * value)) : forall d q,
  od_get (od_update d other) q =
  match last_at q other with Some t => Some t | None => od_get d q end.
Proof.
  unfold od_update.
  induction other as [|[k v] other IH]; simpl; intros d q; [reflexivity|].
  rewrite IH. destruct (last_at q other); [reflexivity|].
  destruct (String.eqb_spec k q) as [-> | Hne].
  - apply od_get_set_same.
  - now apply od_get_set_other.
Qed.

(** The flattening holds, at each path, the last value that the traversal
    reaches at it. *)
Lemma flatten_last (v : value) :
  forall p q, p <> "" -> od_get (flatten v p) q = last_at q (leaves v p).
Proof.
  induction v as [| b | n | x | s | elems IH | entries IH | cls text]
    using value_induction; intros p q Hp; try reflexivity.
  - rewrite flatten_list, leaves_list.
    assert (G : forall l idx items,
               Forall (fun v => forall p q, p <> "" ->
                         od_get (flatten v p) q = last_at q (leaves v p)) l ->
               od_get (flatten_elems p l idx items) q =
               match last_at q (leaves_elems p l idx) with
               | Some t => Some t
               | None => od_get items q
               end).
    { induction l as [|v l IHl]; simpl; intros idx items Hall; [reflexivity|].
      inversion Hall as [|? ? Hv Hl]; subst.
      rewrite (IHl _ _ Hl), last_at_app, od_update_last.
      destruct (last_at q (leaves_elems p l (S idx))); [reflexivity|].
      rewrite last_at_dict by apply flatten_NoDup.
      rewrite (Hv (child_index p idx) q) by now apply child_index_nonempty.
      reflexivity. }
    rewrite (G elems 0 [] IH). now destruct (last_at q _).
  - rewrite flatten_dict, leaves_dict.
    assert (G : forall l items,
               Forall (fun kv => forall p q, p <> "" ->
                         od_get (flatten (snd kv) p) q =
                         last_at q (leaves (snd kv) p)) l ->
               od_get (flatten_entries p l items) q =
               match last_at q (leaves_entries p l) with
               | Some t => Some t
               | None => od_get items q
               end).
    { induction l as [|[key v] l IHl]; simpl; intros items Hall; [reflexivity|].
      inversion Hall as [|? ? Hv Hl]; subst. simpl in Hv.
      rewrite (IHl _ Hl), last_at_app, od_update_last.
      destruct (last_at q (leaves_entries p l)); [reflexivity|].
      rewrite last_at_dict by apply flatten_NoDup.
      destruct (child_key_nonempty key Hp) as [Hk Hne].
      rewrite (Hv (child_key p key) q Hne), Hk. reflexivity. }
    rewrite (G entries [] IH). now destruct (last_at q _).
Qed.

(** The pairs of the traversal are the leaves of the document. *)
Lemma leaves_leaf (v : value) :
  forall p q t, In (q, t) (leaves v p) -> leaf v p q t.
Proof.
  induction v as [| b | n | x | s | elems IH | entries IH | cls text]
    using value_induction; intros p q t H;
    try (destruct H as [H | []]; injection H as <- <-; now constructor).
  - rewrite leaves_list in H.
    assert (G : forall l idx,
               Forall (fun v => forall p q t,
                         In (q, t) (leaves v p) -> leaf v p q t) l ->
               In (q, t) (leaves_elems p l idx) ->
               exists i v, nth_error l i = Some v /\
                           leaf v (p ++ "[" ++ str_of_nat (idx + i) ++ "]") q t).
    { induction l as [|v l IHl]; simpl; intros idx Hall G; [destruct G|].
      inversion Hall as [|? ? Hv Hl]; subst.
      apply in_app_iff in G as [G | G].
      - exists 0, v. split; [reflexivity|]. rewrite Nat.add_0_r. now apply Hv.
      - destruct (IHl _ Hl G) as [i [w [Hi Hw]]]. exists (S i), w. split; auto.
        now replace (idx + S i) with (S idx + i) by lia. }
    destruct (G elems 0 IH H) as [i [v [Hi Hv]]]. eapply leaf_index; eauto.
  - rewrite leaves_dict in H.
    assert (G : forall l,
               Forall (fun kv => forall p q t,
                         In (q, t) (leaves (snd kv) p) -> leaf (snd kv) p q t) l ->
               In (q, t) (leaves_entries p l) ->
               exists key v, In (key, v) l /\ leaf v (p ++ "." ++ key) q t).
    { induction l as [|[key v] l IHl]; simpl; intros Hall G; [destruct G|].
      inversion Hall as [|? ? Hv Hl]; subst. simpl in Hv.
      apply in_app_iff in G as [G | G].
      - exists key, v. split; [now left|]. now apply Hv.
      - destruct (IHl Hl G) as [k [w [Hi Hw]]]. exists k, w. split; auto. }
    destruct (G entries IH H) as [key [v [Hi Hv]]]. eapply leaf_key; eauto.
Qed.

Lemma leaves_elems_In p l : forall idx i v kv,
  nth_error l i = Some v ->
  In kv (leaves v (p ++ "[" ++ str_of_nat (idx + i) ++ "]")) ->
  In kv (leaves_elems p l idx).
Proof.
  induction l as [|w l IH]; intros idx [|i] v kv Hi H; simpl in *; try discriminate.
  - injection Hi as ->. rewrite Nat.add_0_r in H. apply in_app_iff. now left.
  - apply in_app_iff. right. apply (IH (S idx) i v); auto.
    now replace (S idx + i) with (idx + S i) by lia.
Qed.

Lemma leaves_entries_In p l key v kv :
  In (key, v) l -> In kv (leaves v (p ++ "." ++ key)) -> In kv (leaves_entries p l).
Proof.
  induction l as [|[k w] l IH]; simpl; intros Hin H; [destruct Hin|].
  apply in_app_iff. destruct Hin as [E | Hin].
  - injection E as -> ->. now left.
  - right. now apply IH.
Qed.

Lemma leaf_leaves (v : value) (p q : string) (t : value) :
  leaf v p q t -> In (q, t) (leaves v p).
Proof.
  intros H. induction H as [v p Hd Hl | entries p key v q t Hin H IH
                           | elems p i v q t Hi H IH].
  - destruct v; try discriminate; now left.
  - rewrite leaves_dict. eapply leaves_entries_In; eauto.
  - rewrite leaves_list. eapply leaves_elems_In; eauto.
Qed.

(** C2. [infer_type] tests boolean before integer, then integer, float,
    list and mapping, else string: it agrees with the order of the design
    document on every value; a boolean, although an instance of [int], is
    tagged "boolean" and never "integer"; and a null seen at a path sets the
    nullable flag of the path and leaves its type set as it was. *)
Theorem infer_type_order :
  (forall v, infer_type v = infer_type_spec v) /\
  (forall b, isinstance_int (VBool b) = true /\
             infer_type (VBool b) = "boolean" /\
             infer_type (VBool b) <> "integer") /\
  (forall repr_float repr_container field_stats p,
     exists st,
       od_get (observe repr_float repr_container field_stats (p, VNone)) p = Some st /\
       st_nullable st = true /\
       st_types st = st_types (stat_of field_stats p)).
Proof.
  split; [|split].
  - intros v. now destruct v.
  - intros b. repeat split. discriminate.
  - intros rf rc field_stats p. unfold observe. simpl.
    rewrite od_get_set_same. eexists. split; [reflexivity|]. now split.
Qed.

(** C3, as the code has it. [build] flattens the [data] of a record from
    the prefix [$.<collection>]; the paths of the flattening are exactly the
    paths at which following object keys ([p.k]) and list indices ([p[i]])
    reaches a value that is neither a mapping nor a list; each path maps to
    the last such value that the traversal reaches at it (object keys in the
    order of the dict, list elements by index), so to the value itself when
    it is the only one at that path; an empty dict or an empty list yields
    no entry. *)
Theorem flatten_paths (collection : string) (data : value) (q : string) :
  let prefix := "$." ++ collection in
  (forall repr_float repr_container start stop,
     flatten_record repr_float repr_container
       (make_record collection data start stop) = Return (flatten data prefix)) /\
  (In q (od_keys (flatten data prefix)) <-> exists t, leaf data prefix q t) /\
  (forall t, od_get (flatten data prefix) q = Some t -> leaf data prefix q t) /\
  (forall t, leaf data prefix q t ->
             (forall t', leaf data prefix q t' -> t' = t) ->
             od_get (flatten data prefix) q = Some t) /\
  (forall p, flatten (VDict []) p = [] /\ flatten (VList []) p = []) /\
  (forall t, In (q, t) (leaves data prefix) <-> leaf data prefix q t) /\
  od_get (flatten data prefix) q = last_at q (leaves data prefix).
Proof.
  intros prefix.
  assert (Hp : prefix <> "") by discriminate.
  assert (Hiff : In q (od_keys (flatten data prefix)) <-> exists t, leaf data prefix q t).
  { split.
    - intros H. apply od_key_get in H as [t H]. exists t. now apply flatten_sound.
    - intros [t H]. eapply flatten_complete; eauto. }
  repeat split.
  - apply Hiff.
  - apply Hiff.
  - intros t. now apply flatten_sound.
  - intros t Ht Huniq.
    assert (H : In q (od_keys (flatten data prefix))) by (apply Hiff; eauto).
    apply od_key_get in H as [t' H]. rewrite H. f_equal.
    apply Huniq. now apply flatten_sound.
  - apply leaves_leaf.
  - apply leaf_leaves.
  - now apply flatten_last.
Qed.

(** C3 as stated fails twice.  An empty dict and an empty list are
    terminals of the design document, and flattening them leaves no entry
    at the path.  And a path that is reached twice maps to the last value
    reached, not to each: in [{"a.b": 1, "a": {"b": 2}}] the scalar 1 is
    reached at [$.json_objects.a.b], which maps to 2. *)
Lemma flatten_empty_container_no_entry :
  terminal (VDict []) = true /\ terminal (VList []) = true /\
  od_get (flatten (VDict []) "$.json_objects") "$.json_objects" = None /\
  od_get (flatten (VList []) "$.json_objects") "$.json_objects" = None /\
  flatten (VDict [("tags", VList []); ("meta", VDict [])]) "$.json_objects" = [] /\
  leaf (VDict [("a.b", VInt 1); ("a", VDict [("b", VInt 2)])])
    "$.json_objects" "$.json_objects.a.b" (VInt 1) /\
  od_get (flatten (VDict [("a.b", VInt 1); ("a", VDict [("b", VInt 2)])])
            "$.json_objects") "$.json_objects.a.b" = Some (VInt 2).
Proof.
  repeat split.
  apply leaf_key with (key := "a.b") (v := VInt 1); [now left|].
  now apply leaf_here.
Qed.

(** *** The statistics gathered by [build] *)

Section Gathering.
Variable repr_float : float -> string.
Variable repr_container : value -> string.

Local Abbreviation py_str := (py_str repr_float repr_container).
Local Abbreviation touch := (touch repr_float repr_container).
Local Abbreviation observe := (observe repr_float repr_container).
Local Abbreviation flatten_record := (flatten_record repr_float repr_container).
Local Abbreviation gather := (gather repr_float repr_container).
Local Abbreviation observations := (observations repr_float repr_container).
Local Abbreviation has_path := (has_path repr_float repr_container).
Local Abbreviation occurrences := (occurrences repr_float repr_container).

Lemma gather_observations (records : list record) :
  forall field_stats,
    gather records field_stats =
    bind (observations records) (fun obs => Return (fold_left observe obs field_stats)).
Proof.
  induction records as [|r rest IH]; intros field_stats; simpl; [reflexivity|].
  destruct (flatten_record r) as [flattened|e]; simpl; [|reflexivity].
  rewrite IH. destruct (observations rest) as [obs|e]; simpl; [|reflexivity].
  now rewrite fold_left_app.
Qed.

Lemma flatten_record_inv (r : record) flattened :
  flatten_record r = Return flattened ->
  exists data collection,
    od_get r "data" = Some data /\ od_get r "collection" = Some collection /\
    flattened = flatten data ("$." ++ py_str collection).
Proof.
  unfold Schema.flatten_record, getitem.
  destruct (od_get r "data") as [data|]; simpl; [|discriminate].
  destruct (od_get r "collection") as [collection|]; simpl; [|discriminate].
  intros H. injection H as <-. eauto.
Qed.

Lemma flatten_record_NoDup (r : record) flattened :
  flatten_record r = Return flattened -> NoDup (od_keys flattened).
Proof.
  intros H. apply flatten_record_inv in H as [d [c [_ [_ ->]]]].
  apply flatten_NoDup.
Qed.

Lemma observations_In (records : list record) : forall obs kv,
  observations records = Return obs ->
  (In kv obs <->
   exists r flattened, In r records /\ flatten_record r = Return flattened /\
                       In kv flattened).
Proof.
  induction records as [|r rest IH]; simpl; intros obs kv H.
  - injection H as <-. split; [intros []|]. now intros [? [? [[] _]]].
  - destruct (flatten_record r) as [flattened|e] eqn:Hr; simpl in H; [|discriminate].
    destruct (observations rest) as [obs'|e]; simpl in H; [|discriminate].
    injection H as <-. rewrite in_app_iff, (IH obs' kv eq_refl). split.
    + intros [H | [r' [fl [Hin [Hfl Hkv]]]]].
      * exists r, flattened. auto.
      * exists r', fl. auto.
    + intros [r' [fl [[<- | Hin] [Hfl Hkv]]]].
      * left. congruence.
      * right. eauto.
Qed.

Lemma values_at_app p l1 l2 :
  values_at p (l1 ++ l2) = (values_at p l1 ++ values_at p l2)%list.
Proof. unfold values_at. now rewrite filter_app, map_app. Qed.

Lemma values_at_In p obs v : In v (values_at p obs) <-> In (p, v) obs.
Proof.
  unfold values_at. rewrite in_map_iff. split.
  - intros [[k w] [<- H]]. apply filter_In in H as [H E].
    simpl in *. apply String.eqb_eq in E. now subst.
  - intros H. exists (p, v). split; auto. apply filter_In. split; auto.
    apply String.eqb_refl.
Qed.

Lemma values_at_dict p (d : odict value) :
  NoDup (od_keys d) ->
  List.length (values_at p d) = if od_mem d p then 1 else 0.
Proof.
  unfold od_mem.
  induction d as [|[k v] d IH]; simpl; intros Hnd; [reflexivity|].
  inversion Hnd as [|? ? Hnot Hnd']; subst. unfold values_at in *. simpl.
  destruct (String.eqb_spec k p) as [-> | Hne]; simpl.
  - apply od_get_None in Hnot. unfold od_keys in *. rewrite Hnot in IH.
    now rewrite IH.
  - now apply IH.
Qed.

(** The entry of a path after the inner loop went through [obs]. *)
Lemma fold_observe_get (obs : list (string * value)) : forall field_stats p,
  od_get (fold_left observe obs field_stats) p =
  match values_at p obs with
  | [] => od_get field_stats p
  | vs => Some (fold_left touch vs (stat_of field_stats p))
  end.
Proof.
  induction obs as [|[k v] obs IH]; intros field_stats p; [reflexivity|].
  simpl fold_left. rewrite IH. unfold values_at. simpl filter.
  assert (Hk : od_get (observe field_stats (k, v)) k
               = Some (touch (stat_of field_stats k) v))
    by apply od_get_set_same.
  assert (Hother : k <> p -> od_get (observe field_stats (k, v)) p = od_get field_stats p)
    by (intros Hne; apply od_get_set_other; exact Hne).
  destruct (String.eqb_spec k p) as [-> | Hne]; simpl map.
  - unfold stat_of at 1. rewrite Hk.
    now destruct (map snd (filter _ obs)).
  - unfold stat_of at 1. rewrite (Hother Hne). reflexivity.
Qed.

Lemma fold_observe_NoDup (obs : list (string * value)) : forall field_stats,
  NoDup (od_keys field_stats) -> NoDup (od_keys (fold_left observe obs field_stats)).
Proof.
  induction obs as [|kv obs IH]; simpl; auto.
  intros field_stats H. apply IH. now apply od_set_NoDup.
Qed.

Lemma fold_touch_count vs : forall st,
  count (fold_left touch vs st) = count st + List.length vs.
Proof.
  induction vs as [|v vs IH]; intros st; simpl; [lia|].
  rewrite IH. unfold Schema.touch. destruct (is_none v); simpl; lia.
Qed.

Lemma fold_touch_nullable vs : forall st,
  st_nullable (fold_left touch vs st) = st_nullable st || existsb is_none vs.
Proof.
  induction vs as [|v vs IH]; intros st; simpl; [now rewrite orb_false_r|].
  rewrite IH. unfold Schema.touch. destruct (is_none v); simpl; auto.
  now rewrite orb_true_r.
Qed.

Lemma fold_touch_all_null vs : forall st,
  (forall v, In v vs -> v = VNone) ->
  st_types (fold_left touch vs st) = st_types st /\
  examples (fold_left touch vs st) = examples st.
Proof.
  induction vs as [|v vs IH]; intros st H; simpl; [tauto|].
  rewrite (H v (or_introl eq_refl)).
  destruct (IH (touch st VNone)) as [Ht He]; [intros; apply H; now right|].
  now rewrite Ht, He.
Qed.

(** A path is counted once for each record whose flattening holds it. *)
Lemma observations_count (records : list record) : forall obs p,
  observations records = Return obs ->
  List.length (values_at p obs) = occurrences p records.
Proof.
  unfold Schema.occurrences.
  induction records as [|r rest IH]; simpl; intros obs p H.
  - now injection H as <-.
  - unfold Schema.has_path at 1.
    destruct (flatten_record r) as [flattened|e] eqn:Hr; simpl in H; [|discriminate].
    destruct (observations rest) as [obs'|e]; simpl in H; [|discriminate].
    injection H as <-. rewrite values_at_app, length_app, (IH obs' p eq_refl).
    rewrite values_at_dict by (eapply flatten_record_NoDup; eauto).
    now destruct (od_mem flattened p).
Qed.
End Gathering.

(** *** The fields emitted by [build] *)

Section Emission.
Variable repr_float : float -> string.
Variable repr_container : value -> string.
Variable set_order : list string -> list string.
Variable utcnow : string.
Variable self_compatible_dbs : list string.

Local Abbreviation flatten_record := (flatten_record repr_float repr_container).
Local Abbreviation observe := (observe repr_float repr_container).
Local Abbreviation touch := (touch repr_float repr_container).
Local Abbreviation observations := (observations repr_float repr_container).
Local Abbreviation occurrences := (occurrences repr_float repr_container).
Local Abbreviation field_entry := (field_entry set_order).
Local Abbreviation emit_fields := (emit_fields set_order).
Local Abbreviation build :=
  (build repr_float repr_container set_order utcnow self_compatible_dbs).

Lemma path_field_entry total item : path (field_entry total item) = fst item.
Proof. now destruct item. Qed.

Lemma nullable_field_entry total p st :
  nullable (field_entry total (p, st)) = st_nullable st.
Proof. reflexivity. Qed.

Lemma types_field_entry total p st :
  types (field_entry total (p, st)) =
  match sorted_strings (st_types st) with
  | [] => ["string"]
  | l => l
  end.
Proof. reflexivity. Qed.

Lemma example_field_entry total p st :
  example_value (field_entry total (p, st)) = hd_error (set_order (examples st)).
Proof. reflexivity. Qed.

Lemma confidence_field_entry total p st :
  confidence (field_entry total (p, st)) =
  round2 (min_float f0_99 (truediv (count st) total)).
Proof. reflexivity. Qed.

(** What a returning [build] has computed. *)
Lemma build_inv sid ver records previous s d :
  build sid ver records previous = Return (s, d) ->
  exists obs,
    observations records = Return obs /\
    fields s = emit_fields (Nat.max 1 (List.length records)) (fold_left observe obs []) /\
    primary_key_candidates s = map path (filter suggested_index (fields s)) /\
    d = _diff previous (fields s).
Proof.
  unfold Schema.build. rewrite gather_observations.
  destruct (observations records) as [obs|e]; simpl; [|discriminate].
  intros H. injection H as <- <-. simpl. eauto.
Qed.

Lemma build_returns sid ver records previous :
  (forall r, In r records -> od_mem r "data" = true /\ od_mem r "collection" = true) ->
  exists s d, build sid ver records previous = Return (s, d).
Proof.
  intros H. unfold Schema.build. rewrite gather_observations.
  assert (G : exists obs, observations records = Return obs).
  { induction records as [|r rest IH]; simpl; [eauto|].
    destruct (H r (or_introl eq_refl)) as [Hd Hc].
    unfold Schema.flatten_record, getitem, od_mem in *.
    destruct (od_get r "data"); [|discriminate].
    destruct (od_get r "collection"); [|discriminate]. simpl.
    destruct IH as [obs ->]; [intros; apply H; now right|]. simpl. eauto. }
  destruct G as [obs ->]. simpl. eauto.
Qed.

Lemma build_raises sid ver records previous e :
  build sid ver records previous = Raise e ->
  e = KeyError "data" \/ e = KeyError "collection".
Proof.
  unfold Schema.build. rewrite gather_observations.
  destruct (observations records) as [obs|e'] eqn:Hobs; simpl; [discriminate|].
  intros H. injection H as ->. revert Hobs.
  induction records as [|r rest IH]; simpl; [discriminate|].
  unfold Schema.flatten_record at 1, getitem.
  destruct (od_get r "data"); simpl; [|intros H; injection H as <-; now left].
  destruct (od_get r "collection"); simpl; [|intros H; injection H as <-; now right].
  destruct (Schema.observations _ _ rest); simpl; [discriminate|].
  intros H. injection H as ->. now apply IH.
Qed.

(** Every emitted field is the entry of its path in the statistics. *)
Lemma emitted_field total (field_stats : odict field_stat) f :
  NoDup (od_keys field_stats) ->
  In f (emit_fields total field_stats) ->
  exists st, od_get field_stats (path f) = Some st /\
             f = field_entry total (path f, st).
Proof.
  intros Hnd H. unfold Schema.emit_fields in H.
  apply in_map_iff in H as [[p st] [<- H]].
  apply (Permutation_in _ (sorted_items_perm field_stats)) in H.
  exists st. simpl. split; auto. now apply In_od_get.
Qed.

Lemma field_emitted total (field_stats : odict field_stat) p st :
  od_get field_stats p = Some st ->
  In (field_entry total (p, st)) (emit_fields total field_stats).
Proof.
  intros H. unfold Schema.emit_fields. apply in_map.
  apply (Permutation_in _ (Permutation_sym (sorted_items_perm field_stats))).
  now apply od_get_In.
Qed.

Lemma emit_fields_sorted total (field_stats : odict field_stat) :
  NoDup (od_keys field_stats) ->
  StronglySorted path_lt (emit_fields total field_stats).
Proof.
  intros Hnd. unfold Schema.emit_fields.
  pose proof (sorted_items_strict _ Hnd) as Hs.
  induction Hs as [|x l Hs IH Hall]; simpl; constructor; auto.
  rewrite Forall_forall in *. intros g Hg.
  apply in_map_iff in Hg as [y [<- Hy]].
  unfold path_lt. rewrite !path_field_entry. now apply Hall.
Qed.

(** The statistics of a path of a returning [build]: the entry of the
    path is the fold of [touch] over the values seen at it. *)
Lemma build_field sid ver records previous s d f :
  build sid ver records previous = Return (s, d) ->
  In f (fields s) ->
  exists obs v vs,
    observations records = Return obs /\
    values_at (path f) obs = v :: vs /\
    f = field_entry (Nat.max 1 (List.length records))
          (path f, fold_left touch (v :: vs) new_stat).
Proof.
  intros Hb Hf. apply build_inv in Hb as [obs [Hobs [Hfs _]]].
  rewrite Hfs in Hf. apply emitted_field in Hf as [st [Hst Hf]].
  - rewrite fold_observe_get in Hst.
    destruct (values_at (path f) obs) as [|v vs] eqn:E; [discriminate|].
    injection Hst as <-. exists obs, v, vs. auto.
  - apply fold_observe_NoDup. constructor.
Qed.

(** C5. In the schema of a returning [build] the fields are in strictly
    increasing lexicographic order of their paths; the [suggested_index] of
    a field holds exactly when its path ends with "id"; and
    [primary_key_candidates] lists the paths of the fields with
    [suggested_index], in the order of the fields. *)
Theorem build_fields_sorted sid ver records previous s d :
  build sid ver records previous = Return (s, d) ->
  StronglySorted path_lt (fields s) /\
  (forall f, In f (fields s) ->
     (suggested_index f = true <-> exists pre, path f = pre ++ "id")) /\
  primary_key_candidates s = map path (filter suggested_index (fields s)).
Proof.
  intros Hb. pose proof Hb as Hinv.
  apply build_inv in Hinv as [obs [Hobs [Hfs [Hpk _]]]].
  split; [|split]; auto.
  - rewrite Hfs. apply emit_fields_sorted. apply fold_observe_NoDup. constructor.
  - intros f Hf.
    pose proof Hf as Hbf. eapply build_field in Hbf; [|exact Hb].
    destruct Hbf as [_ [v [vs [_ [_ ->]]]]]. simpl.
    apply endswith_iff.
Qed.

(** C6. Within one [build], when some record, wherever it stands among the
    records, holds a null at a path, the field emitted for that path is
    nullable, whatever the other records hold there. *)
Theorem nullable_sticky sid ver records previous s d r flattened p :
  build sid ver records previous = Return (s, d) ->
  In r records ->
  flatten_record r = Return flattened ->
  od_get flattened p = Some VNone ->
  exists f, In f (fields s) /\ path f = p /\ nullable f = true.
Proof.
  intros Hb Hr Hfl Hp.
  apply build_inv in Hb as [obs [Hobs [Hfs _]]].
  assert (Hin : In VNone (values_at p obs)).
  { apply values_at_In. apply (observations_In _ _ _ _ Hobs).
    exists r, flattened. repeat split; auto. now apply od_get_In. }
  pose proof (fold_observe_get repr_float repr_container obs [] p) as Hget.
  destruct (values_at p obs) as [|v vs] eqn:E; [destruct Hin|].
  exists (field_entry (Nat.max 1 (List.length records))
            (p, fold_left touch (v :: vs) new_stat)).
  split; [|split].
  - rewrite Hfs. apply field_emitted. exact Hget.
  - reflexivity.
  - rewrite nullable_field_entry, fold_touch_nullable.
    assert (Hex : existsb is_none (v :: vs) = true).
    { apply existsb_exists. exists VNone. split; [exact Hin | reflexivity]. }
    rewrite Hex. apply orb_true_r.
Qed.

(** C10. When every value seen at the path of an emitted field is null,
    the field has types ["string"], is nullable and has no example; the
    default ["string"] is what [field_entry] puts for an empty type set. *)
Theorem all_null_field sid ver records previous s d f :
  (forall l, Permutation (set_order l) l) ->
  build sid ver records previous = Return (s, d) ->
  In f (fields s) ->
  (forall r flattened v,
     In r records -> flatten_record r = Return flattened ->
     od_get flattened (path f) = Some v -> v = VNone) ->
  (types f = ["string"] /\ nullable f = true /\ example_value f = None) /\
  (forall total p st,
     st_types st = [] -> types (field_entry total (p, st)) = ["string"]).
Proof.
  intros Hperm Hb Hf Hnull. split; [|intros total p st Hst; simpl; now rewrite Hst].
  pose proof Hf as Hbf. eapply build_field in Hbf; [|exact Hb].
  destruct Hbf as [obs [v [vs [Hobs [Hvs Hfe]]]]].
  assert (Hall : forall w, In w (v :: vs) -> w = VNone).
  { intros w Hw. rewrite <- Hvs in Hw. apply values_at_In in Hw.
    apply (observations_In _ _ _ _ Hobs) in Hw as [r [fl [Hr [Hfl Hw]]]].
    apply (Hnull r fl w Hr Hfl). apply In_od_get; auto.
    eapply flatten_record_NoDup; eauto. }
  destruct (fold_touch_all_null repr_float repr_container (v :: vs) new_stat Hall)
    as [Hty Hex].
  assert (Hnil : set_order [] = []).
  { apply Permutation_nil. apply Permutation_sym. apply Hperm. }
  rewrite Hfe. split; [|split].
  - rewrite types_field_entry, Hty. reflexivity.
  - rewrite nullable_field_entry, fold_touch_nullable. simpl.
    now rewrite (Hall v (or_introl eq_refl)).
  - rewrite example_field_entry, Hex. simpl examples. now rewrite Hnil.
Qed.

(** C4. The confidence of every emitted field is [count / max(1, total)]
    capped at 0.99 and rounded to two decimals, in binary64 arithmetic, where
    [count] is the number of records whose flattening holds the path and
    [total] the number of records; it lies between 0 and 0.99.  Without
    [min] and [round]: with [q] the quotient and [x] the float that is [q]
    when [q] is below 0.99 and 0.99 otherwise, the confidence is the float
    of [h / 100] for the number [h] of hundredths, from 0 to 99, that is
    nearest to the exact value of [x], the even one of two equally near. *)
Theorem confidence_bounds sid ver records previous s d f :
  build sid ver records previous = Return (s, d) ->
  In f (fields s) ->
  confidence f =
    round2 (min_float f0_99
              (truediv (occurrences (path f) records)
                       (Nat.max 1 (List.length records)))) /\
  PrimFloat.leb PrimFloat.zero (confidence f) = true /\
  PrimFloat.leb (confidence f) f0_99 = true /\
  exists (x : float) (h : Z),
    let q := truediv (occurrences (path f) records)
                     (Nat.max 1 (List.length records)) in
    (PrimFloat.ltb q f0_99 = true -> x = q) /\
    (PrimFloat.ltb q f0_99 = false -> x = f0_99) /\
    (0 <= h <= 99)%Z /\
    nearest_hundredth (Prim2SF x) h /\
    confidence f = PrimFloat.div (float_of_Z h) (float_of_Z 100).
Proof.
  intros Hb Hf.
  pose proof Hf as Hbf. eapply build_field in Hbf; [|exact Hb].
  destruct Hbf as [obs [v [vs [Hobs [Hvs Hfe]]]]].
  assert (Hc : confidence f =
               round2 (min_float f0_99
                         (truediv (occurrences (path f) records)
                                  (Nat.max 1 (List.length records))))).
  { rewrite Hfe at 1. rewrite confidence_field_entry, fold_touch_count.
    rewrite <- Hvs, (observations_count _ _ _ (path f) Hobs). reflexivity. }
  split; [exact Hc|]. rewrite Hc.
  destruct (round2_min_bounds _ (truediv_sign (occurrences (path f) records)
                                   (Nat.max 1 (List.length records)))) as [H0 H99].
  split; [exact H0|]. split; [exact H99|].
  apply round2_min_nearest. apply truediv_sign.
Qed.

End Emission.

Import Samples.

Lemma build_fields_sorted_witness :
  exists s d,
    build0 "orders" 1 [record_ab; record_null] None = Return (s, d) /\
    StronglySorted path_lt (fields s) /\
    (forall f, In f (fields s) ->
       (suggested_index f = true <-> exists pre, path f = pre ++ "id")) /\
    primary_key_candidates s = ["$.json_objects.user_id"].
Proof.
  do 2 eexists. split; [vm_compute; reflexivity|].
  pose proof (@build_fields_sorted repr_float0 repr_container0 set_order0
                "2024-01-01T00:00:00" ["mongodb"; "postgresql"]
                "orders" 1%Z [record_ab; record_null] None _ _ eq_refl) as H.
  destruct H as [H1 [H2 H3]]. split; [exact H1|]. split; [exact H2|].
  reflexivity.
Defined.

Lemma nullable_sticky_witness :
  exists s d,
    build0 "orders" 1 [record_null; record_ab] None = Return (s, d) /\
    exists f, In f (fields s) /\ path f = "$.json_objects.a" /\ nullable f = true.
Proof.
  do 2 eexists. split; [vm_compute; reflexivity|].
  apply (@nullable_sticky repr_float0 repr_container0 set_order0
           "2024-01-01T00:00:00" ["mongodb"; "postgresql"]
           "orders" 1%Z [record_null; record_ab] None _ _ record_null
           _ "$.json_objects.a" eq_refl (or_introl eq_refl) eq_refl eq_refl).
Defined.

Lemma confidence_bounds_witness :
  exists s d f,
    build0 "orders" 1 [record_ab; record_null; record_only_null] None = Return (s, d) /\
    In f (fields s) /\ path f = "$.json_objects.b" /\
    confidence f = PrimFloat.div (float_of_Z 33) (float_of_Z 100) /\
    confidence f = round2 (min_float f0_99 (truediv 1 3)) /\
    PrimFloat.leb PrimFloat.zero (confidence f) = true /\
    PrimFloat.leb (confidence f) f0_99 = true /\
    exists (x : float) (h : Z),
      (PrimFloat.ltb (truediv 1 3) f0_99 = true -> x = truediv 1 3) /\
      (PrimFloat.ltb (truediv 1 3) f0_99 = false -> x = f0_99) /\
      (0 <= h <= 99)%Z /\
      nearest_hundredth (Prim2SF x) h /\
      confidence f = PrimFloat.div (float_of_Z h) (float_of_Z 100).
Proof.
  do 2 eexists.
  exists {| name := "b"; path := "$.json_objects.b"; types := ["boolean"];
            nullable := false; example_value := Some "True";
            confidence := round2 (min_float f0_99 (truediv 1 3));
            suggested_index := false |}.
  split; [vm_compute; reflexivity|].
  split; [right; left; reflexivity|]. split; [reflexivity|].
  split; [vm_compute; reflexivity|].
  exact (@confidence_bounds repr_float0 repr_container0 set_order0
           "2024-01-01T00:00:00" ["mongodb"; "postgresql"]
           "orders" 1%Z [record_ab; record_null; record_only_null] None _ _ _
           eq_refl (or_intror (or_introl eq_refl))).
Defined.

Lemma all_null_field_witness :
  exists s d f,
    build0 "orders" 1 [record_only_null; record_only_null] None = Return (s, d) /\
    In f (fields s) /\
    types f = ["string"] /\ nullable f = true /\ example_value f = None.
Proof.
  do 2 eexists.
  exists {| name := "gone"; path := "$.json_objects.gone"; types := ["string"];
            nullable := true; example_value := None; confidence := f0_99;
            suggested_index := false |}.
  split; [vm_compute; reflexivity|]. split; [now left|].
  refine (proj1 (@all_null_field repr_float0 repr_container0 set_order0
                   "2024-01-01T00:00:00" ["mongodb"; "postgresql"]
                   "orders" 1%Z [record_only_null; record_only_null] None _ _ _
                   (fun l => Permutation_refl l) eq_refl (or_introl eq_refl) _)).
  intros r flattened v [<- | [<- | []]] Hfl; injection Hfl as <-;
    simpl; intros H; now injection H as <-.
Defined.


(** The scenario of the design document: the record of [{"a": 1, "b": true}]
    has [$.json_objects.a] of type integer and [$.json_objects.b] of type
    boolean. *)
Example scenario_types :
  exists s d,
    build0 "orders" 1 [record_ab] None = Return (s, d) /\
    map (fun f => (path f, types f)) (fields s) =
      [("$.json_objects.a", ["integer"]); ("$.json_objects.b", ["boolean"])].
Proof. do 2 eexists. split; vm_compute; reflexivity. Qed.

(** *** [_diff] *)

(** The scenario of the design document: from v1 to v2 the path [$.y] is
    added, [$.x] is changed and nothing is removed. *)
Example scenario_diff :
  _diff (Some {| ss_fields := Some (map store_field fields_v1) |}) fields_v2 =
    {| added := ["$.y"]; removed := Some []; changed := Some ["$.x"];
       notes := "Added fields: $.y; Type/nullable changes: $.x" |}.
Proof. reflexivity. Qed.

Lemma od_set_map (A B : Type) (g : A -> B) (d : odict A) k v :
  od_set (map (fun kv => (fst kv, g (snd kv))) d) k (g v) =
  map (fun kv => (fst kv, g (snd kv))) (od_set d k v).
Proof.
  induction d as [|[k0 v0] d IH]; simpl; [reflexivity|].
  destruct (String.eqb k0 k); simpl; [reflexivity|]. now rewrite IH.
Qed.

Lemma od_get_map (A B : Type) (g : A -> B) (d : odict A) k :
  od_get (map (fun kv => (fst kv, g (snd kv))) d) k = option_map g (od_get d k).
Proof.
  induction d as [|[k0 v0] d IH]; simpl; [reflexivity|].
  now destruct (String.eqb k0 k).
Qed.

Lemma index_store (fs : list field) :
  index_by_path sf_path (map store_field fs) =
  map (fun kv => (fst kv, store_field (snd kv))) (index_by_path path fs).
Proof.
  unfold index_by_path.
  change (@nil (string * stored_field))
    with (map (fun kv : string * field => (fst kv, store_field (snd kv))) []).
  generalize (@nil (string * field)).
  induction fs as [|f fs IH]; intros acc; simpl; [reflexivity|].
  rewrite <- IH. f_equal. apply (od_set_map store_field).
Qed.

Lemma index_by_path_NoDup (F : Type) (key : F -> string) (fs : list F) :
  NoDup (od_keys (index_by_path key fs)).
Proof. unfold index_by_path. apply index_NoDup. constructor. Qed.

(** The entries of [{key(f): f for f in fs}] are elements of [fs] under
    their own key. *)
Lemma index_by_path_In (F : Type) (key : F -> string) (fs : list F) k f :
  In (k, f) (index_by_path key fs) -> key f = k /\ In f fs.
Proof.
  unfold index_by_path.
  assert (G : forall l acc,
             NoDup (od_keys acc) ->
             (forall k f, In (k, f) acc -> key f = k /\ In f fs) ->
             incl l fs ->
             In (k, f) (fold_left (fun d f => od_set d (key f) f) l acc) ->
             key f = k /\ In f fs).
  { induction l as [|x l IH]; simpl; intros acc Hnd Hacc Hincl H; [eauto|].
    assert (Hnd' : NoDup (od_keys (od_set acc (key x) x))) by now apply od_set_NoDup.
    apply IH in H; auto.
    - intros k' f' Hin. apply In_od_get in Hin; auto.
      destruct (String.eqb_spec (key x) k') as [<- | Hne].
      + rewrite od_get_set_same in Hin. injection Hin as <-.
        split; auto. apply Hincl. now left.
      + rewrite od_get_set_other in Hin by assumption.
        apply Hacc. now apply od_get_In.
    - intros y Hy. apply Hincl. now right. }
  apply G; [constructor | intros ? ? [] | apply incl_refl].
Qed.

Lemma filter_none (A : Type) (f : A -> bool) (l : list A) :
  (forall x, In x l -> f x = false) -> filter f l = [].
Proof.
  induction l as [|x l IH]; simpl; intros H; [reflexivity|].
  rewrite (H x (or_introl eq_refl)). apply IH. intros; apply H; now right.
Qed.

Lemma flat_map_none (A B : Type) (f : A -> list B) (l : list A) :
  (forall x, In x l -> f x = []) -> flat_map f l = [].
Proof.
  induction l as [|x l IH]; simpl; intros H; [reflexivity|].
  rewrite (H x (or_introl eq_refl)). apply IH. intros; apply H; now right.
Qed.

Lemma field_changed_store (f : field) : field_changed f (store_field f) = false.
Proof.
  unfold field_changed, store_field. simpl.
  now rewrite set_eqb_refl, Bool.eqb_reflx.
Qed.

(** C7. Against an absent previous schema the report lists all the field
    paths of the current schema, in the order of its fields, as added; its
    notes are "Initial schema."; and it has no [removed] and no [changed]
    key.  This is the report of every [build] without a previous schema. *)
Theorem diff_initial (S : schema) :
  (added (_diff None (fields S)) = map path (fields S) /\
   notes (_diff None (fields S)) = "Initial schema." /\
   removed (_diff None (fields S)) = None /\
   changed (_diff None (fields S)) = None) /\
  (forall repr_float repr_container set_order utcnow dbs sid ver records d,
     build repr_float repr_container set_order utcnow dbs sid ver records None
       = Return (S, d) ->
     d = _diff None (fields S) /\ migration_notes S = "Initial schema.").
Proof.
  split; [repeat split|].
  intros rf rc so now dbs sid ver records d. unfold build.
  rewrite gather_observations.
  destruct (observations rf rc records) as [obs|e]; simpl; [|discriminate].
  intros H. injection H as <- <-. split; reflexivity.
Qed.

(** C8. The diff of a schema against itself, as the storage hands it
    back, has empty [added], [removed] and [changed] lists and empty notes;
    and in every diff against a previous schema a changed path is the path
    of a current field and of a previous field whose type sets or nullable
    flags differ. *)
Theorem diff_self (S : schema) :
  _diff (Some (store S)) (fields S) =
    {| added := []; removed := Some []; changed := Some []; notes := "" |} /\
  (forall prev fs cs p,
     changed (_diff (Some prev) fs) = Some cs -> In p cs ->
     exists f pf,
       In f fs /\
       In pf (match ss_fields prev with Some l => l | None => [] end) /\
       path f = p /\ sf_path pf = p /\ field_changed f pf = true).
Proof.
  split.
  - unfold _diff, store. cbn [ss_fields]. rewrite index_store.
    set (curr := index_by_path path (fields S)).
    set (prev := map (fun kv => (fst kv, store_field (snd kv))) curr).
    assert (Hkeys : od_keys prev = od_keys curr).
    { unfold prev, od_keys. rewrite map_map. reflexivity. }
    assert (Hadded : filter (fun p => negb (od_mem prev p)) (od_keys curr) = []).
    { apply filter_none. intros k Hk. rewrite <- Hkeys in Hk.
      apply od_mem_In in Hk. now rewrite Hk. }
    assert (Hremoved : filter (fun p => negb (od_mem curr p)) (od_keys prev) = []).
    { apply filter_none. intros k Hk. rewrite Hkeys in Hk.
      apply od_mem_In in Hk. now rewrite Hk. }
    assert (Hchanged :
              flat_map (fun kv : string * field =>
                 match od_get prev (fst kv) with
                 | Some prev_field =>
                     if field_changed (snd kv) prev_field then [fst kv] else []
                 | None => []
                 end) curr = []).
    { apply flat_map_none. intros [k f] Hin. simpl.
      unfold prev. rewrite od_get_map.
      rewrite (In_od_get curr k f (index_by_path_NoDup path (fields S)) Hin).
      simpl. now rewrite field_changed_store. }
    rewrite Hadded, Hremoved, Hchanged. reflexivity.
  - intros prev fs cs p Hcs Hp. unfold _diff in Hcs. cbn [changed] in Hcs.
    injection Hcs as <-.
    apply in_flat_map in Hp as [[k f] [Hin Hp]]. simpl in Hp.
    destruct (od_get _ k) as [pf|] eqn:Hpf; [|destruct Hp].
    destruct (field_changed f pf) eqn:Hch; [|destruct Hp].
    destruct Hp as [<- | []].
    apply index_by_path_In in Hin as [Hk Hf].
    apply od_get_In, index_by_path_In in Hpf as [Hpk Hpf].
    exists f, pf. auto.
Qed.

End SchemaFacts.

(** ** The extraction coordinator *)

Module ParsersFacts.
Import Py Schema Parsers.

Section Tolerance.
Variable L : library.

(** A JSON candidate that does not decode leaves no fragment, no record
    and no count, and the scan goes on. *)
Lemma json_loop_skip m rest fragments out :
  json_loads L (m_group m) = Raise JSONDecodeError ->
  json_loop L (m :: rest) fragments out = json_loop L rest fragments out.
Proof. intros H. simpl. now rewrite H. Qed.

(** So does a YAML block that does not load. *)
Lemma yaml_loop_skip m rest fragments out :
  yaml_safe_load L (strip L (m_group m)) = Raise YAMLError ->
  yaml_loop L (m :: rest) fragments out = yaml_loop L rest fragments out.
Proof. intros H. simpl. rewrite H. now destruct (is_empty _). Qed.

(** So does a CSV section on which [read_csv] raises anything. *)
Lemma csv_loop_skip m rest seen fragments out e :
  span_in (c_start m, c_end m) seen = false ->
  read_csv L (c_header m ++ Schema.newline ++ c_body m) = Raise e ->
  csv_loop L (m :: rest) seen fragments out =
  csv_loop L rest ((c_start m, c_end m) :: seen) fragments out.
Proof. intros Hs H. cbn [csv_loop]. now rewrite Hs, H. Qed.

Lemma json_loop_returns ms : forall fragments out,
  (forall s e, json_loads L s = Raise e -> e = JSONDecodeError) ->
  returns (json_loop L ms fragments out).
Proof.
  induction ms as [|m rest IH]; intros fragments out H; simpl.
  - now eexists.
  - destruct (json_loads L (m_group m)) as [parsed|e] eqn:E; [now apply IH|].
    rewrite (H _ _ E). now apply IH.
Qed.

Lemma html_loop_returns tables : forall idx fragments out,
  (forall data columns, returns (DataFrame L data columns)) ->
  returns (html_loop L tables idx fragments out).
Proof.
  induction tables as [|t rest IH]; intros idx fragments out H; simpl.
  - now eexists.
  - destruct (nonempty_rows t) as [|row rows]; [now apply IH|].
    assert (G : returns (_table_to_dataframe L (th_texts t) (row :: rows))).
    { unfold _table_to_dataframe. destruct (th_texts t); [apply H|].
      destruct (Nat.eqb _ _); apply H. }
    destruct G as [df ->]. simpl. now apply IH.
Qed.

Lemma yaml_loop_returns ms : forall fragments out,
  (forall s e, yaml_safe_load L s = Raise e -> e = YAMLError) ->
  returns (yaml_loop L ms fragments out).
Proof.
  induction ms as [|m rest IH]; intros fragments out H; simpl.
  - now eexists.
  - destruct (is_empty _); [now apply IH|].
    destruct (yaml_safe_load L _) as [loaded|e] eqn:E; [now apply IH|].
    rewrite (H _ _ E). now apply IH.
Qed.

Lemma csv_loop_returns ms : forall seen fragments out,
  (forall s, splitlines L s <> []) ->
  returns (csv_loop L ms seen fragments out).
Proof.
  induction ms as [|m rest IH]; intros seen fragments out H; simpl.
  - now eexists.
  - destruct (span_in _ seen); [now apply IH|].
    destruct (read_csv L _) as [df|e]; [|now apply IH].
    destruct (splitlines L _) as [|first others] eqn:E; [|now apply IH].
    now apply H in E.
Qed.

Lemma bind_returns (A B : Type) (c : outcome A) (k : A -> outcome B) :
  returns c -> (forall a, returns (k a)) -> returns (bind c k).
Proof. intros [a ->] H. apply H. Qed.

Lemma extend_returns stage text acc :
  returns (stage text (snd acc)) -> returns (extend stage text acc).
Proof. unfold extend. intros [r ->]. simpl. now eexists. Qed.

(** When the decoders raise nothing but what their extractor catches and
    the table stage raises nothing, [parse] returns its triple. *)
Lemma parse_returns text :
  (forall s e, json_loads L s = Raise e -> e = JSONDecodeError) ->
  (forall s e, yaml_safe_load L s = Raise e -> e = YAMLError) ->
  (forall data columns, returns (DataFrame L data columns)) ->
  (forall s, splitlines L s <> []) ->
  returns (parse L text).
Proof.
  intros Hj Hy Hd Hs. unfold parse.
  repeat (apply bind_returns; [apply extend_returns | intros ?]);
    try (now eexists).
  - now apply json_loop_returns.
  - now apply html_loop_returns.
  - now apply yaml_loop_returns.
  - now apply csv_loop_returns.
  - unfold _parse_key_values.
    destruct (map (kv_pair L) (kv_finditer L text)); now eexists.
  - unfold _parse_text_blocks.
    destruct (map (strip L) _); [now eexists|].
    destruct (text_loop _ _ _ _). now eexists.
Qed.

(** An exception of the table stage is caught nowhere: it leaves [parse]. *)
Lemma html_failure_escapes text a t rest e :
  _parse_json_fragments L text (empty_summary, []) = Return a ->
  soup_tables L text = t :: rest ->
  nonempty_rows t <> [] ->
  _table_to_dataframe L (th_texts t) (nonempty_rows t) = Raise e ->
  parse L text = Raise e.
Proof.
  intros Hj Ht Hrows He. unfold parse, extend. cbn [snd]. rewrite Hj.
  cbn [bind snd]. unfold _parse_html_fragments. rewrite Ht. cbn [html_loop].
  destruct (nonempty_rows t) as [|row rows]; [contradiction|].
  now rewrite He.
Qed.

(** So is an exception of the YAML loader that is no [YAMLError]. *)
Lemma yaml_failure_escapes m rest fragments out e :
  is_empty (strip L (m_group m)) = false ->
  yaml_safe_load L (strip L (m_group m)) = Raise e -> e <> YAMLError ->
  yaml_loop L (m :: rest) fragments out = Raise e.
Proof.
  intros Hn H Hne. simpl. rewrite Hn, H. destruct e; congruence.
Qed.
End Tolerance.

Import Samples.

(** C1 fails on the code. On a text whose table has a header row of two
    cells and a data row of three, the table stage raises [ValueError], which
    [parse] lets through; on a text with a malformed and a well-formed JSON
    candidate the malformed one is skipped and [parse] returns. *)
Theorem parse_raises_on_ragged_table :
  parse sample_library ragged_text = Raise ValueError /\
  parse sample_library mixed_text =
    Return ([{| fragment_type := "json"; start := 7; end_ := 9; preview := "{}";
                payload := VDict []; extra := [] |}],
            {| json_fragments := 1; html_tables := 0; kv_pairs := 0;
               csv_blocks := 0; yaml_blocks := 0; text_blocks := 0 |},
            [make_record "json_objects" (VDict []) 7 9]).
Proof. split; vm_compute; reflexivity. Qed.

Lemma parse_returns_witness : returns (parse positional_library mixed_text).
Proof.
  apply (@parse_returns positional_library mixed_text).
  - intros s e. simpl. destruct (s =? "{}"); congruence.
  - intros s e. simpl. congruence.
  - intros data columns. simpl. now eexists.
  - intros s. simpl. discriminate.
Defined.

End ParsersFacts.

(** ** More on flattening and on the emitted fields *)

Module SchemaMore.
Import Py Schema Views PyFacts FloatFacts SchemaFacts.

Lemma append_empty (s : string) : s ++ "" = s.
Proof. induction s as [|c s IH]; simpl; congruence. Qed.

Lemma append_assoc (a b c : string) : (a ++ b) ++ c = a ++ (b ++ c).
Proof. induction a as [|x a IH]; simpl; congruence. Qed.

(** What the loop over a dict leaves at a path comes from [items] or from
    the flattening of one entry. *)
Lemma flatten_entries_get p q t l : forall items,
  od_get (flatten_entries p l items) q = Some t ->
  od_get items q = Some t \/
  exists key v, In (key, v) l /\ od_get (flatten v (child_key p key)) q = Some t.
Proof.
  induction l as [|[key v] l IH]; simpl; intros items H; auto.
  apply IH in H as [H | [k [w [Hin Hw]]]].
  - apply od_update_get in H as [H | [_ H]]; auto.
    right. exists key, v. split; [now left|].
    apply In_od_get; auto. apply flatten_NoDup.
  - right. exists k, w. auto.
Qed.

Lemma flatten_elems_get p q t l : forall idx items,
  od_get (flatten_elems p l idx items) q = Some t ->
  od_get items q = Some t \/
  exists i v, nth_error l i = Some v /\
              od_get (flatten v (child_index p (idx + i))) q = Some t.
Proof.
  induction l as [|v l IH]; simpl; intros idx items H; auto.
  apply IH in H as [H | [i [w [Hi Hw]]]].
  - apply od_update_get in H as [H | [_ H]]; auto.
    right. exists 0, v. split; [reflexivity|]. rewrite Nat.add_0_r.
    apply In_od_get; auto. apply flatten_NoDup.
  - right. exists (S i), w. split; auto.
    now replace (idx + S i) with (S idx + i) by lia.
Qed.

(** Every path of a flattening starts with the prefix it was given. *)
Theorem flatten_paths_extend_prefix (document : value) :
  forall prefix q,
    In q (od_keys (flatten document prefix)) -> exists rest, q = prefix ++ rest.
Proof.
  induction document as [| b | n | x | s | elems IH | entries IH | cls text]
    using value_induction; intros p q H;
    try (simpl in H; destruct H as [<- | []]; exists ""; now rewrite append_empty).
  - apply od_key_get in H as [t H]. rewrite flatten_list in H.
    apply flatten_elems_get in H as [H | [i [v [Hi Hv]]]]; [discriminate|].
    rewrite Forall_forall in IH.
    apply od_get_Some_key, (IH v (nth_error_In _ _ Hi)) in Hv as [rest ->].
    unfold child_index. rewrite !append_assoc. eauto.
  - apply od_key_get in H as [t H]. rewrite flatten_dict in H.
    apply flatten_entries_get in H as [H | [key [v [Hin Hv]]]]; [discriminate|].
    rewrite Forall_forall in IH.
    apply od_get_Some_key, (IH (key, v) Hin) in Hv as [rest ->].
    unfold child_key. destruct (String.eqb_spec p "") as [-> | Hne].
    + simpl. eauto.
    + rewrite !append_assoc. eauto.
Qed.

Lemma flatten_get_terminal (document : value) :
  forall prefix q t,
    od_get (flatten document prefix) q = Some t ->
    isinstance_dict t = false /\ isinstance_list t = false.
Proof.
  induction document as [| b | n | x | s | elems IH | entries IH | cls text]
    using value_induction; intros p q t H;
    try (simpl in H; destruct (String.eqb p q); [|discriminate];
         injection H as <-; now split).
  - rewrite flatten_list in H.
    apply flatten_elems_get in H as [H | [i [v [Hi Hv]]]]; [discriminate|].
    rewrite Forall_forall in IH. exact (IH v (nth_error_In _ _ Hi) _ _ _ Hv).
  - rewrite flatten_dict in H.
    apply flatten_entries_get in H as [H | [key [v [Hin Hv]]]]; [discriminate|].
    rewrite Forall_forall in IH. exact (IH (key, v) Hin _ _ _ Hv).
Qed.

(** A flattening never holds a dict or a list as a value. *)
Theorem flatten_values_terminal (document : value) (prefix q : string) (t : value) :
  od_get (flatten document prefix) q = Some t ->
  isinstance_dict t = false /\ isinstance_list t = false.
Proof. apply flatten_get_terminal. Qed.

(** *** Sets of tags *)

Lemma set_add_In (l : list string) (x y : string) :
  In y (set_add l x) <-> In y l \/ y = x.
Proof.
  unfold set_add. destruct (mem x l) eqn:E.
  - apply mem_In in E. split; [tauto|]. intros [H | ->]; auto.
  - rewrite in_app_iff. simpl. intuition congruence.
Qed.

Lemma set_add_NoDup (l : list string) (x : string) :
  NoDup l -> NoDup (set_add l x).
Proof.
  intros H. unfold set_add. destruct (mem x l) eqn:E; auto.
  apply NoDup_app; auto.
  - repeat constructor. simpl. tauto.
  - intros y Hy [<- | []]. apply mem_In in Hy. congruence.
Qed.

Lemma sorted_strings_perm (l : list string) : Permutation (sorted_strings l) l.
Proof.
  unfold sorted_strings.
  rewrite (Permutation_map fst (sorted_items_perm (map (fun x => (x, tt)) l))).
  rewrite map_map. simpl. now rewrite map_id.
Qed.

Lemma sorted_strings_sorted (l : list string) :
  NoDup l ->
  StronglySorted (fun a b => String.ltb a b = true) (sorted_strings l).
Proof.
  intros Hnd. unfold sorted_strings.
  assert (Hk : NoDup (od_keys (map (fun x : string => (x, tt)) l))).
  { unfold od_keys. rewrite map_map. simpl. now rewrite map_id. }
  pose proof (sorted_items_strict _ Hk) as Hs.
  induction Hs as [|x r Hs IH Hall]; simpl; constructor; auto.
  rewrite Forall_forall in *. intros b Hb.
  apply in_map_iff in Hb as [y [<- Hy]]. now apply Hall.
Qed.

(** The four tags that a flattened value can get. *)
Lemma infer_type_terminal (v : value) :
  is_none v = false -> isinstance_dict v = false -> isinstance_list v = false ->
  In (infer_type v) ["boolean"; "integer"; "number"; "string"].
Proof. destruct v; simpl; intros; try discriminate; tauto. Qed.

Section Fields.
Variable repr_float : float -> string.
Variable repr_container : value -> string.
Variable set_order : list string -> list string.
Variable utcnow : string.
Variable self_compatible_dbs : list string.

Local Abbreviation py_str := (py_str repr_float repr_container).
Local Abbreviation flatten_record := (flatten_record repr_float repr_container).
Local Abbreviation touch := (touch repr_float repr_container).
Local Abbreviation observations := (observations repr_float repr_container).
Local Abbreviation occurrences := (occurrences repr_float repr_container).
Local Abbreviation has_path := (has_path repr_float repr_container).
Local Abbreviation field_entry := (field_entry set_order).
Local Abbreviation build :=
  (build repr_float repr_container set_order utcnow self_compatible_dbs).

Lemma fold_touch_types vs : forall st,
  (forall v, In v vs -> isinstance_dict v = false /\ isinstance_list v = false) ->
  NoDup (st_types st) ->
  (forall t, In t (st_types st) -> In t ["boolean"; "integer"; "number"; "string"]) ->
  NoDup (st_types (fold_left touch vs st)) /\
  (forall t, In t (st_types (fold_left touch vs st)) ->
             In t ["boolean"; "integer"; "number"; "string"]).
Proof.
  induction vs as [|v vs IH]; intros st Hvs Hnd Hst; simpl; [auto|].
  destruct (Hvs v (or_introl eq_refl)) as [Hd Hl].
  apply IH.
  - intros w Hw. apply Hvs. now right.
  - unfold Schema.touch. destruct (is_none v); simpl; auto.
    now apply set_add_NoDup.
  - unfold Schema.touch. destruct (is_none v) eqn:Hn; simpl; auto.
    intros t Ht. apply set_add_In in Ht as [Ht | ->].
    + now apply Hst.
    + now apply infer_type_terminal.
Qed.

(** The values seen at a path are values of flattenings. *)
Lemma observed_value records obs p v :
  observations records = Return obs ->
  In v (values_at p obs) ->
  exists r flattened,
    In r records /\ flatten_record r = Return flattened /\
    od_get flattened p = Some v.
Proof.
  intros Hobs Hv. apply values_at_In in Hv.
  apply (observations_In _ _ _ _ Hobs) in Hv as [r [fl [Hr [Hfl Hv]]]].
  exists r, fl. repeat split; auto. apply In_od_get; auto.
  eapply flatten_record_NoDup; eauto.
Qed.

Lemma observed_terminal records obs p v :
  observations records = Return obs ->
  In v (values_at p obs) ->
  isinstance_dict v = false /\ isinstance_list v = false.
Proof.
  intros Hobs Hv.
  destruct (@observed_value records obs p v Hobs Hv) as [r [fl [_ [Hfl Hget]]]].
  apply flatten_record_inv in Hfl as [data [c [_ [_ ->]]]].
  eapply flatten_get_terminal; eauto.
Qed.

Lemma field_types_facts sid ver records previous s d f :
  build sid ver records previous = Return (s, d) ->
  In f (fields s) ->
  types f <> [] /\
  StronglySorted (fun a b => String.ltb a b = true) (types f) /\
  (forall t, In t (types f) -> In t ["boolean"; "integer"; "number"; "string"]).
Proof.
  intros Hb Hf.
  pose proof Hf as Hbf. eapply build_field in Hbf; [|exact Hb].
  destruct Hbf as [obs [v [vs [Hobs [Hvs Hfe]]]]].
  destruct (fold_touch_types (v :: vs) new_stat) as [Hnd Htags].
  { intros w Hw. rewrite <- Hvs in Hw. eapply observed_terminal; eauto. }
  { constructor. }
  { intros t []. }
  rewrite Hfe, types_field_entry.
  set (tags := st_types (fold_left touch (v :: vs) new_stat)) in *.
  pose proof (sorted_strings_perm tags) as Hperm.
  pose proof (sorted_strings_sorted Hnd) as Hsorted.
  destruct (sorted_strings tags) as [|t0 ts] eqn:E.
  - split; [discriminate|]. split.
    + repeat constructor.
    + intros t [<- | []]. simpl. tauto.
  - split; [discriminate|]. split; [exact Hsorted|].
    intros t Ht. apply Htags. eapply Permutation_in; eauto.
Qed.

(** The type list of every emitted field is not empty, strictly sorted,
    and made of "boolean", "integer", "number" and "string" only: "null",
    "array" and "object" never appear in a schema. *)
Theorem field_types_wellformed sid ver records previous s d f :
  build sid ver records previous = Return (s, d) ->
  In f (fields s) ->
  types f <> [] /\
  StronglySorted (fun a b => String.ltb a b = true) (types f) /\
  (forall t, In t (types f) -> In t ["boolean"; "integer"; "number"; "string"]).
Proof. apply field_types_facts. Qed.

Lemma emit_fields_paths total (field_stats : odict field_stat) p :
  In p (map path (Schema.emit_fields set_order total field_stats)) <->
  In p (od_keys field_stats).
Proof.
  unfold Schema.emit_fields. rewrite map_map.
  assert (E : map (fun x => path (field_entry total x)) (sorted_items field_stats)
              = map fst (sorted_items field_stats)).
  { apply map_ext. intros [q st]. reflexivity. }
  rewrite E. unfold od_keys.
  pose proof (Permutation_map fst (sorted_items_perm field_stats)) as Hp.
  split; intros H.
  - eapply Permutation_in; eauto.
  - eapply Permutation_in; [apply Permutation_sym|]; eauto.
Qed.

Lemma has_path_iff p r :
  has_path p r = true <->
  exists flattened, flatten_record r = Return flattened /\ In p (od_keys flattened).
Proof.
  unfold Schema.has_path. destruct (flatten_record r) as [fl|e]; split.
  - intros H. exists fl. split; auto. now apply od_mem_In.
  - intros [fl' [E H]]. injection E as <-. now apply od_mem_In.
  - discriminate.
  - intros [fl' [E _]]. discriminate.
Qed.

Lemma field_paths_seen sid ver records previous s d p :
  build sid ver records previous = Return (s, d) ->
  (In p (map path (fields s)) <-> exists r, In r records /\ has_path p r = true).
Proof.
  intros Hb. apply build_inv in Hb as [obs [Hobs [Hfs _]]].
  rewrite Hfs, emit_fields_paths. split.
  - intros H. apply od_key_get in H as [st H].
    rewrite fold_observe_get in H.
    destruct (values_at p obs) as [|v vs] eqn:E; [discriminate|].
    assert (Hv : In v (values_at p obs)) by (rewrite E; now left).
    destruct (@observed_value records obs p v Hobs Hv) as [r [fl [Hr [Hfl Hget]]]].
    exists r. split; auto. apply has_path_iff. exists fl. split; auto.
    eapply od_get_Some_key; eauto.
  - intros [r [Hr Hp]]. apply has_path_iff in Hp as [fl [Hfl Hp]].
    apply od_key_get in Hp as [v Hv].
    assert (Hin : In v (values_at p obs)).
    { apply values_at_In. apply (observations_In _ _ _ _ Hobs).
      exists r, fl. repeat split; auto. now apply od_get_In. }
    pose proof (fold_observe_get repr_float repr_container obs [] p) as Hget.
    destruct (values_at p obs) as [|w ws]; [destruct Hin|].
    eapply od_get_Some_key; eauto.
Qed.

(** The fields of a schema are the paths seen: a path has a field exactly
    when the flattening of some record holds it. *)
Theorem field_paths_observed sid ver records previous s d p :
  build sid ver records previous = Return (s, d) ->
  (In p (map path (fields s)) <-> exists r, In r records /\ has_path p r = true).
Proof. apply field_paths_seen. Qed.

(** Every field was seen in at least one record and in no more records
    than there are. *)
Theorem field_occurrences_bounds sid ver records previous s d f :
  build sid ver records previous = Return (s, d) ->
  In f (fields s) ->
  1 <= occurrences (path f) records <= List.length records.
Proof.
  intros Hb Hf.
  pose proof Hf as Hbf. eapply build_field in Hbf; [|exact Hb].
  destruct Hbf as [obs [v [vs [Hobs [Hvs _]]]]].
  rewrite <- (observations_count _ _ _ (path f) Hobs), Hvs.
  split; [simpl; lia|].
  rewrite <- Hvs, (observations_count _ _ _ (path f) Hobs).
  unfold Schema.occurrences. apply filter_length_le.
Qed.

(** A field is nullable exactly when some record holds a null at its path. *)
Theorem nullable_iff_null_seen sid ver records previous s d f :
  build sid ver records previous = Return (s, d) ->
  In f (fields s) ->
  (nullable f = true <->
   exists r flattened,
     In r records /\ flatten_record r = Return flattened /\
     od_get flattened (path f) = Some VNone).
Proof.
  intros Hb Hf.
  pose proof Hf as Hbf. eapply build_field in Hbf; [|exact Hb].
  destruct Hbf as [obs [v [vs [Hobs [Hvs Hfe]]]]].
  assert (Hn : nullable f = existsb is_none (values_at (path f) obs)).
  { rewrite Hfe at 1. rewrite nullable_field_entry, fold_touch_nullable, Hvs.
    reflexivity. }
  rewrite Hn, existsb_exists. split.
  - intros [w [Hw Hnone]]. destruct w; try discriminate.
    exact (@observed_value records obs (path f) VNone Hobs Hw).
  - intros [r [fl [Hr [Hfl Hget]]]]. exists VNone. split; auto.
    apply values_at_In. apply (observations_In _ _ _ _ Hobs).
    exists r, fl. repeat split; auto. now apply od_get_In.
Qed.

Lemma fold_touch_examples vs : forall st e,
  In e (examples (fold_left touch vs st)) <->
  In e (examples st) \/
  exists v, In v vs /\ is_none v = false /\ e = slice_to 80 (py_str v).
Proof.
  induction vs as [|v vs IH]; intros st e; simpl.
  - split; [tauto|]. intros [H | [v [[] _]]]. exact H.
  - rewrite IH. unfold Schema.touch. destruct (is_none v) eqn:Hn; simpl.
    + split.
      * intros [H | [w [Hw Hrest]]]; [tauto|]. right. exists w. tauto.
      * intros [H | [w [[<- | Hw] [Hnw He]]]]; [tauto | congruence |].
        right. exists w. tauto.
    + rewrite set_add_In. split.
      * intros [[H | ->] | [w [Hw Hrest]]]; [tauto | | ].
        -- right. exists v. tauto.
        -- right. exists w. tauto.
      * intros [H | [w [[<- | Hw] [Hnw He]]]]; [tauto | tauto |].
        right. exists w. tauto.
Qed.

Lemma slice_to_length (n : nat) (s : string) : char_count (slice_to n s) <= n.
Proof.
  revert n. induction s as [|c s IH]; intros n; simpl; [lia|].
  destruct (is_continuation c) eqn:E; simpl.
  - rewrite E. apply IH.
  - destruct n as [|k]; simpl; [lia|]. rewrite E. specialize (IH k). lia.
Qed.

(** On text without continuation bytes (ASCII text among others) the cut
    is the cut of the bytes. *)
Lemma slice_to_bytes (n : nat) (s : string) :
  forallb (fun c => negb (is_continuation c)) (list_ascii_of_string s) = true ->
  slice_to n s = substring 0 n s /\ char_count s = String.length s.
Proof.
  revert n. induction s as [|c s IH]; intros n; simpl.
  - now destruct n.
  - rewrite andb_true_iff, negb_true_iff. intros [Hc Hs]. rewrite Hc.
    destruct n as [|k]; simpl; destruct (IH 0 Hs) as [_ Hl]; rewrite Hl;
      [auto|]. now rewrite (proj1 (IH k Hs)).
Qed.

(** The example of a field is the text, cut after its first 80 characters
    (not bytes), of a value that is not null and was seen at its path; there
    is none exactly when only nulls were seen there. *)
Theorem example_value_observed sid ver records previous s d f :
  (forall l, Permutation (set_order l) l) ->
  build sid ver records previous = Return (s, d) ->
  In f (fields s) ->
  match example_value f with
  | Some e =>
      char_count e <= 80 /\
      exists r flattened v,
        In r records /\ flatten_record r = Return flattened /\
        od_get flattened (path f) = Some v /\ is_none v = false /\
        e = slice_to 80 (py_str v)
  | None =>
      forall r flattened v,
        In r records -> flatten_record r = Return flattened ->
        od_get flattened (path f) = Some v -> v = VNone
  end.
Proof.
  intros Hperm Hb Hf.
  pose proof Hf as Hbf. eapply build_field in Hbf; [|exact Hb].
  destruct Hbf as [obs [v [vs [Hobs [Hvs Hfe]]]]].
  assert (Hex : example_value f =
                hd_error (set_order (examples (fold_left touch (values_at (path f) obs)
                                                 new_stat)))).
  { rewrite Hfe at 1. rewrite example_field_entry, Hvs. reflexivity. }
  rewrite Hex.
  set (ex := examples (fold_left touch (values_at (path f) obs) new_stat)).
  pose proof (Hperm ex) as Hp.
  destruct (set_order ex) as [|e rest] eqn:E; simpl.
  - intros r fl w Hr Hfl Hget.
    apply Permutation_nil in Hp.
    destruct (is_none w) eqn:Hn; [now destruct w|].
    assert (Hin : In (slice_to 80 (py_str w)) ex).
    { apply fold_touch_examples. right. exists w. repeat split; auto.
      apply values_at_In. apply (observations_In _ _ _ _ Hobs).
      exists r, fl. repeat split; auto. now apply od_get_In. }
    rewrite Hp in Hin. destruct Hin.
  - assert (Hin : In e ex) by (eapply Permutation_in; [exact Hp | now left]).
    apply fold_touch_examples in Hin as [[] | [w [Hw [Hn ->]]]].
    split; [apply slice_to_length|].
    destruct (@observed_value records obs (path f) w Hobs Hw) as [r [fl [Hr [Hfl Hget]]]].
    exists r, fl, w. auto.
Qed.

(** No column of the DDL of a built schema is of type JSONB. *)
Theorem built_column_never_jsonb sid ver records previous s d f :
  build sid ver records previous = Return (s, d) ->
  In f (fields s) ->
  In (_map_type (types f)) ["BIGINT"; "DOUBLE PRECISION"; "BOOLEAN"; "TEXT"].
Proof.
  intros Hb Hf.
  destruct (@field_types_facts sid ver records previous s d f Hb Hf)
    as [_ [_ Htags]].
  assert (Ha : mem "array" (types f) = false).
  { destruct (mem "array" (types f)) eqn:E; auto.
    apply mem_In, Htags in E. simpl in E. intuition discriminate. }
  assert (Ho : mem "object" (types f) = false).
  { destruct (mem "object" (types f)) eqn:E; auto.
    apply mem_In, Htags in E. simpl in E. intuition discriminate. }
  unfold _map_type. rewrite Ha, Ho.
  destruct (mem "integer" (types f)), (mem "number" (types f)),
    (mem "boolean" (types f)); simpl; tauto.
Qed.

(** When no record holds a terminal value (no record at all, or only
    empty containers) the schema has no field and no key candidate, and its
    DDL is the table with the single payload column. *)
Theorem build_without_paths sid ver records previous s d :
  build sid ver records previous = Return (s, d) ->
  (forall r p, In r records -> has_path p r = false) ->
  fields s = [] /\ primary_key_candidates s = [] /\
  ddl s = "CREATE TABLE IF NOT EXISTS " ++ sid ++ "_records (" ++ newline
            ++ "    payload JSONB" ++ newline ++ ");".
Proof.
  intros Hb Hnone.
  assert (Hfs : fields s = []).
  { destruct (fields s) as [|f fs] eqn:E; auto.
    assert (Hin : In (path f) (map path (fields s))) by (rewrite E; now left).
    apply (proj1 (@field_paths_seen sid ver records previous s d (path f) Hb))
      in Hin as [r [Hr Hp]].
    rewrite (Hnone r (path f) Hr) in Hp. discriminate. }
  pose proof Hb as Hinv. apply build_inv in Hinv as [obs [_ [_ [Hpk _]]]].
  rewrite Hpk, Hfs. split; [reflexivity|]. split; [reflexivity|].
  unfold Schema.build in Hb. rewrite gather_observations in Hb.
  destruct (Schema.observations _ _ records); simpl in Hb; [|discriminate].
  injection Hb as <- _. simpl in Hfs |- *. now rewrite Hfs.
Qed.

End Fields.

Import Samples.

Lemma flatten_paths_extend_prefix_witness :
  exists rest, "$.json_objects.b" = "$.json_objects" ++ rest.
Proof.
  apply (@flatten_paths_extend_prefix (VDict [("a", VInt 1); ("b", VBool true)])
           "$.json_objects" "$.json_objects.b").
  simpl. tauto.
Defined.

Lemma flatten_values_terminal_witness :
  isinstance_dict (VInt 7) = false /\ isinstance_list (VInt 7) = false.
Proof.
  apply (@flatten_values_terminal
           (VDict [("a", VNone); ("ids", VList [VInt 7; VDict []])])
           "$.json_objects" "$.json_objects.ids[0]" (VInt 7)).
  reflexivity.
Defined.

Lemma field_types_wellformed_witness :
  types field_a <> [] /\
  StronglySorted (fun a b => String.ltb a b = true) (types field_a) /\
  (forall t, In t (types field_a) -> In t ["boolean"; "integer"; "number"; "string"]).
Proof.
  exact (@field_types_wellformed repr_float0 repr_container0 set_order0
           "2024-01-01T00:00:00" ["mongodb"; "postgresql"]
           "orders" 1%Z [record_ab; record_null] None _ _ field_a
           eq_refl (or_introl eq_refl)).
Defined.

Lemma field_paths_observed_witness :
  exists s d,
    build0 "orders" 1 [record_ab; record_null] None = Return (s, d) /\
    (In "$.json_objects.b" (map path (fields s)) <->
     exists r, In r [record_ab; record_null] /\
               has_path repr_float0 repr_container0 "$.json_objects.b" r = true).
Proof.
  do 2 eexists. split; [vm_compute; reflexivity|].
  exact (@field_paths_observed repr_float0 repr_container0 set_order0
           "2024-01-01T00:00:00" ["mongodb"; "postgresql"]
           "orders" 1%Z [record_ab; record_null] None _ _ "$.json_objects.b" eq_refl).
Defined.

Lemma field_occurrences_bounds_witness :
  1 <= occurrences repr_float0 repr_container0 (path field_a) [record_ab; record_null]
    <= 2.
Proof.
  exact (@field_occurrences_bounds repr_float0 repr_container0 set_order0
           "2024-01-01T00:00:00" ["mongodb"; "postgresql"]
           "orders" 1%Z [record_ab; record_null] None _ _ field_a
           eq_refl (or_introl eq_refl)).
Defined.

Lemma nullable_iff_null_seen_witness :
  nullable field_a = true <->
  exists r flattened,
    In r [record_ab; record_null] /\
    flatten_record repr_float0 repr_container0 r = Return flattened /\
    od_get flattened (path field_a) = Some VNone.
Proof.
  exact (@nullable_iff_null_seen repr_float0 repr_container0 set_order0
           "2024-01-01T00:00:00" ["mongodb"; "postgresql"]
           "orders" 1%Z [record_ab; record_null] None _ _ field_a
           eq_refl (or_introl eq_refl)).
Defined.

Lemma example_value_observed_witness :
  char_count (euro ++ string_of_list_ascii (repeat "a"%char 79)) <= 80 /\
  exists r flattened v,
    In r [record_note] /\
    flatten_record repr_float0 repr_container0 r = Return flattened /\
    od_get flattened (path field_note) = Some v /\ is_none v = false /\
    euro ++ string_of_list_ascii (repeat "a"%char 79) =
      slice_to 80 (py_str repr_float0 repr_container0 v).
Proof.
  exact (@example_value_observed repr_float0 repr_container0 set_order0
           "2024-01-01T00:00:00" ["mongodb"; "postgresql"]
           "notes" 1%Z [record_note] None _ _ field_note
           (fun l => Permutation_refl l) eq_refl (or_introl eq_refl)).
Defined.

Lemma built_column_never_jsonb_witness :
  In (_map_type (types field_a)) ["BIGINT"; "DOUBLE PRECISION"; "BOOLEAN"; "TEXT"].
Proof.
  exact (@built_column_never_jsonb repr_float0 repr_container0 set_order0
           "2024-01-01T00:00:00" ["mongodb"; "postgresql"]
           "orders" 1%Z [record_ab; record_null] None _ _ field_a
           eq_refl (or_introl eq_refl)).
Defined.

Lemma build_without_paths_witness :
  exists s d,
    build0 "orders" 1 [record_empty] None = Return (s, d) /\
    fields s = [] /\ primary_key_candidates s = [] /\
    ddl s = "CREATE TABLE IF NOT EXISTS " ++ "orders" ++ "_records (" ++ newline
              ++ "    payload JSONB" ++ newline ++ ");".
Proof.
  do 2 eexists. split; [vm_compute; reflexivity|].
  apply (@build_without_paths repr_float0 repr_container0 set_order0
           "2024-01-01T00:00:00" ["mongodb"; "postgresql"]
           "orders" 1%Z [record_empty] None _ _ eq_refl).
  intros r p [<- | []]. reflexivity.
Defined.

End SchemaMore.

(** ** [build] within the limits of the interpreter *)

Module LimitsFacts.
Import Py Schema Limits Views PyFacts SchemaFacts SchemaMore.

Lemma depth_dict (entries : list (string * value)) :
  depth (VDict entries) = S (deepest_entries entries).
Proof. reflexivity. Qed.

Lemma depth_list (elems : list value) :
  depth (VList elems) = S (deepest_elems elems).
Proof. reflexivity. Qed.

Lemma depth_pos (v : value) : 1 <= depth v.
Proof. destruct v; simpl; lia. Qed.

Lemma flatten_limited_dict room (entries : list (string * value)) (p : string) :
  flatten_limited (S room) (VDict entries) p =
  flatten_limited_entries room p entries [].
Proof.
  simpl. generalize (@nil (string * value)).
  induction entries as [|[key v] l IH]; intros items; simpl; [reflexivity|].
  destruct (flatten_limited room v (child_key p key)); simpl; auto.
Qed.

Lemma flatten_limited_list room (elems : list value) (p : string) :
  flatten_limited (S room) (VList elems) p =
  flatten_limited_elems room p elems 0 [].
Proof.
  simpl. generalize (@nil (string * value)) 0.
  induction elems as [|v l IH]; intros items idx; simpl; [reflexivity|].
  destruct (flatten_limited room v (child_index p idx)); simpl; auto.
Qed.

(** With room for the nesting of the document the limited [flatten] is
    [flatten]. *)
Lemma flatten_limited_fits room : forall v p,
  depth v <= room -> flatten_limited room v p = Return (flatten v p).
Proof.
  induction room as [|room IH]; intros v p H.
  - pose proof (depth_pos v). lia.
  - destruct v as [| b | n | x | str | elems | entries | cls text]; try reflexivity.
    + rewrite flatten_limited_list, flatten_list. rewrite depth_list in H.
      assert (G : forall l idx items,
                 deepest_elems l <= room ->
                 flatten_limited_elems room p l idx items =
                 Return (flatten_elems p l idx items)).
      { induction l as [|v l IHl]; simpl; intros idx items Hl; [reflexivity|].
        rewrite IH by lia. simpl. apply IHl. lia. }
      apply G. lia.
    + rewrite flatten_limited_dict, flatten_dict. rewrite depth_dict in H.
      assert (G : forall l items,
                 deepest_entries l <= room ->
                 flatten_limited_entries room p l items =
                 Return (flatten_entries p l items)).
      { induction l as [|[key v] l IHl]; simpl; intros items Hl; [reflexivity|].
        rewrite IH by lia. simpl. apply IHl. lia. }
      apply G. lia.
Qed.

(** Without it [RecursionError] is raised. *)
Lemma flatten_limited_deep room : forall v p,
  room < depth v ->
  flatten_limited room v p = Raise (OtherError "RecursionError").
Proof.
  induction room as [|room IH]; intros v p H; [reflexivity|].
  destruct v as [| b | n | x | str | elems | entries | cls text];
    try (simpl in H; lia).
  - rewrite flatten_limited_list. rewrite depth_list in H.
    assert (G : forall l idx items,
               room < deepest_elems l ->
               flatten_limited_elems room p l idx items =
               Raise (OtherError "RecursionError")).
    { induction l as [|v l IHl]; simpl; intros idx items Hl; [lia|].
      destruct (Nat.leb_spec (depth v) room) as [Hv | Hv].
      - rewrite flatten_limited_fits by exact Hv. simpl. apply IHl. lia.
      - now rewrite IH by exact Hv. }
    apply G. lia.
  - rewrite flatten_limited_dict. rewrite depth_dict in H.
    assert (G : forall l items,
               room < deepest_entries l ->
               flatten_limited_entries room p l items =
               Raise (OtherError "RecursionError")).
    { induction l as [|[key v] l IHl]; simpl; intros items Hl; [lia|].
      destruct (Nat.leb_spec (depth v) room) as [Hv | Hv].
      - rewrite flatten_limited_fits by exact Hv. simpl. apply IHl. lia.
      - now rewrite IH by exact Hv. }
    apply G. lia.
Qed.

Lemma forallb_false_exists (A : Type) (f : A -> bool) (l : list A) :
  forallb f l = false -> exists x, In x l /\ f x = false.
Proof.
  induction l as [|a l IH]; simpl; [discriminate|].
  destruct (f a) eqn:E; simpl.
  - intros H. destruct (IH H) as [x [Hx Hf]]. exists x. auto.
  - intros _. exists a. auto.
Qed.

Section Interpreter.
Variable repr_float : float -> string.
Variable repr_container : value -> string.
Variable set_order : list string -> list string.
Variable utcnow : string.
Variable self_compatible_dbs : list string.
Variable frames : nat.
Variable int_max_str_digits : nat.

Local Abbreviation py_str := (py_str repr_float repr_container).
Local Abbreviation flatten_record := (flatten_record repr_float repr_container).
Local Abbreviation observe := (observe repr_float repr_container).
Local Abbreviation gather := (gather repr_float repr_container).
Local Abbreviation has_path := (has_path repr_float repr_container).
Local Abbreviation oversized := (oversized int_max_str_digits).
Local Abbreviation observe_all :=
  (observe_all repr_float repr_container int_max_str_digits).
Local Abbreviation gather_limited :=
  (gather_limited repr_float repr_container frames int_max_str_digits).
Local Abbreviation fits := (fits frames int_max_str_digits).
Local Abbreviation build :=
  (build repr_float repr_container set_order utcnow self_compatible_dbs).
Local Abbreviation build_limited :=
  (build_limited repr_float repr_container set_order utcnow self_compatible_dbs
     frames int_max_str_digits).

(** The integers of a flattening are integers of the document. *)
Lemma leaf_oversized (v : value) (p q : string) (t : value) :
  leaf v p q t -> oversized v = false -> oversized t = false.
Proof.
  intros H. induction H as [v p Hd Hl | entries p key v q t Hin H IH
                           | elems p i v q t Hi H IH]; intros Hv; auto.
  - apply IH. simpl in Hv.
    destruct (Limits.oversized int_max_str_digits v) eqn:E; [|reflexivity].
    assert (Hex : existsb (fun kv : string * value =>
                             Limits.oversized int_max_str_digits (snd kv)) entries
                  = true)
      by (apply existsb_exists; exists (key, v); auto).
    congruence.
  - apply IH. simpl in Hv.
    destruct (Limits.oversized int_max_str_digits v) eqn:E; [|reflexivity].
    assert (Hex : existsb (Limits.oversized int_max_str_digits) elems = true)
      by (apply existsb_exists; exists v; split; auto;
          eapply nth_error_In; eauto).
    congruence.
Qed.

Lemma observe_all_fits (items : list (string * value)) : forall field_stats,
  (forall kv, In kv items -> oversized (snd kv) = false) ->
  observe_all items field_stats = Return (fold_left observe items field_stats).
Proof.
  induction items as [|kv items IH]; simpl; intros field_stats H; [reflexivity|].
  unfold observe_limited, touch_limited, str_limited.
  rewrite (H kv (or_introl eq_refl)).
  destruct (is_none (snd kv)); simpl; apply IH; intros; apply H; now right.
Qed.

(** On records within the limits the loop of the interpreter is the loop
    of [build]. *)
Lemma gather_limited_fits (records : list record) : forall field_stats,
  (forall r, In r records -> fits r = true) ->
  gather_limited records field_stats = gather records field_stats.
Proof.
  induction records as [|r rest IH]; simpl; intros field_stats H; [reflexivity|].
  pose proof (H r (or_introl eq_refl)) as Hr.
  unfold Limits.fits in Hr. unfold Schema.flatten_record, getitem.
  destruct (od_get r "data") as [data|]; simpl; [|reflexivity].
  destruct (od_get r "collection") as [collection|]; simpl; [|reflexivity].
  apply andb_true_iff in Hr as [Hr Hc]. apply andb_true_iff in Hr as [Hdepth Hd].
  apply negb_true_iff in Hc, Hd. apply Nat.leb_le in Hdepth.
  unfold str_limited. rewrite Hc. simpl.
  rewrite flatten_limited_fits by exact Hdepth. simpl.
  rewrite observe_all_fits.
  - simpl. apply IH. intros; apply H; now right.
  - intros [q t] Hin. simpl.
    apply (@leaf_oversized data ("$." ++ py_str collection) q t); [|exact Hd].
    apply flatten_sound; [discriminate|].
    apply In_od_get; [apply flatten_NoDup | exact Hin].
Qed.

Lemma build_limited_fits sid ver records previous :
  (forall r, In r records -> fits r = true) ->
  build_limited sid ver records previous = build sid ver records previous.
Proof.
  intros H. unfold Limits.build_limited, Schema.build.
  now rewrite gather_limited_fits.
Qed.

End Interpreter.

Import Samples.

(** Beyond the limits: data nested three deep with room for two calls,
    and an integer of five digits with a limit of three. *)
Example build_limited_beyond :
  build_limited repr_float0 repr_container0 set_order0 "2024-01-01T00:00:00"
    ["mongodb"; "postgresql"] 2 4300 "orders" 1
    [make_record "json_objects" (VList [VList [VInt 1]]) 0 5] None
    = Raise (OtherError "RecursionError") /\
  build_limited repr_float0 repr_container0 set_order0 "2024-01-01T00:00:00"
    ["mongodb"; "postgresql"] 900 3 "orders" 1
    [make_record "json_objects" (VDict [("n", VInt 12345)]) 0 12] None
    = Raise ValueError.
Proof. split; reflexivity. Qed.


End LimitsFacts.

(** ** More on [_diff] *)

Module DiffFacts.
Import Py Schema Views PyFacts SchemaFacts.

Lemma index_keys_In (F : Type) (key : F -> string) (fs : list F) (k : string) :
  In k (od_keys (index_by_path key fs)) <-> In k (map key fs).
Proof.
  unfold index_by_path.
  assert (G : forall l acc,
             In k (od_keys (fold_left (fun d f => od_set d (key f) f) l acc)) <->
             In k (od_keys acc) \/ In k (map key l)).
  { induction l as [|x l IH]; intros acc; simpl; [tauto|].
    rewrite IH, od_keys_set_In. intuition congruence. }
  rewrite G. simpl. tauto.
Qed.

Lemma od_mem_false (V : Type) (d : odict V) (k : string) :
  od_mem d k = false <-> ~ In k (od_keys d).
Proof.
  rewrite <- od_mem_In. destruct (od_mem d k); split; congruence.
Qed.

(** Against a previous schema, [added] holds the current paths that the
    previous schema lacks, and [removed] the previous paths that the current
    schema lacks. *)
Theorem diff_added_removed (prev : stored_schema) (fs : list field) (p : string) :
  (In p (added (_diff (Some prev) fs)) <->
   In p (map path fs) /\ ~ In p (previous_paths prev)) /\
  (exists rs, removed (_diff (Some prev) fs) = Some rs /\
     (In p rs <-> In p (previous_paths prev) /\ ~ In p (map path fs))).
Proof.
  unfold _diff, previous_paths. cbn [added removed]. split.
  - rewrite filter_In, negb_true_iff, od_mem_false, !index_keys_In. tauto.
  - eexists. split; [reflexivity|].
    rewrite filter_In, negb_true_iff, od_mem_false, !index_keys_In. tauto.
Qed.

Lemma NoDup_map_filter (A : Type) (g : A -> string) (P : A -> bool) (l : list A) :
  NoDup (map g l) -> NoDup (map g (filter P l)).
Proof.
  induction l as [|x l IH]; simpl; intros H; [constructor|].
  inversion H as [|? ? Hnot Hnd]; subst.
  destruct (P x); simpl; auto. constructor; auto.
  intros Hin. apply Hnot. apply in_map_iff in Hin as [y [E Hy]].
  apply filter_In in Hy as [Hy _]. rewrite <- E. now apply in_map.
Qed.

Lemma changed_as_filter (prev_fields : odict stored_field) (curr : odict field) :
  flat_map (fun kv : string * field =>
     match od_get prev_fields (fst kv) with
     | Some prev_field => if field_changed (snd kv) prev_field then [fst kv] else []
     | None => []
     end) curr =
  map fst (filter (fun kv : string * field =>
     match od_get prev_fields (fst kv) with
     | Some prev_field => field_changed (snd kv) prev_field
     | None => false
     end) curr).
Proof.
  induction curr as [|kv curr IH]; simpl; [reflexivity|].
  destruct (od_get prev_fields (fst kv)) as [pf|]; [|exact IH].
  destruct (field_changed (snd kv) pf); simpl; now rewrite IH.
Qed.

(** The three lists of a diff have no repeated path, even when the field
    lists have, and a path is never both added and changed, nor both added
    and removed. *)
Theorem diff_lists_disjoint (prev : stored_schema) (fs : list field) :
  exists rs cs,
    removed (_diff (Some prev) fs) = Some rs /\
    changed (_diff (Some prev) fs) = Some cs /\
    NoDup (added (_diff (Some prev) fs)) /\ NoDup rs /\ NoDup cs /\
    (forall p, In p (added (_diff (Some prev) fs)) -> ~ In p cs /\ ~ In p rs).
Proof.
  unfold _diff. cbn [added removed changed]. do 2 eexists.
  split; [reflexivity|]. split; [reflexivity|].
  set (prev_fields := index_by_path sf_path _).
  set (curr := index_by_path path fs).
  assert (Hc : NoDup (od_keys curr)) by apply index_by_path_NoDup.
  assert (Hp : NoDup (od_keys prev_fields)) by apply index_by_path_NoDup.
  split; [now apply NoDup_filter|]. split; [now apply NoDup_filter|].
  split; [rewrite changed_as_filter; now apply NoDup_map_filter|].
  intros p Hadd. apply filter_In in Hadd as [Hk Hmem].
  apply negb_true_iff in Hmem. split.
  - rewrite changed_as_filter. intros Hin.
    apply in_map_iff in Hin as [[k f] [E Hin]]. simpl in E. subst k.
    apply filter_In in Hin as [_ Hin]. simpl in Hin.
    unfold od_mem in Hmem. destruct (od_get prev_fields p); discriminate.
  - intros Hin. apply filter_In in Hin as [Hin _].
    apply od_mem_In in Hin. congruence.
Qed.

Lemma concat_empty (sep : string) (parts : list string) :
  sep <> "" -> (forall x, In x parts -> x <> "") ->
  String.concat sep parts = "" -> parts = [].
Proof.
  intros Hsep Hparts. destruct parts as [|x [|y rest]]; simpl; auto.
  - intros ->. exfalso. now apply (Hparts "" (or_introl eq_refl)).
  - intros H. exfalso. apply (Hparts x (or_introl eq_refl)).
    destruct x; [reflexivity|discriminate].
Qed.

Lemma notes_part_empty (label : string) (paths : list string) :
  label <> "" ->
  (notes_part label paths = [] <-> paths = []) /\
  (forall x, In x (notes_part label paths) -> x <> "").
Proof.
  intros Hl. destruct paths as [|p ps]; simpl.
  - split; [tauto|]. intros x [].
  - split; [split; discriminate|]. intros x [<- | []].
    destruct label; [contradiction|discriminate].
Qed.

(** The notes of a diff against a previous schema are empty exactly when
    nothing was added, removed or changed. *)
Theorem diff_notes_empty_iff (prev : stored_schema) (fs : list field) :
  notes (_diff (Some prev) fs) = "" <->
  added (_diff (Some prev) fs) = [] /\
  removed (_diff (Some prev) fs) = Some [] /\
  changed (_diff (Some prev) fs) = Some [].
Proof.
  unfold _diff. cbn [added removed changed notes].
  set (a := filter _ (od_keys (index_by_path path fs))).
  set (r := filter _ (od_keys (index_by_path sf_path _))).
  set (c := flat_map _ (index_by_path path fs)).
  destruct (notes_part_empty a (label := "Added fields: ")) as [Ha Ha']; [discriminate|].
  destruct (notes_part_empty r (label := "Removed fields: ")) as [Hr Hr']; [discriminate|].
  destruct (notes_part_empty c (label := "Type/nullable changes: ")) as [Hc Hc'];
    [discriminate|].
  split.
  - intros H. apply concat_empty in H; [|discriminate|].
    + apply app_eq_nil in H as [H1 H2]. apply app_eq_nil in H2 as [H2 H3].
      apply Ha in H1. apply Hr in H2. apply Hc in H3. now rewrite H1, H2, H3.
    + intros x Hx. apply in_app_iff in Hx as [Hx | Hx]; [now apply Ha'|].
      apply in_app_iff in Hx as [Hx | Hx]; [now apply Hr' | now apply Hc'].
  - intros [H1 [H2 H3]]. injection H2 as H2. injection H3 as H3.
    now rewrite H1, H2, H3.
Qed.

(** What a diff from S1 to S2 removes is what the diff from S2 back to S1
    adds, in the same order, and the other way round. *)
Theorem diff_forward_backward (S1 S2 : schema) :
  removed (_diff (Some (store S1)) (fields S2)) =
    Some (added (_diff (Some (store S2)) (fields S1))) /\
  removed (_diff (Some (store S2)) (fields S1)) =
    Some (added (_diff (Some (store S1)) (fields S2))).
Proof.
  assert (G : forall A B : schema,
             removed (_diff (Some (store A)) (fields B)) =
             Some (added (_diff (Some (store B)) (fields A)))).
  { intros A B. unfold _diff, store. cbn [added removed ss_fields].
    rewrite !index_store. f_equal.
    assert (Hk : od_keys (map (fun kv : string * field =>
                                 (fst kv, store_field (snd kv)))
                            (index_by_path path (fields A)))
                 = od_keys (index_by_path path (fields A))).
    { unfold od_keys. rewrite map_map. reflexivity. }
    rewrite Hk. apply filter_ext. intros p. f_equal.
    unfold od_mem. rewrite od_get_map.
    now destruct (od_get (index_by_path path (fields B)) p). }
  split; apply G.
Qed.

End DiffFacts.

(** ** The order of the records *)

Module OrderFacts.
Import Py Schema Views PyFacts SchemaFacts SchemaMore.

(** Two lists in strict order of a key with the same elements are equal. *)
Lemma strict_sorted_ext (A : Type) (key : A -> string) (l1 : list A) :
  forall l2,
    StronglySorted (fun a b => String.ltb (key a) (key b) = true) l1 ->
    StronglySorted (fun a b => String.ltb (key a) (key b) = true) l2 ->
    (forall x, In x l1 <-> In x l2) ->
    l1 = l2.
Proof.
  induction l1 as [|a l1 IH]; intros [|b l2] H1 H2 Hin.
  - reflexivity.
  - destruct (proj2 (Hin b) (or_introl eq_refl)).
  - destruct (proj1 (Hin a) (or_introl eq_refl)).
  - inversion H1 as [|? ? H1' Ha]; subst. inversion H2 as [|? ? H2' Hb]; subst.
    rewrite Forall_forall in Ha, Hb.
    assert (Hab : a = b).
    { destruct (proj1 (Hin a) (or_introl eq_refl)) as [E | Ea]; [now symmetry|].
      destruct (proj2 (Hin b) (or_introl eq_refl)) as [E | Eb]; [assumption|].
      exfalso. pose proof (ltb_trans _ _ _ (Ha b Eb) (Hb a Ea)) as Hc.
      rewrite ltb_irrefl in Hc. discriminate. }
    subst b. f_equal. apply IH; auto.
    intros x. split; intros Hx.
    + destruct (proj1 (Hin x) (or_intror Hx)) as [<- | H]; auto.
      exfalso. pose proof (Ha a Hx) as Hc. rewrite ltb_irrefl in Hc. discriminate.
    + destruct (proj2 (Hin x) (or_intror Hx)) as [<- | H]; auto.
      exfalso. pose proof (Hb a Hx) as Hc. rewrite ltb_irrefl in Hc. discriminate.
Qed.

Lemma filter_perm (A : Type) (f : A -> bool) (l l' : list A) :
  Permutation l l' -> Permutation (filter f l) (filter f l').
Proof.
  induction 1 as [|x l l' _ IH|x y l|l l' l'' _ IH1 _ IH2]; simpl.
  - constructor.
  - destruct (f x); auto.
  - destruct (f x), (f y); auto. constructor.
  - now transitivity (filter f l').
Qed.

Lemma values_at_perm p obs obs' :
  Permutation obs obs' -> Permutation (values_at p obs) (values_at p obs').
Proof. intros H. unfold values_at. now apply Permutation_map, filter_perm. Qed.

Lemma existsb_perm (A : Type) (f : A -> bool) (l l' : list A) :
  Permutation l l' -> existsb f l = existsb f l'.
Proof.
  intros H. apply eq_true_iff_eq. rewrite !existsb_exists.
  split; intros [x [Hx Hf]]; exists x; split; auto.
  - eapply Permutation_in; eauto.
  - eapply Permutation_in; [symmetry|]; eauto.
Qed.

Lemma sorted_strings_ext (l l' : list string) :
  NoDup l -> NoDup l' -> (forall t, In t l <-> In t l') ->
  sorted_strings l = sorted_strings l'.
Proof.
  intros Hl Hl' Hin.
  apply (@strict_sorted_ext string (fun x => x)).
  - now apply sorted_strings_sorted.
  - now apply sorted_strings_sorted.
  - intros t. split; intros Ht.
    + apply (Permutation_in _ (Permutation_sym (sorted_strings_perm l'))).
      apply Hin. now apply (Permutation_in _ (sorted_strings_perm l)).
    + apply (Permutation_in _ (Permutation_sym (sorted_strings_perm l))).
      apply Hin. now apply (Permutation_in _ (sorted_strings_perm l')).
Qed.

(** The current fields enter the DDL, the candidates and the report by
    their path, types, nullability and index flag only. *)
Lemma ddl_forget (sid : string) (fs : list field) :
  _build_postgres_ddl sid (map forget_example fs) = _build_postgres_ddl sid fs.
Proof. unfold _build_postgres_ddl. now rewrite map_map. Qed.

Lemma candidates_forget (fs : list field) :
  map path (filter suggested_index (map forget_example fs)) =
  map path (filter suggested_index fs).
Proof.
  induction fs as [|f fs IH]; simpl; [reflexivity|].
  destruct (suggested_index f); simpl; now rewrite IH.
Qed.

Lemma index_forget (fs : list field) :
  index_by_path path (map forget_example fs) =
  map (fun kv => (fst kv, forget_example (snd kv))) (index_by_path path fs).
Proof.
  unfold index_by_path.
  change (@nil (string * field))
    with (map (fun kv : string * field => (fst kv, forget_example (snd kv))) []) at 1.
  generalize (@nil (string * field)).
  induction fs as [|f fs IH]; intros acc; simpl; [reflexivity|].
  rewrite <- IH. f_equal. apply (od_set_map forget_example).
Qed.

Lemma diff_forget (previous : option stored_schema) (fs : list field) :
  _diff previous (map forget_example fs) = _diff previous fs.
Proof.
  destruct previous as [prev|]; simpl.
  - rewrite index_forget.
    set (curr := index_by_path path fs).
    set (prevd := index_by_path sf_path _).
    assert (Hk : od_keys (map (fun kv : string * field =>
                                 (fst kv, forget_example (snd kv))) curr)
                 = od_keys curr).
    { unfold od_keys. rewrite map_map. reflexivity. }
    assert (Hm : forall p, od_mem (map (fun kv : string * field =>
                                 (fst kv, forget_example (snd kv))) curr) p
                           = od_mem curr p).
    { intros p. unfold od_mem.
      rewrite (od_get_map forget_example). now destruct (od_get curr p). }
    assert (Hc : flat_map (fun kv : string * field =>
                    match od_get prevd (fst kv) with
                    | Some prev_field =>
                        if field_changed (snd kv) prev_field then [fst kv] else []
                    | None => []
                    end)
                   (map (fun kv : string * field =>
                           (fst kv, forget_example (snd kv))) curr)
                 = flat_map (fun kv : string * field =>
                    match od_get prevd (fst kv) with
                    | Some prev_field =>
                        if field_changed (snd kv) prev_field then [fst kv] else []
                    | None => []
                    end) curr).
    { clear Hk Hm. clearbody curr.
      induction curr as [|kv curr' IH]; simpl; [reflexivity|]. now rewrite IH. }
    rewrite Hk, Hc.
    rewrite (filter_ext _ _ (fun p => f_equal negb (Hm p))).
    reflexivity.
  - now rewrite map_map.
Qed.

Section Order.
Variable repr_float : float -> string.
Variable repr_container : value -> string.
Variable set_order : list string -> list string.
Variable utcnow : string.
Variable self_compatible_dbs : list string.

Local Abbreviation flatten_record := (flatten_record repr_float repr_container).
Local Abbreviation touch := (touch repr_float repr_container).
Local Abbreviation observe := (observe repr_float repr_container).
Local Abbreviation observations := (observations repr_float repr_container).
Local Abbreviation field_entry := (field_entry set_order).
Local Abbreviation emit_fields := (emit_fields set_order).
Local Abbreviation build :=
  (build repr_float repr_container set_order utcnow self_compatible_dbs).

(** The pairs that the inner loop goes through, for a reordered list of
    records: the same pairs, reordered. *)
Lemma observations_perm (records records' : list record) :
  Permutation records records' ->
  forall obs, observations records = Return obs ->
  exists obs', observations records' = Return obs' /\ Permutation obs obs'.
Proof.
  induction 1 as [|r l l' _ IH|r1 r2 l|l l' l'' _ IH1 _ IH2]; simpl; intros obs Hobs.
  - eauto.
  - destruct (flatten_record r) as [fl|e]; simpl in *; [|discriminate].
    destruct (Schema.observations _ _ l) as [o|e]; simpl in *; [|discriminate].
    injection Hobs as <-. destruct (IH o eq_refl) as [o' [-> Hp]]. simpl.
    eexists. split; [reflexivity|]. now apply Permutation_app_head.
  - destruct (flatten_record r1) as [f1|e]; simpl in *;
      [|destruct (flatten_record r2); simpl in *; discriminate].
    destruct (flatten_record r2) as [f2|e]; simpl in *; [|discriminate].
    destruct (Schema.observations _ _ l) as [o|e]; simpl in *; [|discriminate].
    injection Hobs as <-. eexists. split; [reflexivity|].
    apply Permutation_app_swap_app.
  - destruct (IH1 obs Hobs) as [o' [Ho' Hp]].
    destruct (IH2 o' Ho') as [o'' [Ho'' Hp']].
    exists o''. split; auto. now transitivity o'.
Qed.

Lemma fold_touch_types_In vs : forall st t,
  In t (st_types (fold_left touch vs st)) <->
  In t (st_types st) \/
  exists v, In v vs /\ is_none v = false /\ infer_type v = t.
Proof.
  induction vs as [|v vs IH]; intros st t; simpl.
  - split; [tauto|]. intros [H | [v [[] _]]]. exact H.
  - rewrite IH. unfold Schema.touch. destruct (is_none v) eqn:Hn; simpl.
    + split.
      * intros [H | [w [Hw Hr]]]; [tauto|]. right. exists w. tauto.
      * intros [H | [w [[<- | Hw] [Hr Ht]]]]; [tauto| congruence |].
        right. exists w. tauto.
    + rewrite set_add_In. split.
      * intros [[H | ->] | [w [Hw Hr]]]; [tauto| |].
        -- right. exists v. tauto.
        -- right. exists w. tauto.
      * intros [H | [w [[<- | Hw] [Hr Ht]]]]; [tauto| |].
        -- left. right. now symmetry.
        -- right. exists w. tauto.
Qed.

Lemma fold_touch_types_NoDup vs : forall st,
  NoDup (st_types st) -> NoDup (st_types (fold_left touch vs st)).
Proof.
  induction vs as [|v vs IH]; intros st H; simpl; auto.
  apply IH. unfold Schema.touch. destruct (is_none v); simpl; auto.
  now apply set_add_NoDup.
Qed.

(** The entry of a path does not depend on the order in which its values
    are met, its example apart. *)
Lemma field_entry_perm total p vs vs' :
  Permutation vs vs' ->
  forget_example (field_entry total (p, fold_left touch vs new_stat)) =
  forget_example (field_entry total (p, fold_left touch vs' new_stat)).
Proof.
  intros Hp. unfold forget_example, Schema.field_entry. simpl.
  rewrite !fold_touch_count, !fold_touch_nullable.
  rewrite (Permutation_length Hp), (existsb_perm is_none Hp).
  rewrite (@sorted_strings_ext (st_types (fold_left touch vs new_stat))
             (st_types (fold_left touch vs' new_stat))).
  - reflexivity.
  - apply fold_touch_types_NoDup. constructor.
  - apply fold_touch_types_NoDup. constructor.
  - intros t. rewrite !fold_touch_types_In.
    split; (intros [H | [v [Hv Hr]]]; [now left|]; right; exists v; split; auto).
    + eapply Permutation_in; eauto.
    + eapply Permutation_in; [symmetry|]; eauto.
Qed.

Lemma emit_fields_incl total obs obs' x :
  Permutation obs obs' ->
  In x (map forget_example (emit_fields total (fold_left observe obs []))) ->
  In x (map forget_example (emit_fields total (fold_left observe obs' []))).
Proof.
  intros Hp Hx. apply in_map_iff in Hx as [f [<- Hf]].
  apply emitted_field in Hf as [st [Hst Hf]];
    [|apply fold_observe_NoDup; constructor].
  rewrite fold_observe_get in Hst.
  pose proof (values_at_perm (path f) Hp) as Hvs.
  destruct (values_at (path f) obs) as [|v vs] eqn:E; [discriminate|].
  injection Hst as <-. rewrite Hf.
  change (fold_left touch vs (touch (stat_of [] (path f)) v))
    with (fold_left touch (v :: vs) new_stat).
  rewrite (field_entry_perm total (path f) Hvs).
  apply in_map. apply field_emitted. rewrite fold_observe_get.
  destruct (values_at (path f) obs') as [|v' vs'] eqn:E'; [|reflexivity].
  apply Permutation_sym, Permutation_nil in Hvs. discriminate.
Qed.

Lemma forget_sorted (fs : list field) :
  StronglySorted path_lt fs ->
  StronglySorted (fun a b => String.ltb (path a) (path b) = true)
    (map forget_example fs).
Proof.
  induction 1 as [|f fs _ IH Hall]; simpl; constructor; auto.
  rewrite Forall_forall in *. intros g Hg.
  apply in_map_iff in Hg as [g' [<- Hg']]. simpl. now apply Hall.
Qed.

Lemma emit_fields_perm total obs obs' :
  Permutation obs obs' ->
  map forget_example (emit_fields total (fold_left observe obs [])) =
  map forget_example (emit_fields total (fold_left observe obs' [])).
Proof.
  intros Hp. apply (@strict_sorted_ext field path).
  - apply forget_sorted, emit_fields_sorted, fold_observe_NoDup. constructor.
  - apply forget_sorted, emit_fields_sorted, fold_observe_NoDup. constructor.
  - intros x. split; apply emit_fields_incl; auto. now symmetry.
Qed.

(** The schema and the report of [build] do not depend on the order of
    the records, the example values of the fields apart: building from
    the same records in another order returns the same report and a
    schema that differs in nothing but the examples. *)
Theorem build_record_order sid ver records records' previous s d :
  Permutation records records' ->
  build sid ver records previous = Return (s, d) ->
  exists s',
    build sid ver records' previous = Return (s', d) /\
    forget_examples s' = forget_examples s.
Proof.
  intros Hp. unfold Schema.build. rewrite !gather_observations.
  destruct (observations records) as [obs|e] eqn:Hobs; simpl; [|discriminate].
  destruct (observations_perm Hp Hobs) as [obs' [-> Hperm]]. simpl.
  intros H. injection H as <- <-. eexists. split.
  - f_equal. f_equal.
    rewrite <- (Permutation_length Hp).
    rewrite <- (diff_forget previous (emit_fields _ (fold_left observe obs' []))).
    rewrite <- (diff_forget previous (emit_fields _ (fold_left observe obs []))).
    now rewrite (emit_fields_perm _ Hperm).
  - unfold forget_examples. simpl.
    rewrite <- (Permutation_length Hp).
    rewrite <- (ddl_forget sid (emit_fields _ (fold_left observe obs' []))).
    rewrite <- (ddl_forget sid (emit_fields _ (fold_left observe obs []))).
    rewrite <- (candidates_forget (emit_fields _ (fold_left observe obs' []))).
    rewrite <- (candidates_forget (emit_fields _ (fold_left observe obs []))).
    rewrite <- (diff_forget previous (emit_fields _ (fold_left observe obs' []))).
    rewrite <- (diff_forget previous (emit_fields _ (fold_left observe obs []))).
    now rewrite (emit_fields_perm _ Hperm).
Qed.
End Order.

Import Samples.

Lemma build_record_order_witness :
  exists s d s',
    build0 "orders" 1 [record_ab; record_null] None = Return (s, d) /\
    build0 "orders" 1 [record_null; record_ab] None = Return (s', d) /\
    forget_examples s' = forget_examples s.
Proof.
  do 2 eexists.
  assert (H : build0 "orders" 1 [record_ab; record_null] None = Return _)
    by (vm_compute; reflexivity).
  destruct (@build_record_order repr_float0 repr_container0 set_order0
              "2024-01-01T00:00:00" ["mongodb"; "postgresql"]
              "orders" 1%Z [record_ab; record_null] [record_null; record_ab]
              None _ _ (perm_swap _ _ _) H) as [s' [Hb Hs]].
  exists s'. split; [exact H|]. split; [exact Hb | exact Hs].
Defined.

End OrderFacts.

(** ** More on the extractors *)

Module ParsersMore.
Import Py Schema Parsers Views PyFacts.

Lemma count_type_app ty a b :
  count_type ty (a ++ b) = count_type ty a + count_type ty b.
Proof. unfold count_type. now rewrite filter_app, length_app. Qed.

Lemma tally_nil sm : tally [] 0 sm = sm.
Proof. destruct sm. unfold tally, count_type. simpl. f_equal; lia. Qed.

Lemma tally_app a b k1 k2 sm :
  tally (a ++ b) (k1 + k2) sm = tally b k2 (tally a k1 sm).
Proof. unfold tally. simpl. rewrite !count_type_app. f_equal; lia. Qed.

Lemma prefix_append (a b : string) : prefix a (a ++ b) = true.
Proof.
  induction a as [|c a IH]; simpl; [now destruct b|].
  destruct (ascii_dec c c); [exact IH | contradiction].
Qed.

Lemma stage_adds_nil ty out : stage_adds ty 0 out [] out.
Proof.
  split; [constructor|]. split; [now rewrite tally_nil|].
  exists []. split; [now rewrite app_nil_r | constructor].
Qed.

Lemma stage_adds_step ty k out fr r new out' :
  fragment_type fr = ty -> derived fr r ->
  stage_adds ty k (tally [fr] 0 (fst out), (snd out ++ [r])%list) new out' ->
  stage_adds ty k out (fr :: new) out'.
Proof.
  intros Hty Hder [Hall [Htally [recs [Hrecs Hf2]]]]. simpl in *.
  split; [now constructor|]. split.
  - rewrite Htally. change (fr :: new) with ([fr] ++ new)%list.
    now rewrite <- tally_app.
  - exists (r :: recs). split; [|now constructor].
    rewrite Hrecs, <- app_assoc. reflexivity.
Qed.

Section Stages.
Variable L : library.

Lemma json_loop_adds ms : forall fragments out fragments' out',
  json_loop L ms fragments out = Return (fragments', out') ->
  exists new, fragments' = (fragments ++ new)%list /\ stage_adds "json" 0 out new out'.
Proof.
  induction ms as [|m rest IH]; simpl; intros frs out frs' out' H.
  - injection H as <- <-. exists []. split; [now rewrite app_nil_r|].
    apply stage_adds_nil.
  - destruct (json_loads L (m_group m)) as [parsed|e].
    + apply IH in H as [new [-> Hnew]].
      exists (json_fragment m parsed :: new). split; [now rewrite <- app_assoc|].
      apply stage_adds_step with (r := make_record "json_objects" parsed (m_start m) (m_end m));
        [reflexivity | | ].
      * split; [reflexivity|]. split; [|intros _; reflexivity].
        exists "json_objects". now split.
      * replace (tally [json_fragment m parsed] 0 (fst out)) with (count_json (fst out));
          [exact Hnew|].
        destruct (fst out). unfold tally, count_type, count_json. simpl. f_equal; lia.
    + destruct e; try discriminate. now apply IH.
Qed.

Lemma html_loop_adds tables : forall idx fragments out fragments' out',
  html_loop L tables idx fragments out = Return (fragments', out') ->
  exists new,
    fragments' = (fragments ++ new)%list /\ stage_adds "html_table" 0 out new out'.
Proof.
  induction tables as [|t rest IH]; simpl; intros idx frs out frs' out' H.
  - injection H as <- <-. exists []. split; [now rewrite app_nil_r|].
    apply stage_adds_nil.
  - destruct (nonempty_rows t) as [|row rows]; [now apply IH in H|].
    destruct (_table_to_dataframe L (th_texts t) (row :: rows)) as [df|e];
      simpl in H; [|discriminate].
    apply IH in H as [new [-> Hnew]].
    eexists (_ :: new). split; [now rewrite <- app_assoc|].
    apply stage_adds_step with (r := make_record ("html_table_" ++ str_of_nat idx) (to_dict_records L df) (-1) (-1));
        [reflexivity | | ].
    + split; [reflexivity|]. split; [|intros _; reflexivity].
      exists ("html_table_" ++ str_of_nat idx). split; [reflexivity|].
      apply (prefix_append "html_table_").
    + match goal with
      | |- stage_adds _ _ (?sm, _) _ _ =>
          replace sm with (count_html (fst out)); [exact Hnew|]
      end.
      destruct (fst out). unfold tally, count_type, count_html. simpl. f_equal; lia.
Qed.

Lemma yaml_loop_adds ms : forall fragments out fragments' out',
  yaml_loop L ms fragments out = Return (fragments', out') ->
  exists new, fragments' = (fragments ++ new)%list /\ stage_adds "yaml" 0 out new out'.
Proof.
  induction ms as [|m rest IH]; simpl; intros frs out frs' out' H.
  - injection H as <- <-. exists []. split; [now rewrite app_nil_r|].
    apply stage_adds_nil.
  - destruct (is_empty (strip L (m_group m))); [now apply IH in H|].
    destruct (yaml_safe_load L (strip L (m_group m))) as [loaded|e].
    + apply IH in H as [new [-> Hnew]].
      eexists (_ :: new). split; [now rewrite <- app_assoc|].
      apply stage_adds_step with (r := make_record "yaml_blocks" loaded (m_start m) (m_end m));
        [reflexivity | | ].
      * split; [reflexivity|]. split; [|intros _; reflexivity].
        exists "yaml_blocks". now split.
      * match goal with
        | |- stage_adds _ _ (?sm, _) _ _ =>
            replace sm with (count_yaml (fst out)); [exact Hnew|]
        end.
        destruct (fst out). unfold tally, count_type, count_yaml. simpl. f_equal; lia.
    + destruct e; try discriminate. now apply IH.
Qed.

(** The CSV loop also keeps the spans apart: the spans of the fragments
    it adds are distinct and were not seen before. *)
Lemma csv_loop_adds ms : forall seen fragments out fragments' out',
  csv_loop L ms seen fragments out = Return (fragments', out') ->
  exists new,
    fragments' = (fragments ++ new)%list /\ stage_adds "csv" 0 out new out' /\
    NoDup (map span_of new) /\
    (forall fr, In fr new -> span_in (span_of fr) seen = false).
Proof.
  induction ms as [|m rest IH]; cbn [csv_loop]; intros seen frs out frs' out' H.
  - injection H as <- <-. exists []. split; [now rewrite app_nil_r|].
    split; [apply stage_adds_nil|]. split; [constructor | intros fr []].
  - destruct (span_in (c_start m, c_end m) seen) eqn:Hseen; [now apply IH in H|].
    assert (Hcons : forall fr,
               span_in (span_of fr) ((c_start m, c_end m) :: seen) = false ->
               span_in (span_of fr) seen = false /\ span_of fr <> (c_start m, c_end m)).
    { intros fr Hfr. unfold span_in in Hfr. simpl in Hfr.
      apply orb_false_iff in Hfr as [Hne Hrest]. split; [exact Hrest|].
      intros E. unfold span_of in E. injection E as E1 E2.
      simpl in Hne. rewrite E1, E2, !Z.eqb_refl in Hne. discriminate. }
    destruct (read_csv L _) as [df|e].
    + destruct (splitlines L _) as [|first others]; [discriminate|].
      apply IH in H as [new [-> [Hnew [Hnd Hnot]]]].
      eexists (_ :: new). split; [now rewrite <- app_assoc|]. split; [|split].
      * apply stage_adds_step with (r := make_record "csv_blocks" (to_dict_records L df) (c_start m) (c_end m));
        [reflexivity | | ].
        -- split; [reflexivity|]. split; [|intros _; reflexivity].
        exists "csv_blocks". now split.
        -- match goal with
           | |- stage_adds _ _ (?sm, _) _ _ =>
               replace sm with (count_csv (fst out)); [exact Hnew|]
           end.
           destruct (fst out). unfold tally, count_type, count_csv. simpl. f_equal; lia.
      * simpl. constructor; auto. intros Hin.
        apply in_map_iff in Hin as [fr [E Hfr]].
        apply Hnot in Hfr. destruct (Hcons fr Hfr) as [_ Hne]. apply Hne. exact E.
      * intros fr [<- | Hfr]; [exact Hseen|].
        apply Hnot in Hfr. now destruct (Hcons fr Hfr).
    + apply IH in H as [new [-> [Hnew [Hnd Hnot]]]].
      exists new. split; [reflexivity|]. split; [exact Hnew|]. split; [exact Hnd|].
      intros fr Hfr. apply Hnot in Hfr. now destruct (Hcons fr Hfr).
Qed.

Lemma uniform_count ty (l : list ParsedFragment) :
  Forall (fun fr => fragment_type fr = ty) l ->
  count_type ty l = List.length l /\
  (forall ty', ty' <> ty -> count_type ty' l = 0).
Proof.
  unfold count_type. induction 1 as [|fr l Hfr Hl [IH1 IH2]]; simpl; [auto|].
  rewrite Hfr, String.eqb_refl. simpl. split; [now rewrite IH1|].
  intros ty' Hne. destruct (String.eqb_spec ty ty'); [congruence|]. now apply IH2.
Qed.

Lemma text_loop_spec blocks : forall idx fragments records,
  text_loop blocks idx fragments records =
  ((fragments ++ map text_fragment blocks)%list,
   (records ++ map text_record (combine (seq idx (List.length blocks)) blocks))%list).
Proof.
  induction blocks as [|b blocks IH]; intros idx frs recs; simpl.
  - now rewrite !app_nil_r.
  - rewrite IH, <- !app_assoc. reflexivity.
Qed.

Lemma text_records_derived blocks : forall idx,
  Forall2 derived (map text_fragment blocks)
    (map text_record (combine (seq idx (List.length blocks)) blocks)).
Proof.
  induction blocks as [|b blocks IH]; intros idx; simpl; constructor; auto.
  split; [reflexivity|]. split; [|intros H; discriminate H].
  exists "text_blocks". now split.
Qed.

(** The blocks that [_parse_text_blocks] turns into fragments. *)
Lemma text_blocks_spec text out :
  exists blocks,
    (forall b, In b blocks -> b <> "") /\
    _parse_text_blocks L text out =
      Return (map text_fragment blocks,
              (tally (map text_fragment blocks) 0 (fst out),
               (snd out ++ map text_record
                             (combine (seq 0 (List.length blocks)) blocks))%list)).
Proof.
  unfold _parse_text_blocks.
  set (lines := filter _ (splitlines L _)).
  exists (map (strip L) lines). split.
  - intros b Hb. apply in_map_iff in Hb as [line [<- Hline]].
    apply filter_In in Hline as [_ Hline]. apply negb_true_iff in Hline.
    intros E. rewrite E in Hline. discriminate.
  - destruct (map (strip L) lines) as [|b bs] eqn:E.
    + simpl. rewrite tally_nil, app_nil_r. now destruct out.
    + rewrite text_loop_spec. simpl app at 1. do 3 f_equal.
      assert (Hu : Forall (fun fr => fragment_type fr = "text")
                     (map text_fragment (b :: bs))).
      { apply Forall_forall. intros fr Hfr. now apply in_map_iff in Hfr as [x [<- _]]. }
      destruct (uniform_count Hu) as [Hc Hother].
      unfold tally. rewrite Hc, !Hother by discriminate.
      rewrite length_map. f_equal; lia.
Qed.

(** [_parse_text_blocks] always returns: it makes one fragment and one
    record for each block, no block is empty, and the records carry the
    sequence numbers 0, 1, 2, ... in the order of the blocks. *)
Theorem text_blocks_numbered text out :
  exists blocks,
    (forall b, In b blocks -> b <> "") /\
    _parse_text_blocks L text out =
      Return (map text_fragment blocks,
              (tally (map text_fragment blocks) 0 (fst out),
               (snd out ++ map text_record
                             (combine (seq 0 (List.length blocks)) blocks))%list)).
Proof. apply text_blocks_spec. Qed.

Lemma text_blocks_adds text out new out' :
  _parse_text_blocks L text out = Return (new, out') ->
  stage_adds "text" 0 out new out'.
Proof.
  destruct (text_blocks_spec text out) as [blocks [_ ->]].
  intros H. injection H as <- <-. split; [|split].
  - apply Forall_forall. intros fr Hfr. now apply in_map_iff in Hfr as [x [<- _]].
  - reflexivity.
  - eexists. split; [reflexivity|]. apply text_records_derived.
Qed.

Lemma key_values_adds text out new out' :
  _parse_key_values L text out = Return (new, out') ->
  stage_adds "key_value_pairs" (List.length (kv_finditer L text)) out new out' /\
  List.length new <= 1 /\ (new = [] <-> kv_finditer L text = []).
Proof.
  unfold _parse_key_values.
  destruct (kv_finditer L text) as [|m ms] eqn:E; simpl; intros H;
    injection H as <- <-.
  - split; [apply stage_adds_nil|]. split; [simpl; lia|tauto].
  - split; [|split; [simpl; lia | split; discriminate]].
    split; [now repeat constructor|]. split.
    + simpl. destruct (fst out). unfold tally, count_type. simpl.
      rewrite length_map. f_equal; lia.
    + eexists [_]. split; [reflexivity|]. repeat constructor.
      * exists "key_values". now split.
      * intros H. discriminate H.
Qed.

Lemma adds_of_stage ty k out new out' :
  stage_adds ty k out new out' -> adds k out new out'.
Proof. intros [_ H]. exact H. Qed.

Lemma adds_compose k1 k2 o0 o1 o2 n1 n2 :
  adds k1 o0 n1 o1 -> adds k2 o1 n2 o2 -> adds (k1 + k2) o0 (n1 ++ n2) o2.
Proof.
  intros [Ht1 [r1 [Hr1 Hd1]]] [Ht2 [r2 [Hr2 Hd2]]]. split.
  - now rewrite Ht2, Ht1, tally_app.
  - exists (r1 ++ r2)%list. split; [now rewrite Hr2, Hr1, app_assoc|].
    now apply Forall2_app.
Qed.

Lemma bind_Return (A B : Type) (c : outcome A) (k : A -> outcome B) (b : B) :
  bind c k = Return b -> exists a, c = Return a /\ k a = Return b.
Proof. destruct c as [a|e]; simpl; [eauto | discriminate]. Qed.

Lemma extend_Return stage text acc res :
  extend stage text acc = Return res ->
  exists new out', stage text (snd acc) = Return (new, out') /\
                   res = ((fst acc ++ new)%list, out').
Proof.
  unfold extend. intros H. apply bind_Return in H as [[new out'] [Hs H]].
  injection H as <-. eauto.
Qed.

(** What a returning [parse] went through: the six extractors in turn. *)
Lemma parse_inv text fragments sm records :
  parse L text = Return (fragments, sm, records) ->
  exists fj fh fy fc fk ft o1 o2 o3 o4 o5,
    stage_adds "json" 0 (empty_summary, []) fj o1 /\
    stage_adds "html_table" 0 o1 fh o2 /\
    stage_adds "yaml" 0 o2 fy o3 /\
    (stage_adds "csv" 0 o3 fc o4 /\ NoDup (map span_of fc)) /\
    (stage_adds "key_value_pairs" (List.length (kv_finditer L text)) o4 fk o5 /\
     List.length fk <= 1 /\ (fk = [] <-> kv_finditer L text = [])) /\
    stage_adds "text" 0 o5 ft (sm, records) /\
    fragments = (fj ++ fh ++ fy ++ fc ++ fk ++ ft)%list.
Proof.
  unfold parse. intros H.
  apply bind_Return in H as [a1 [H1 H]]. apply extend_Return in H1 as [fj [o1 [H1 ->]]].
  apply bind_Return in H as [a2 [H2 H]]. apply extend_Return in H2 as [fh [o2 [H2 ->]]].
  apply bind_Return in H as [a3 [H3 H]]. apply extend_Return in H3 as [fy [o3 [H3 ->]]].
  apply bind_Return in H as [a4 [H4 H]]. apply extend_Return in H4 as [fc [o4 [H4 ->]]].
  apply bind_Return in H as [a5 [H5 H]]. apply extend_Return in H5 as [fk [o5 [H5 ->]]].
  apply bind_Return in H as [a6 [H6 H]]. apply extend_Return in H6 as [ft [o6 [H6 ->]]].
  simpl in *. injection H as <- <- <-.
  apply json_loop_adds in H1 as [nj [Ej H1]]. simpl in Ej. subst fj.
  apply html_loop_adds in H2 as [nh [Eh H2]]. simpl in Eh. subst fh.
  apply yaml_loop_adds in H3 as [ny [Ey H3]]. simpl in Ey. subst fy.
  apply csv_loop_adds in H4 as [nc [Ec [H4 [Hnd _]]]]. simpl in Ec. subst fc.
  apply key_values_adds in H5. apply text_blocks_adds in H6.
  exists nj, nh, ny, nc, fk, ft, o1, o2, o3, o4, o5.
  destruct o6 as [sm6 r6]. simpl.
  split; [exact H1|]. split; [exact H2|]. split; [exact H3|].
  split; [split; [exact H4 | exact Hnd]|]. split; [exact H5|].
  split; [exact H6|]. now rewrite <- !app_assoc.
Qed.

Lemma parse_adds text fragments sm records :
  parse L text = Return (fragments, sm, records) ->
  adds (List.length (kv_finditer L text)) (empty_summary, []) fragments (sm, records).
Proof.
  intros H. apply parse_inv in H
    as (fj & fh & fy & fc & fk & ft & o1 & o2 & o3 & o4 & o5
        & H1 & H2 & H3 & [H4 Hnd] & [H5 [Hk Hk']] & H6 & ->).
  apply adds_of_stage in H1, H2, H3, H4, H5, H6.
  pose proof (adds_compose H5 H6) as H56.
  pose proof (adds_compose H4 H56) as H46.
  pose proof (adds_compose H3 H46) as H36.
  pose proof (adds_compose H2 H36) as H26.
  pose proof (adds_compose H1 H26) as H16.
  simpl in H16. now rewrite Nat.add_0_r in H16.
Qed.

(** The counters of the summary are the numbers of fragments of each
    type in the result, and [kv_pairs] is the number of key-value lines. *)
Theorem parse_summary_counts text fragments sm records :
  parse L text = Return (fragments, sm, records) ->
  json_fragments sm = count_type "json" fragments /\
  html_tables sm = count_type "html_table" fragments /\
  yaml_blocks sm = count_type "yaml" fragments /\
  csv_blocks sm = count_type "csv" fragments /\
  text_blocks sm = count_type "text" fragments /\
  kv_pairs sm = List.length (kv_finditer L text).
Proof.
  intros H. apply parse_adds in H as [Ht _]. simpl in Ht. subst sm.
  simpl. tauto.
Qed.

(** Fragments and records go in step: there is one record for each
    fragment, in the same order, with the range of the fragment, the
    collection of its type and, for a JSON, HTML, YAML or CSV fragment, its
    payload as data. *)
Theorem parse_records_aligned text fragments sm records :
  parse L text = Return (fragments, sm, records) ->
  Forall2 derived fragments records.
Proof.
  intros H. apply parse_adds in H as [_ [recs [Hr Hd]]].
  simpl in Hr. now subst records.
Qed.

(** The fragments come grouped by extractor, in the order JSON, HTML,
    YAML, CSV, key-value, text, with at most one key-value fragment, there
    exactly when a key-value line was matched. *)
Theorem parse_fragments_grouped text fragments sm records :
  parse L text = Return (fragments, sm, records) ->
  exists fj fh fy fc fk ft,
    fragments = (fj ++ fh ++ fy ++ fc ++ fk ++ ft)%list /\
    Forall (fun fr => fragment_type fr = "json") fj /\
    Forall (fun fr => fragment_type fr = "html_table") fh /\
    Forall (fun fr => fragment_type fr = "yaml") fy /\
    Forall (fun fr => fragment_type fr = "csv") fc /\
    Forall (fun fr => fragment_type fr = "key_value_pairs") fk /\
    Forall (fun fr => fragment_type fr = "text") ft /\
    List.length fk <= 1 /\ (fk = [] <-> kv_finditer L text = []).
Proof.
  intros H. apply parse_inv in H
    as (fj & fh & fy & fc & fk & ft & o1 & o2 & o3 & o4 & o5
        & H1 & H2 & H3 & [H4 Hnd] & [H5 [Hk Hk']] & H6 & ->).
  destruct H1 as [H1 _], H2 as [H2 _], H3 as [H3 _], H4 as [H4 _],
    H5 as [H5 _], H6 as [H6 _].
  exists fj, fh, fy, fc, fk, ft. repeat split; auto; apply Hk'.
Qed.

Lemma filter_other_type ty ty' (l : list ParsedFragment) :
  Forall (fun fr => fragment_type fr = ty) l -> ty <> ty' ->
  filter (fun fr => fragment_type fr =? ty') l = [].
Proof.
  intros Hall Hne. apply SchemaFacts.filter_none. intros fr Hfr.
  rewrite Forall_forall in Hall. rewrite (Hall fr Hfr).
  now apply String.eqb_neq.
Qed.

Lemma filter_same_type ty (l : list ParsedFragment) :
  Forall (fun fr => fragment_type fr = ty) l ->
  filter (fun fr => fragment_type fr =? ty) l = l.
Proof.
  induction 1 as [|fr l Hfr Hl IH]; simpl; [reflexivity|].
  now rewrite Hfr, String.eqb_refl, IH.
Qed.

(** No two CSV fragments of a result have the same span. *)
Theorem parse_csv_spans_distinct text fragments sm records :
  parse L text = Return (fragments, sm, records) ->
  NoDup (map span_of (filter (fun fr => fragment_type fr =? "csv") fragments)).
Proof.
  intros H. apply parse_inv in H
    as (fj & fh & fy & fc & fk & ft & o1 & o2 & o3 & o4 & o5
        & H1 & H2 & H3 & [H4 Hnd] & [H5 [Hk Hk']] & H6 & ->).
  destruct H1 as [H1 _], H2 as [H2 _], H3 as [H3 _], H4 as [H4 _],
    H5 as [H5 _], H6 as [H6 _].
  rewrite !filter_app.
  rewrite (filter_other_type H1), (filter_other_type H2), (filter_other_type H3),
    (filter_other_type H5), (filter_other_type H6), (filter_same_type H4)
    by discriminate.
  simpl. now rewrite app_nil_r.
Qed.

Lemma find_app (A : Type) (f : A -> bool) (a b : list A) :
  find f (a ++ b) = match find f a with Some x => Some x | None => find f b end.
Proof. induction a as [|x a IH]; simpl; [reflexivity|]. now destruct (f x). Qed.

Lemma fold_od_set_last (pairs : list (string * string)) : forall d0 key,
  od_get (fold_left (fun d kv => od_set d (fst kv) (VStr (snd kv))) pairs d0) key =
  match last_value pairs key with
  | Some v => Some v
  | None => od_get d0 key
  end.
Proof.
  unfold last_value.
  induction pairs as [|kv rest IH]; intros d0 key; simpl; [reflexivity|].
  rewrite IH, find_app. destruct (find _ (rev rest)) as [x|]; simpl; [reflexivity|].
  destruct (String.eqb_spec (fst kv) key) as [-> | Hne]; simpl.
  - apply od_get_set_same.
  - now apply od_get_set_other.
Qed.

Lemma od_set_length (V : Type) (d : odict V) k v :
  List.length (od_set d k v) <= S (List.length d).
Proof.
  induction d as [|[k0 v0] d IH]; simpl; [lia|].
  destruct (String.eqb k0 k); simpl; lia.
Qed.

Lemma fold_od_set_length (pairs : list (string * string)) : forall d0,
  List.length (fold_left (fun d kv => od_set d (fst kv) (VStr (snd kv))) pairs d0)
  <= List.length d0 + List.length pairs.
Proof.
  induction pairs as [|kv rest IH]; intros d0; simpl; [lia|].
  specialize (IH (od_set d0 (fst kv) (VStr (snd kv)))).
  pose proof (od_set_length d0 (fst kv) (VStr (snd kv))). lia.
Qed.

(** When key-value lines are matched they are merged into the data of one
    record: each key holds the value of its last line, no key is repeated,
    and [kv_pairs] grows by the number of lines, which may exceed the number
    of keys. *)
Theorem key_values_last_wins text out new out' :
  _parse_key_values L text out = Return (new, out') ->
  kv_finditer L text <> [] ->
  exists data,
    snd out' = (snd out ++ [make_record "key_values" (VDict data) (-1) (-1)])%list /\
    NoDup (od_keys data) /\
    (forall key, od_get data key =
                 last_value (map (kv_pair L) (kv_finditer L text)) key) /\
    kv_pairs (fst out') = kv_pairs (fst out) + List.length (kv_finditer L text) /\
    List.length data <= List.length (kv_finditer L text).
Proof.
  unfold _parse_key_values.
  destruct (kv_finditer L text) as [|m ms] eqn:E; [contradiction|].
  remember (map (kv_pair L) (m :: ms)) as pairs eqn:Hp.
  assert (Hlen : List.length pairs = List.length (m :: ms)) by (subst; apply length_map).
  destruct pairs as [|first others]; [discriminate|].
  intros H _. injection H as <- <-. cbn [fst snd].
  exists (fold_left (fun d kv => od_set d (fst kv) (VStr (snd kv))) (first :: others) []).
  split; [reflexivity|]. split; [|split; [|split]].
  - apply index_NoDup. constructor.
  - intros key. rewrite fold_od_set_last.
    now destruct (last_value (first :: others) key).
  - cbn [kv_pairs]. f_equal. exact Hlen.
  - rewrite <- Hlen. apply (fold_od_set_length (first :: others) []).
Qed.

End Stages.

Import Samples.

Lemma parse_summary_counts_witness :
  exists fragments sm records,
    parse sample_library mixed_text = Return (fragments, sm, records) /\
    json_fragments sm = 1 /\ count_type "json" fragments = 1 /\
    kv_pairs sm = 0.
Proof.
  do 3 eexists. split; [vm_compute; reflexivity|].
  pose proof (@parse_summary_counts sample_library mixed_text _ _ _ eq_refl)
    as [H1 [_ [_ [_ [_ H6]]]]].
  split; [exact H1|]. split; [reflexivity | exact H6].
Defined.

Lemma parse_records_aligned_witness :
  exists fragments sm records,
    parse sample_library mixed_text = Return (fragments, sm, records) /\
    Forall2 derived fragments records.
Proof.
  do 3 eexists. split; [vm_compute; reflexivity|].
  exact (@parse_records_aligned sample_library mixed_text _ _ _ eq_refl).
Defined.

Lemma parse_fragments_grouped_witness :
  exists fragments sm records,
    parse sections_library sections_text = Return (fragments, sm, records) /\
    map fragment_type fragments =
      ["json"; "csv"; "key_value_pairs"; "text"; "text"; "text"] /\
    exists fj fh fy fc fk ft,
      fragments = (fj ++ fh ++ fy ++ fc ++ fk ++ ft)%list /\
      Forall (fun fr => fragment_type fr = "json") fj /\
      Forall (fun fr => fragment_type fr = "html_table") fh /\
      Forall (fun fr => fragment_type fr = "yaml") fy /\
      Forall (fun fr => fragment_type fr = "csv") fc /\
      Forall (fun fr => fragment_type fr = "key_value_pairs") fk /\
      Forall (fun fr => fragment_type fr = "text") ft /\
      List.length fk <= 1 /\
      (fk = [] <-> kv_finditer sections_library sections_text = []).
Proof.
  do 3 eexists. split; [vm_compute; reflexivity|]. split; [reflexivity|].
  exact (@parse_fragments_grouped sections_library sections_text _ _ _ eq_refl).
Defined.

Lemma parse_csv_spans_distinct_witness :
  exists fragments sm records,
    parse sections_library tables_text = Return (fragments, sm, records) /\
    map span_of (filter (fun fr => fragment_type fr =? "csv") fragments) =
      [(0, 8); (9, 16)]%Z /\
    NoDup (map span_of (filter (fun fr => fragment_type fr =? "csv") fragments)).
Proof.
  do 3 eexists. split; [vm_compute; reflexivity|]. split; [reflexivity|].
  exact (@parse_csv_spans_distinct sections_library tables_text _ _ _ eq_refl).
Defined.

Lemma key_values_last_wins_witness :
  exists data,
    od_get data "name" = Some (VStr "Bob") /\ List.length data <= 2 /\
    (snd (empty_summary, @nil record)
       ++ [make_record "key_values" (VDict data) (-1) (-1)])%list
      = [make_record "key_values" (VDict [("name", VStr "Bob")]) (-1) (-1)].
Proof.
  destruct (@key_values_last_wins kv_library kv_text (empty_summary, []) _ _ eq_refl)
    as [data [Hrec [_ [Hget [_ Hlen]]]]]; [discriminate|].
  exists data. split; [|split].
  - rewrite Hget. reflexivity.
  - exact Hlen.
  - symmetry. exact Hrec.
Defined.

End ParsersMore.

(** ** Column names of the DDL *)

Module DdlFacts.
Import Py Schema Views PyFacts.

Local Abbreviation chars := list_ascii_of_string.

Lemma chars_append (a b : string) : chars (a ++ b) = (chars a ++ chars b)%list.
Proof. induction a as [|c a IH]; simpl; congruence. Qed.

(** A replacement only leaves characters of the text or of the new string. *)
Lemma replace_from_chars (old new : string) (s : string) : forall skip x,
  In x (chars (replace_from old new skip s)) -> In x (chars s) \/ In x (chars new).
Proof.
  induction s as [|c s IH]; intros skip x; [simpl; tauto|].
  cbn [replace_from]. destruct skip as [|k].
  - destruct (prefix old (String c s)).
    + rewrite chars_append, in_app_iff. intros [H | H]; [tauto|].
      apply IH in H. simpl. tauto.
    + simpl. intros [H | H]; [tauto|]. apply IH in H. tauto.
  - intros H. apply IH in H. simpl. tauto.
Qed.

(** Replacing a one-character string removes the character. *)
Lemma replace_char_gone (c : ascii) (new : string) (s : string) :
  ~ In c (chars new) -> ~ In c (chars (replace (String c "") new s)).
Proof.
  intros Hnew. unfold replace.
  induction s as [|a s IH]; simpl; [tauto|].
  destruct (ascii_dec c a) as [-> | Hne].
  - assert (Hp : prefix "" s = true) by now destruct s.
    rewrite Hp, chars_append, in_app_iff. tauto.
  - simpl. intros [H | H]; [congruence | tauto].
Qed.

Lemma lower_chars (s : string) : chars (lower s) = map lower_ascii (chars s).
Proof. induction s as [|c s IH]; simpl; congruence. Qed.

Lemma lower_ascii_not_upper (c : ascii) : is_upper (lower_ascii c) = false.
Proof.
  unfold lower_ascii, is_upper.
  destruct (Nat.leb 65 (nat_of_ascii c) && Nat.leb (nat_of_ascii c) 90) eqn:E; auto.
  apply andb_true_iff in E as [E1 E2]. apply Nat.leb_le in E1, E2.
  rewrite nat_ascii_embedding by lia.
  apply andb_false_iff. right. apply Nat.leb_gt. lia.
Qed.

(** Lowering a character yields a punctuation mark only from itself. *)
Lemma lower_ascii_other (c x : ascii) :
  is_upper x = false -> Nat.leb 97 (nat_of_ascii x) && Nat.leb (nat_of_ascii x) 122 = false ->
  lower_ascii c = x -> c = x.
Proof.
  unfold lower_ascii, is_upper. intros Hu Hl.
  destruct (Nat.leb 65 (nat_of_ascii c) && Nat.leb (nat_of_ascii c) 90) eqn:E; auto.
  apply andb_true_iff in E as [E1 E2]. apply Nat.leb_le in E1, E2.
  intros <-. rewrite nat_ascii_embedding in Hl by lia.
  apply andb_false_iff in Hl as [Hl | Hl]; apply Nat.leb_gt in Hl; lia.
Qed.

(** A column name has no dot, no bracket and no ASCII capital. *)
Theorem normalize_column_charset (p : string) (x : ascii) :
  In x (chars (_normalize_column p)) ->
  x <> "."%char /\ x <> "["%char /\ x <> "]"%char /\ is_upper x = false.
Proof.
  unfold _normalize_column. rewrite lower_chars, in_map_iff.
  intros [c [Hc Hin]].
  set (s1 := replace "$." "" p) in *.
  set (s2 := replace "[" "_" s1) in *.
  set (s3 := replace "]" "" s2) in *.
  assert (H2 : ~ In "["%char (chars s2)).
  { apply replace_char_gone. simpl. intuition discriminate. }
  assert (H3 : ~ In "]"%char (chars s3) /\ ~ In "["%char (chars s3)).
  { split; [apply replace_char_gone; simpl; tauto|].
    intros H. apply replace_from_chars in H as [H | []]. contradiction. }
  assert (H4 : ~ In "."%char (chars (replace "." "_" s3))).
  { apply replace_char_gone. simpl. intuition discriminate. }
  assert (H5 : forall y, y <> "_"%char -> In y (chars (replace "." "_" s3)) ->
                         In y (chars s3)).
  { intros y Hy H. apply replace_from_chars in H as [H | [H | []]]; congruence. }
  assert (Hnot : forall y, (y = "."%char \/ y = "["%char \/ y = "]"%char) -> c <> y).
  { intros y Hy E. subst c. destruct Hy as [-> | [-> | ->]].
    - contradiction.
    - apply H5 in Hin; [tauto | discriminate].
    - apply H5 in Hin; [tauto | discriminate]. }
  subst x. repeat split.
  - intros E. apply lower_ascii_other in E; try reflexivity.
    exact (Hnot "."%char (or_introl eq_refl) E).
  - intros E. apply lower_ascii_other in E; try reflexivity.
    exact (Hnot "["%char (or_intror (or_introl eq_refl)) E).
  - intros E. apply lower_ascii_other in E; try reflexivity.
    exact (Hnot "]"%char (or_intror (or_intror eq_refl)) E).
  - apply lower_ascii_not_upper.
Qed.

Lemma normalize_column_charset_witness :
  "_"%char <> "."%char /\ "_"%char <> "["%char /\ "_"%char <> "]"%char /\
  is_upper "_"%char = false.
Proof.
  apply (@normalize_column_charset "$.Orders.Items[0].SKU" "_"%char).
  vm_compute. tauto.
Defined.

End DdlFacts.

(** ** The heuristic translation *)

Module LlmFacts.
Import Py Schema Llm Views PyFacts SchemaFacts.

Example contains_examples :
  contains "count" "how many? count all records" = true /\
  contains " is " "where title is widget a" = true /\
  contains "avg" "average price" = false /\
  split_once "where" "count where title is widget a." = Some ("count ", " title is widget a.") /\
  strip_chars ["'"%char; "."%char] "'widget a'." = "widget a" /\
  contains "" "" = true.
Proof. repeat split. Qed.

Lemma find_none_iff (A : Type) (f : A -> bool) (l : list A) :
  find f l = None <-> forall x, In x l -> f x = false.
Proof.
  induction l as [|a l IH]; simpl; [tauto|].
  destruct (f a) eqn:E; split.
  - discriminate.
  - intros H. specialize (H a (or_introl eq_refl)). congruence.
  - intros H x [<- | Hx]; [exact E | now apply IH].
  - intros H. apply IH. intros x Hx. apply H. now right.
Qed.

Lemma filter_nil_iff (A : Type) (f : A -> bool) (l : list A) :
  filter f l = [] <-> forall x, In x l -> f x = false.
Proof.
  induction l as [|a l IH]; simpl; [tauto|].
  destruct (f a) eqn:E; split.
  - discriminate.
  - intros H. specialize (H a (or_introl eq_refl)). congruence.
  - intros H x [<- | Hx]; [exact E | now apply IH].
  - intros H. apply IH. intros x Hx. apply H. now right.
Qed.

Section Built.
Variable repr_float : float -> string.
Variable repr_container : value -> string.
Variable set_order : list string -> list string.
Variable utcnow : string.
Variable self_compatible_dbs : list string.
Variable iter_other : string -> string -> outcome unit.
Variable item0_other : string -> string -> outcome value.
Variable strip : string -> string.

Local Abbreviation build :=
  (build repr_float repr_container set_order utcnow self_compatible_dbs).
Local Abbreviation _pick_numeric_field := (_pick_numeric_field item0_other).
Local Abbreviation _heuristic_translation :=
  (_heuristic_translation repr_float repr_container iter_other item0_other).

Lemma built_suggested_index sid ver records previous s d f :
  build sid ver records previous = Return (s, d) ->
  In f (fields s) -> suggested_index f = endswith (path f) "id".
Proof.
  intros Hb Hf. eapply build_field in Hf; [|exact Hb].
  destruct Hf as [_ [v [vs [_ [_ ->]]]]]. reflexivity.
Qed.

(** What [_pick_numeric_field] does on the schema of a [build]: it may
    only raise [IndexError], and does so exactly when no field has an
    integer or number type and no path ends with "id". *)
Lemma pick_numeric_field_facts sid ver records previous s d :
  build sid ver records previous = Return (s, d) ->
  (forall e, _pick_numeric_field (document s) = Raise e -> e = IndexError) /\
  (_pick_numeric_field (document s) = Raise IndexError <->
   forall f, In f (fields s) ->
     is_numeric (store_field f) = false /\ endswith (path f) "id" = false).
Proof.
  intros Hb. pose proof Hb as Hinv.
  apply build_inv in Hinv as [_ [_ [_ [Hpk _]]]].
  unfold Llm._pick_numeric_field, document. cbn [doc_fields doc_candidates].
  rewrite Hpk.
  destruct (find is_numeric (map store_field (fields s))) as [nf|] eqn:Hfind.
  - split; [discriminate|]. split; [discriminate|]. intros H.
    apply find_some in Hfind as [Hin Hnum].
    apply in_map_iff in Hin as [f [<- Hf]].
    destruct (H f Hf) as [H1 _]. congruence.
  - assert (Hnum : forall f, In f (fields s) -> is_numeric (store_field f) = false).
    { intros f Hf. apply (proj1 (find_none_iff _ _) Hfind). now apply in_map. }
    destruct (filter suggested_index (fields s)) as [|c cs] eqn:Hfil; simpl.
    + split; [intros e H; now injection H as <-|]. split; [|reflexivity].
      intros _ f Hf. split; [now apply Hnum|].
      rewrite <- (@built_suggested_index sid ver records previous s d f Hb Hf).
      now apply (proj1 (filter_nil_iff _ _) Hfil).
    + split; [discriminate|]. split; [discriminate|]. intros H.
      assert (Hc : In c (filter suggested_index (fields s))) by (rewrite Hfil; now left).
      apply filter_In in Hc as [Hc Hsi].
      rewrite (@built_suggested_index sid ver records previous s d c Hb Hc) in Hsi.
      destruct (H c Hc). congruence.
Qed.

(** On the schema of a [build], [_pick_numeric_field] raises nothing but
    [IndexError], and raises it exactly when no field has an integer or
    number type and no path ends with "id". *)
Theorem pick_numeric_field_built sid ver records previous s d :
  build sid ver records previous = Return (s, d) ->
  (forall e, _pick_numeric_field (document s) = Raise e -> e = IndexError) /\
  (_pick_numeric_field (document s) = Raise IndexError <->
   forall f, In f (fields s) ->
     is_numeric (store_field f) = false /\ endswith (path f) "id" = false).
Proof. apply pick_numeric_field_facts. Qed.

(** A question about an average (and not about a count), asked against
    the schema of a [build] that has no integer or number field and no path
    ending with "id", is not translated: [IndexError] is raised. *)
Theorem average_translation_fails sid ver records previous s d nl_query :
  build sid ver records previous = Return (s, d) ->
  contains "count" (lower nl_query) = false ->
  contains "average" (lower nl_query) || contains "avg" (lower nl_query) = true ->
  (forall f, In f (fields s) ->
     is_numeric (store_field f) = false /\ endswith (path f) "id" = false) ->
  _heuristic_translation strip nl_query (document s) = Raise IndexError.
Proof.
  intros Hb Hcount Havg Hnone. unfold Llm._heuristic_translation.
  rewrite Hcount, Havg.
  apply (proj2 (proj2 (@pick_numeric_field_facts sid ver records previous s d Hb)))
    in Hnone.
  now rewrite Hnone.
Qed.

(** A question about a count iterates what the schema holds under
    "primary_key_candidates".  When that is absent, a list, a string or a
    dict, the question is translated into an aggregate pipeline that ends
    with the [$count] stage and has at most one stage before it; when it is
    a null, a boolean or a number, [TypeError] is raised; for an object of
    another class, the exception of iterating it is raised. *)
Theorem count_translation_returns nl_query doc :
  contains "count" (lower nl_query) = true ->
  match doc_candidates doc with
  | None | Some (VList _) | Some (VStr _) | Some (VDict _) =>
      exists stages,
        _heuristic_translation strip nl_query doc =
          Return (VDict [("aggregate",
                    VList (stages ++ [VDict [("$count", VStr "total")]])%list)]) /\
        List.length stages <= 1
  | Some VNone | Some (VBool _) | Some (VInt _) | Some (VFloat _) =>
      _heuristic_translation strip nl_query doc = Raise TypeError
  | Some (VOther cls text) =>
      forall e, iter_other cls text = Raise e ->
                _heuristic_translation strip nl_query doc = Raise e
  end.
Proof.
  intros H. unfold Llm._heuristic_translation. rewrite H.
  assert (G : exists stages,
            Return (VDict [("aggregate",
                      VList (match_stage (find_clause strip (lower nl_query)) ++
                             [VDict [("$count", VStr "total")]])%list)]) =
            Return (VDict [("aggregate",
                      VList (stages ++ [VDict [("$count", VStr "total")]])%list)]) /\
            List.length stages <= 1).
  { exists (match_stage (find_clause strip (lower nl_query))). split; [reflexivity|].
    unfold match_stage. destruct (find_clause _ _); simpl; lia. }
  destruct (doc_candidates doc) as [[| b | n | x | str | elems | items | cls text]|];
    simpl; try exact G; try reflexivity.
  intros e He. now rewrite He.
Qed.

End Built.

(** The equality filter found in a question has at most one key, and the
    key has no space. *)
Theorem find_clause_key (strip : string -> string) (lowered k : string) (v : value) :
  In (k, v) (find_clause strip lowered) ->
  ~ In " "%char (list_ascii_of_string k) /\
  List.length (find_clause strip lowered) = 1.
Proof.
  unfold find_clause.
  destruct (contains "where" lowered && contains " is " lowered); [|intros []].
  destruct (split_once "where" lowered) as [[before after]|]; [|intros []].
  destruct (contains " is " (strip after)); [|intros []].
  destruct (split_once " is " (strip after)) as [[field val]|]; [|intros []].
  intros [H | []]. injection H as <- _. split; [|reflexivity].
  apply DdlFacts.replace_char_gone. simpl. intuition discriminate.
Qed.

Import Samples LlmSamples.

Lemma pick_numeric_field_built_witness :
  exists s d,
    build0 "notes" 1 [record_only_null] None = Return (s, d) /\
    _pick_numeric_field plain_item0 (document s) = Raise IndexError.
Proof.
  do 2 eexists. split; [vm_compute; reflexivity|].
  apply (proj2 (proj2 (@pick_numeric_field_built repr_float0 repr_container0 set_order0
                         "2024-01-01T00:00:00" ["mongodb"; "postgresql"] plain_item0
                         "notes" 1%Z [record_only_null] None _ _ eq_refl))).
  intros f [<- | []]. split; reflexivity.
Defined.

Lemma average_translation_fails_witness :
  exists s d,
    build0 "notes" 1 [record_only_null] None = Return (s, d) /\
    _heuristic_translation repr_float0 repr_container0
      plain_iter plain_item0 strip_blanks "What is the average price?" (document s)
      = Raise IndexError.
Proof.
  do 2 eexists. split; [vm_compute; reflexivity|].
  apply (@average_translation_fails repr_float0 repr_container0 set_order0
           "2024-01-01T00:00:00" ["mongodb"; "postgresql"]
           plain_iter plain_item0 strip_blanks
           "notes" 1%Z [record_only_null] None _ _
           "What is the average price?" eq_refl eq_refl eq_refl).
  intros f [<- | []]. split; reflexivity.
Defined.

Lemma count_translation_returns_witness :
  _heuristic_translation repr_float0 repr_container0
    plain_iter plain_item0 strip_blanks "Count records where title is 'Widget A'."
    {| doc_fields := None; doc_candidates := Some VNone |} = Raise TypeError /\
  exists stages,
    _heuristic_translation repr_float0 repr_container0
      plain_iter plain_item0 strip_blanks "Count records where title is 'Widget A'."
      {| doc_fields := None;
         doc_candidates := Some (VList [VStr "$.json_objects.user_id"]) |} =
      Return (VDict [("aggregate",
                VList (stages ++ [VDict [("$count", VStr "total")]])%list)]) /\
    List.length stages <= 1.
Proof.
  split.
  - exact (@count_translation_returns repr_float0 repr_container0
             plain_iter plain_item0 strip_blanks "Count records where title is 'Widget A'."
             {| doc_fields := None; doc_candidates := Some VNone |} eq_refl).
  - exact (@count_translation_returns repr_float0 repr_container0
             plain_iter plain_item0 strip_blanks "Count records where title is 'Widget A'."
             {| doc_fields := None;
                doc_candidates := Some (VList [VStr "$.json_objects.user_id"]) |}
             eq_refl).
Defined.

Lemma find_clause_key_witness :
  ~ In " "%char (list_ascii_of_string "unit_price") /\
  List.length (find_clause strip_blanks "count records where unit price is 'low'.") = 1.
Proof.
  apply (@find_clause_key strip_blanks "count records where unit price is 'low'."
           "unit_price" (VStr "low")).
  now left.
Defined.

Lemma fold_set_In (A V : Type) (key : A -> string) (val : A -> V) (l : list A) k v :
  In (k, v) (fold_left (fun d a => od_set d (key a) (val a)) l []) ->
  exists a, In a l /\ key a = k /\ val a = v.
Proof.
  assert (G : forall l0 acc,
             NoDup (od_keys acc) ->
             (forall k v, In (k, v) acc -> exists a, In a l /\ key a = k /\ val a = v) ->
             incl l0 l ->
             In (k, v) (fold_left (fun d a => od_set d (key a) (val a)) l0 acc) ->
             exists a, In a l /\ key a = k /\ val a = v).
  { induction l0 as [|x l0 IH]; simpl; intros acc Hnd Hacc Hincl H; [eauto|].
    assert (Hnd' : NoDup (od_keys (od_set acc (key x) (val x))))
      by now apply od_set_NoDup.
    apply IH in H; auto.
    - intros k' v' Hin. apply In_od_get in Hin; auto.
      destruct (String.eqb_spec (key x) k') as [<- | Hne].
      + rewrite od_get_set_same in Hin. injection Hin as <-.
        exists x. split; auto. apply Hincl. now left.
      + rewrite od_get_set_other in Hin by assumption.
        apply Hacc. now apply od_get_In.
    - intros y Hy. apply Hincl. now right. }
  apply G; [constructor | intros ? ? [] | apply incl_refl].
Qed.

(** Every key of a qualified filter is a key of the raw filter, without
    its ["$."], put under ["data."], with the value it had; no key is
    repeated. *)
Theorem qualify_filter_keys (raw_filter : odict value) (k : string) (v : value) :
  NoDup (od_keys (_qualify_filter raw_filter)) /\
  (In (k, v) (_qualify_filter raw_filter) ->
   prefix "data." k = true /\
   exists k0, In (k0, v) raw_filter /\ k = "data." ++ replace "$." "" k0).
Proof.
  unfold _qualify_filter. split; [apply index_NoDup; constructor|].
  intros H. apply fold_set_In in H as [[k0 v0] [Hin [Hk Hv]]]. simpl in *. subst.
  split; [apply (ParsersMore.prefix_append "data.")|]. eauto.
Qed.

End LlmFacts.
